(** * wptrunner: reconciliation of expectation manifests (manifestupdate.py)

    A shallow embedding of [wptrunner/manifestupdate.py]: the evidence
    recording of [TestNode.set_result], the rewrite of the stored
    [expected] attribute by [TestNode.coalesce_expected], and the condition
    synthesizer [group_conditionals] / [make_expr].

    Python objects that are shared and mutated (the [ConditionalValue]
    entries, referenced both from [_data] and from [updated_expected]) live
    in an explicit store addressed by locations; exceptions are an error
    monad. *)

From Stdlib Require Import Ascii.
From stdpp Require Import gmap strings list fin_maps pretty.

Open Scope string_scope.
Open Scope list_scope.

#[local] Set Warnings "-clear-no-such-hyp".

(** ** Exceptions *)

Inductive exn :=
  | AssertionError
  | KeyError
  | ValueError
  | IndexError
  | DanglingRef. (* a reference outside the object store; never raised on a
                    well-formed node, Python has no such state *)

Inductive res (A : Type) :=
  | Ok (a : A)
  | Raise (e : exn).
Arguments Ok {A} a.
Arguments Raise {A} e.

(** The error monad, with stdpp's [x ← m; k] notation. *)
Global Instance res_bind : MBind res := λ A B k m,
  match m with
  | Ok a => k a
  | Raise e => Raise e
  end.

(** A [for] loop over a list whose body threads the state and may raise. *)
Fixpoint for_each {A S} (body : S → A → res S) (s : S) (l : list A) : res S :=
  match l with
  | [] => Ok s
  | a :: l' => s' ← body s a; for_each body s' l'
  end.

(** ** Environment descriptors and results *)

(** A value of a run_info property: a string, a number or a boolean. *)
Inductive pvalue :=
  | VStr (s : string)
  | VNum (n : Z)
  | VBool (b : bool).

Global Instance pvalue_eq_dec : EqDecision pvalue.
Proof. solve_decision. Defined.

(** Python's [==] on these values: [True == 1] and [False == 0]. *)
Definition pv_norm (v : pvalue) : pvalue :=
  match v with
  | VBool b => VNum (Z.b2z b)
  | _ => v
  end.

Definition pvalue_eqb (v w : pvalue) : bool :=
  bool_decide (pv_norm v = pv_norm w).

(** Truthiness, as in [if value:]. *)
Definition truthy (v : pvalue) : bool :=
  match v with
  | VStr s => negb (bool_decide (s = ""))
  | VNum n => negb (bool_decide (n = 0%Z))
  | VBool b => b
  end.

(** [type(value) in (int, float, long)]: [bool] is not in the tuple. *)
Definition is_number (v : pvalue) : bool :=
  match v with
  | VNum _ => true
  | _ => false
  end.

(** [unicode(value)] *)
Definition unicode (v : pvalue) : string :=
  match v with
  | VStr s => s
  | VNum n => pretty n
  | VBool true => "True"
  | VBool false => "False"
  end.

(** A run_info dict, as the list of its items. *)
Definition run_info := list (string * pvalue).

(** [run_info[prop]] *)
Fixpoint run_info_get (ri : run_info) (prop : string) : res pvalue :=
  match ri with
  | [] => Raise KeyError
  | (k, v) :: ri' => if bool_decide (k = prop) then Ok v else run_info_get ri' prop
  end.

(** [Result = namedtuple("Result", ["run_info", "status"])] *)
Record Result := mkResult {
  r_run_info : run_info;
  r_status : string
}.

(** ** The expression AST of wptmanifest.node, as far as [make_expr] builds it *)

Inductive Node :=
  | VariableNode (name : string)
  | StringNode (data : string)
  | NumberNode (data : string)
  | UnaryOperatorNode (op : string)
  | BinaryOperatorNode (op : string)
  | UnaryExpressionNode (operator operand : Node)
  | BinaryExpressionNode (operator operand1 operand2 : Node)
  | ConditionalNode (child0 child1 : Node).

Global Instance Node_eq_dec : EqDecision Node.
Proof. solve_decision. Defined.

(** [node.children] of the nodes whose children the engine reads. *)
Definition children (n : Node) : list Node :=
  match n with
  | ConditionalNode c v => [c; v]
  | UnaryExpressionNode o e => [o; e]
  | BinaryExpressionNode o e1 e2 => [o; e1; e2]
  | _ => []
  end.

(** ** make_expr *)

(** The body of the loop over [prop_set]: one test per property. *)
Definition prop_expr (pv : string * pvalue) : Node :=
  let '(prop, value) := pv in
  let value_cls := if is_number value then NumberNode else StringNode in
  if negb (bool_decide (prop ∈ ["debug"])) then
    BinaryExpressionNode (BinaryOperatorNode "==")
                         (VariableNode prop)
                         (value_cls (unicode value))
  else if truthy value then
    VariableNode prop
  else
    UnaryExpressionNode (UnaryOperatorNode "not") (VariableNode prop).

(** [for curr in reversed(expressions[:-1])]: wrap [prev] in an "and" with
    each earlier expression, the nearest one first. *)
Definition and_chain (init : list Node) (last : Node) : Node :=
  fold_left (λ prev curr,
               BinaryExpressionNode (BinaryOperatorNode "and") curr prev)
            (rev init) last.

Definition make_expr (prop_set : list (string * pvalue)) (status : string)
  : res Node :=
  if bool_decide (0 < length prop_set) then
    let expressions := prop_expr <$> prop_set in
    let node :=
      if bool_decide (1 < length expressions) then
        and_chain (removelast expressions) (List.last expressions (StringNode ""))
      else
        List.nth 0 expressions (StringNode "") in
    Ok (ConditionalNode node (StringNode status))
  else Raise AssertionError.

(** ** group_conditionals *)

(** Keys of [by_property]: a (name, value) pair, compared as Python does. *)
Definition prop_key := (string * pvalue)%type.

Definition key_eqb (k1 k2 : prop_key) : bool :=
  bool_decide (k1.1 = k2.1) && pvalue_eqb k1.2 k2.2.

(** [set.add] on a set of statuses kept as a duplicate-free list. *)
Definition set_add (s : string) (ss : list string) : list string :=
  if bool_decide (s ∈ ss) then ss else ss ++ [s].

(** [by_property[key].add(status)] on a [defaultdict(set)]. *)
Fixpoint dict_add (key : prop_key) (status : string)
    (d : list (prop_key * list string)) : list (prop_key * list string) :=
  match d with
  | [] => [(key, [status])]
  | (k, ss) :: d' =>
      if key_eqb key k then (k, set_add status ss) :: d'
      else (k, ss) :: dict_add key status d'
  end.

Fixpoint dict_get (key : prop_key) (d : list (prop_key * list string))
  : option (list string) :=
  match d with
  | [] => None
  | (k, ss) :: d' => if key_eqb key k then Some ss else dict_get key d'
  end.

(** The first loop: collect the statuses seen under each (name, value). *)
Definition collect_result (d : list (prop_key * list string)) (result : Result)
  : list (prop_key * list string) :=
  fold_left (λ d item, dict_add item (r_status result) d) (r_run_info result) d.

Definition by_property (values : list Result) : list (prop_key * list string) :=
  fold_left collect_result values [].

(** [if len(values) > 1: ... if len(statuses) == len(values): del ...] *)
Definition prune (values : list Result) (d : list (prop_key * list string))
  : list (prop_key * list string) :=
  if bool_decide (1 < length values) then
    filter (λ e, length e.2 ≠ length values) d
  else d.

Definition prop_order : list string :=
  ["debug"; "os"; "version"; "processor"; "bits"].

(** [properties = set(item[0] for item in by_property.iterkeys())], then the
    props of [prop_order] that are in it. *)
Definition include_props (values : list Result) : list string :=
  let properties := (λ e : prop_key * list string, e.1.1) <$>
                      prune values (by_property values) in
  filter (λ prop, prop ∈ properties) prop_order.

(** [tuple((prop, run_info[prop]) for prop in include_props)] *)
Fixpoint make_prop_set (ri : run_info) (props : list string)
  : res (list (string * pvalue)) :=
  match props with
  | [] => Ok []
  | prop :: props' =>
      v ← run_info_get ri prop;
      rest ← make_prop_set ri props';
      Ok ((prop, v) :: rest)
  end.

(** Tuple equality, elementwise [==]. *)
Fixpoint prop_set_eqb (p q : list (string * pvalue)) : bool :=
  match p, q with
  | [], [] => true
  | a :: p', b :: q' => key_eqb a b && prop_set_eqb p' q'
  | _, _ => false
  end.

(** The [conditions] dict. Python leaves the order of [conditions.values()]
    unspecified; the entries are kept here in insertion order. *)
Definition conditions_t := list (list (string * pvalue) * (Node * string)).

Definition conditions_mem (prop_set : list (string * pvalue)) (c : conditions_t)
  : bool :=
  existsb (λ e, prop_set_eqb prop_set e.1) c.

(** The body of the second loop. *)
Definition add_condition (props : list string) (conditions : conditions_t)
    (result : Result) : res conditions_t :=
  prop_set ← make_prop_set (r_run_info result) props;
  if conditions_mem prop_set conditions then Ok conditions
  else
    expr ← make_expr prop_set (r_status result);
    Ok (conditions ++ [(prop_set, (expr, r_status result))]).

Definition group_conditionals (values : list Result) : res (list (Node * string)) :=
  conditions ← for_each (add_condition (include_props values)) [] values;
  Ok (snd <$> (conditions : conditions_t)).

(** ** The node model *)

(** Object identity of the [ConditionalValue] entries. *)
Definition loc := nat.

(** Modelled from the spec: the [ConditionalValue] of
    wptmanifest/backends/conditional.py, one stored entry of an attribute,
    "(predicate: BooleanExpression | none, status: string)" with
    [condition_node = None] for the unconditional entry. The engine reads
    [condition_node] and reads and assigns [value]. *)
Record ConditionalValue := mkCV {
  condition_node : option Node;
  value : string
}.

(** The children of [self.node], the DataNode of the test in the manifest
    AST: the KeyValueNode of each attribute and the DataNode of each
    subtest. *)
Inductive ChildNode :=
  | KeyValueNode (data : string)
  | DataNode (name : string).

Global Instance ChildNode_eq_dec : EqDecision ChildNode.
Proof. solve_decision. Defined.

(** A [TestNode] together with what it reaches: the store of its
    [ConditionalValue] objects and the [modified] flag of its root. *)
Record TestNode := mkTestNode {
  cvalues : gmap loc ConditionalValue;
  _data : gmap string (list loc);
  node_children : list ChildNode;
  updated_expected : list (loc * list Result);
  new_expected : list Result;
  default_status : option string;
  root_modified : bool
}.

Definition with_cvalues (h : gmap loc ConditionalValue) (t : TestNode) :=
  mkTestNode h (_data t) (node_children t) (updated_expected t)
             (new_expected t) (default_status t) (root_modified t).
Definition with_data (d : gmap string (list loc)) (t : TestNode) :=
  mkTestNode (cvalues t) d (node_children t) (updated_expected t)
             (new_expected t) (default_status t) (root_modified t).
Definition with_node_children (c : list ChildNode) (t : TestNode) :=
  mkTestNode (cvalues t) (_data t) c (updated_expected t)
             (new_expected t) (default_status t) (root_modified t).
Definition with_updated_expected (u : list (loc * list Result)) (t : TestNode) :=
  mkTestNode (cvalues t) (_data t) (node_children t) u
             (new_expected t) (default_status t) (root_modified t).
Definition with_new_expected (n : list Result) (t : TestNode) :=
  mkTestNode (cvalues t) (_data t) (node_children t) (updated_expected t)
             n (default_status t) (root_modified t).
Definition with_default_status (d : option string) (t : TestNode) :=
  mkTestNode (cvalues t) (_data t) (node_children t) (updated_expected t)
             (new_expected t) d (root_modified t).
Definition with_root_modified (m : bool) (t : TestNode) :=
  mkTestNode (cvalues t) (_data t) (node_children t) (updated_expected t)
             (new_expected t) (default_status t) m.

(** Reading an object through a reference. *)
Definition deref (t : TestNode) (l : loc) : res ConditionalValue :=
  match cvalues t !! l with
  | Some cv => Ok cv
  | None => Raise DanglingRef
  end.

(** [TestNode.__init__] *)
Definition init_TestNode (node_cs : list ChildNode) : TestNode :=
  mkTestNode ∅ ∅ node_cs [] [] None false.

(** [TestNode._add_key_value(node, values)], called while a manifest is
    compiled. The inherited [ManifestItem._add_key_value] (not in the
    sources at hand) stores the entries under the key; the entries of
    [expected] become the tracked conditions, each with no result yet, so
    that the tracked conditions mirror the stored entries. *)
Definition _add_key_value (key : string) (values : list loc) (t : TestNode)
  : TestNode :=
  let t := with_data (<[key := values]> (_data t)) t in
  if bool_decide (key = "expected")
  then with_updated_expected ((λ v, (v, [])) <$> values) t
  else t.

(** A node compiled from a manifest whose only attribute is [expected], with
    the entries [cvs] in this order. *)
Definition from_file (cvs : list ConditionalValue) : TestNode :=
  let locs := seq 0 (length cvs) in
  _add_key_value "expected" locs
    (with_cvalues (list_to_map (zip locs cvs))
       (init_TestNode [KeyValueNode "expected"])).

(** What the harness passes to [set_result]: [result.status] and
    [result.default_expected]. *)
Record TestResult := mkTestResult {
  status : string;
  default_expected : string
}.

(** ** ManifestItem primitives *)

(** [list.remove(x)]: drop the first occurrence. *)
Fixpoint remove_first {A} `{EqDecision A} (x : A) (l : list A) : list A :=
  match l with
  | [] => []
  | y :: l' => if bool_decide (x = y) then l' else y :: remove_first x l'
  end.

(** The first unconditional entry among [ls]. *)
Fixpoint find_unconditional (t : TestNode) (ls : list loc) : res (option loc) :=
  match ls with
  | [] => Ok None
  | l :: ls' =>
      cv ← deref t l;
      match condition_node cv with
      | None => Ok (Some l)
      | Some _ => find_unconditional t ls'
      end
  end.

(** Modelled from the spec: [ManifestItem.get(key)] of
    wptmanifest/backends/conditional.py, which is not part of the sources
    at hand. Called without a run_info it yields "the node's current
    unconditional entry if one is stored" and raises KeyError otherwise. *)
Definition get (key : string) (t : TestNode) : res string :=
  match _data t !! key with
  | None => Raise KeyError
  | Some ls =>
      o ← find_unconditional t ls;
      match o with
      | Some l => cv ← deref t l; Ok (value cv)
      | None => Raise KeyError
      end
  end.

(** Modelled from the spec: [ManifestItem.remove_value(key, value)] of
    wptmanifest/backends/conditional.py. It removes the entry [value] (an
    object, found by identity) from the entries stored under [key]; the
    attribute stays, possibly with zero entries. *)
Definition remove_value (key : string) (l : loc) (t : TestNode) : res TestNode :=
  match _data t !! key with
  | None => Raise KeyError
  | Some ls =>
      if bool_decide (l ∈ ls)
      then Ok (with_data (<[key := remove_first l ls]> (_data t)) t)
      else Raise ValueError
  end.

(** A new entry object appended to the entries of [key]; the attribute and
    its KeyValueNode are created when [key] is not stored yet. *)
Definition append_entry (key : string) (cv : ConditionalValue) (t : TestNode)
  : TestNode :=
  let l := fresh (dom (cvalues t)) in
  let t := with_cvalues (<[l := cv]> (cvalues t)) t in
  match _data t !! key with
  | Some ls => with_data (<[key := ls ++ [l]]> (_data t)) t
  | None =>
      with_node_children (node_children t ++ [KeyValueNode key])
        (with_data (<[key := [l]]> (_data t)) t)
  end.

(** Modelled from the spec: [ManifestItem.set(key, value, condition)] of
    wptmanifest/backends/conditional.py. With [condition=None] "a single
    unconditional override entry is written": the value of the stored
    unconditional entry is overwritten, and one is appended when there is
    none. With a condition "a new conditional entry" is appended: predicates
    are compared by identity, and the predicate passed in is always a fresh
    node. *)
Definition set (key : string) (v : string) (condition : option Node)
    (t : TestNode) : res TestNode :=
  match condition with
  | Some c => Ok (append_entry key (mkCV (Some c) v) t)
  | None =>
      o ← find_unconditional t (default [] (_data t !! key));
      match o with
      | Some l =>
          cv ← deref t l;
          Ok (with_cvalues (<[l := mkCV (condition_node cv) v]> (cvalues t)) t)
      | None => Ok (append_entry key (mkCV None v) t)
      end
  end.

(** ** TestNode.set_result *)

Section set_result.

(** The compiled predicate of a condition node, evaluated on a run_info
    ([Compiler] of wptmanifest/backends/conditional.py): opaque here. *)
Variable eval_condition : Node → run_info → bool.

(** Modelled from the spec: [cond(run_info)], the [__call__] of
    [ConditionalValue] in wptmanifest/backends/conditional.py. "A predicate
    of none denotes the always-true default"; any other predicate is
    evaluated against the descriptor. *)
Definition cv_call (cv : ConditionalValue) (ri : run_info) : bool :=
  match condition_node cv with
  | None => true
  | Some n => eval_condition n ri
  end.

(** The loop over [updated_expected] with its [break]: [None] when no
    predicate held ([found] stays false), otherwise the list with the
    result appended to the first matching entry, and whether the status
    differs from the stored one. *)
Fixpoint record_match (t : TestNode) (ri : run_info) (st : string)
    (ue : list (loc * list Result))
  : res (option (list (loc * list Result) * bool)) :=
  match ue with
  | [] => Ok None
  | (cond, values) :: ue' =>
      cv ← deref t cond;
      if cv_call cv ri then
        Ok (Some ((cond, values ++ [mkResult ri st]) :: ue',
                  bool_decide (st ≠ value cv)))
      else
        o ← record_match t ri st ue';
        match o : option (list (loc * list Result) * bool) with
        | Some (ue'', differs) => Ok (Some ((cond, values) :: ue'', differs))
        | None => Ok None
        end
  end.

Definition check_default (t : TestNode) (result : TestResult) : res TestNode :=
  match default_status t with
  | Some d =>
      if bool_decide (d = default_expected result) then Ok t
      else Raise AssertionError
  | None => Ok (with_default_status (Some (default_expected result)) t)
  end.

Definition set_result (ri : run_info) (result : TestResult) (t : TestNode)
  : res TestNode :=
  t ← check_default t result;
  o ← record_match t ri (status result) (updated_expected t);
  match o : option (list (loc * list Result) * bool) with
  | Some (ue, differs) =>
      let t := with_updated_expected ue t in
      Ok (if differs then with_root_modified true t else t)
  | None =>
      Ok (with_root_modified true
            (with_new_expected (new_expected t ++ [mkResult ri (status result)]) t))
  end.

(** Recording a sequence of results, one call of [set_result] each. *)
Definition record_all (rs : list (run_info * TestResult)) (t : TestNode)
  : res TestNode :=
  for_each (λ t x, set_result x.1 x.2 t) t rs.

(** The tracked condition at [e] is evaluated on [ri] and does not hold. *)
Definition rejects (t : TestNode) (ri : run_info) (e : loc * list Result) : Prop :=
  ∃ cv, cvalues t !! e.1 = Some cv ∧ cv_call cv ri = false.

End set_result.

(** ** TestNode.coalesce_expected *)

(** [all(results[0].status == result.status for result in results)] *)
Definition all_agree (results : list Result) : bool :=
  match results with
  | [] => true
  | r0 :: _ => forallb (λ r, bool_decide (r_status r0 = r_status r)) results
  end.

(** The body of the loop over [updated_expected]. The list
    [final_conditionals] is only ever appended to and is left out. *)
Definition coalesce_entry (unconditional_status : option string)
    (t : TestNode) (e : loc * list Result) : res TestNode :=
  let '(conditional_value, results) := e in
  match results with
  | [] => Ok t
  | result :: _ =>
      cv ← deref t conditional_value;
      if all_agree results then
        if bool_decide (Some (r_status result) = unconditional_status)
           && bool_decide (condition_node cv ≠ None)
        then remove_value "expected" conditional_value t
        else Ok (with_cvalues
                   (<[conditional_value := mkCV (condition_node cv) (r_status result)]>
                      (cvalues t)) t)
      else if bool_decide (condition_node cv ≠ None) then
        t ← remove_value "expected" conditional_value t;
        Ok (with_new_expected (new_expected t ++ results) t)
      else
        Ok (with_new_expected
              (new_expected t ++
               filter (λ r, Some (r_status r) ≠ unconditional_status) results) t)
  end.

(** The body of the loop over the synthesized conditions. *)
Definition add_synthesized (unconditional_status : option string)
    (t : TestNode) (c : Node * string) : res TestNode :=
  let '(conditional_node, st) := c in
  if bool_decide (Some st ≠ unconditional_status) then
    match children conditional_node with
    | cond :: _ => set "expected" st (Some cond) t
    | [] => Raise IndexError
    end
  else Ok t.

(** [if self.new_expected: ...] *)
Definition place_new_expected (unconditional_status : option string)
    (t : TestNode) : res TestNode :=
  match new_expected t with
  | [] => Ok t
  | r0 :: _ =>
      if all_agree (new_expected t)
         && match updated_expected t with [] => true | _ => false end
      then
        if bool_decide (Some (r_status r0) ≠ default_status t)
        then set "expected" (r_status r0) None t
        else Ok t
      else
        conds ← group_conditionals (new_expected t);
        for_each (add_synthesized unconditional_status) t conds
  end.

(** The first of the two closing [if]s: drop a trailing unconditional entry
    that repeats the default. *)
Definition drop_default (t : TestNode) : res TestNode :=
  match _data t !! "expected" with
  | Some ls =>
      match last ls with
      | Some l =>
          cv ← deref t l;
          if bool_decide (condition_node cv = None)
             && bool_decide (Some (value cv) = default_status t)
          then remove_value "expected" l t
          else Ok t
      | None => Ok t
      end
  | None => Ok t
  end.

(** The second: with zero entries left, remove the KeyValueNode (the first
    one found; the loop [break]s). *)
Definition drop_empty (t : TestNode) : TestNode :=
  match _data t !! "expected" with
  | Some [] =>
      with_node_children
        (remove_first (KeyValueNode "expected") (node_children t)) t
  | _ => t
  end.

Definition unconditional_status_of (t : TestNode) : res (option string) :=
  match get "expected" t with
  | Ok v => Ok (Some v)
  | Raise KeyError => Ok (default_status t)
  | Raise e => Raise e
  end.

(** The part of [coalesce_expected] before the two closing [if]s: the pass
    over the tracked conditions, then the unplaced evidence. *)
Definition rewrite_entries (t : TestNode) : res TestNode :=
  unconditional_status ← unconditional_status_of t;
  t ← for_each (coalesce_entry unconditional_status) t (updated_expected t);
  place_new_expected unconditional_status t.

Definition coalesce_expected (t : TestNode) : res TestNode :=
  t ← rewrite_entries t;
  t ← drop_default t;
  Ok (drop_empty t).

(** * Vocabulary of the properties *)

(** ** The synthesizer *)

(** Python equality of keys is equality after normalising booleans. *)
Definition knorm (k : prop_key) : prop_key := (k.1, pv_norm k.2).

(** [key in by_property] *)
Definition dict_keys (d : list (prop_key * list string)) : list prop_key :=
  (λ e, knorm e.1) <$> d.

(** The result's run_info binds the property of [k] to the value of [k]. *)
Definition has_binding (k : prop_key) (r : Result) : bool :=
  existsb (key_eqb k) (r_run_info r).

(** [d] holds, under each key, exactly the statuses that [P] relates to it. *)
Definition tracks (d : list (prop_key * list string))
    (P : prop_key → string → Prop) : Prop :=
  ∀ k, match dict_get k d with
       | Some ss => NoDup ss ∧ ss ≠ [] ∧ ∀ s, s ∈ ss ↔ P k s
       | None => ∀ s, ¬ P k s
       end.

(** Status [s] was observed in a result of [values] that has the binding [k]. *)
Definition seen_under (values : list Result) (k : prop_key) (s : string) : Prop :=
  ∃ r, r ∈ values ∧ has_binding k r = true ∧ r_status r = s.

(** The spec's count for a candidate: the number of distinct statuses among
    the results that have the binding. *)
Definition distinct_status_count (values : list Result) (k : prop_key) : nat :=
  length (remove_dups (r_status <$> filter (λ r, has_binding k r = true) values)).

(** A candidate discriminator: a (property, value) bound in some result. *)
Definition candidate (values : list Result) (k : prop_key) : Prop :=
  is_Some (dict_get k (by_property values)).

(** A candidate that the pruning step deletes from by_property. *)
Definition discarded (values : list Result) (k : prop_key) : Prop :=
  candidate values k ∧ dict_get k (prune values (by_property values)) = None.

(** The properties a predicate tests, in the order it tests them. *)
Fixpoint tested_props (n : Node) : list string :=
  match n with
  | VariableNode p => [p]
  | UnaryExpressionNode _ e => tested_props e
  | BinaryExpressionNode _ e1 e2 => tested_props e1 ++ tested_props e2
  | ConditionalNode c _ => tested_props c
  | _ => []
  end.

(** ** The node and its mutations *)

(** The entries of the [expected] attribute, none when it is not stored. *)
Definition entries (t : TestNode) : list loc :=
  default [] (_data t !! "expected").

(** A node whose references are sound: the stored entries are distinct
    objects of the store, so are the tracked conditions, and the manifest
    has at most one KeyValueNode for [expected], none when the attribute is
    not stored. *)
Record wf (t : TestNode) : Prop := mk_wf {
  wf_entries_nodup : NoDup (entries t);
  wf_entries_alive : ∀ l, l ∈ entries t → is_Some (cvalues t !! l);
  wf_tracked_nodup : NoDup (updated_expected t).*1;
  wf_kv_once :
    KeyValueNode "expected" ∉
      remove_first (KeyValueNode "expected") (node_children t);
  wf_kv_absent :
    _data t !! "expected" = None → KeyValueNode "expected" ∉ node_children t
}.

(** [conditional_value.value = v] *)
Definition assign_value (l : loc) (cv : ConditionalValue) (v : string)
    (t : TestNode) : TestNode :=
  with_cvalues (<[l := mkCV (condition_node cv) v]> (cvalues t)) t.

(** One mutation of the node by [coalesce_expected], none of which removes
    or assigns an entry that [keep] protects. *)
Inductive step (keep : loc → Prop) : TestNode → TestNode → Prop :=
  | step_remove l t t' :
      ¬ keep l → remove_value "expected" l t = Ok t' → step keep t t'
  | step_assign l cv v t :
      ¬ keep l → cvalues t !! l = Some cv → step keep t (assign_value l cv v t)
  | step_append cv t :
      step keep t (append_entry "expected" cv t)
  | step_new n t :
      step keep t (with_new_expected n t).

Definition steps (keep : loc → Prop) : TestNode → TestNode → Prop :=
  rtc (step keep).

(** No result is waiting: every matched-results list is empty and so is the
    list of unplaced results. *)
Definition no_evidence (t : TestNode) : Prop :=
  Forall (λ e : loc * list Result, e.2 = []) (updated_expected t) ∧
  new_expected t = [].

(** The entry at [l] has no predicate. *)
Definition unconditional (t : TestNode) (l : loc) : Prop :=
  condition_node <$> cvalues t !! l = Some None.

Global Instance unconditional_dec t l : Decision (unconditional t l).
Proof. unfold unconditional. apply _. Defined.

(** The attribute has at most one unconditional entry, the fallback. *)
Definition one_fallback (t : TestNode) : Prop :=
  (length (filter (unconditional t) (entries t)) ≤ 1)%nat.

Global Instance wf_dec t : Decision (wf t).
Proof.
  refine (cast_if (decide (
    NoDup (entries t) ∧
    Forall (λ l, is_Some (cvalues t !! l)) (entries t) ∧
    NoDup ((updated_expected t).*1) ∧
    (KeyValueNode "expected" ∉
       remove_first (KeyValueNode "expected") (node_children t)) ∧
    (_data t !! "expected" = None → KeyValueNode "expected" ∉ node_children t)))).
  - destruct a as (? & Hall & ? & ? & ?). split; try done.
    by apply Forall_forall.
  - intros [? Hall ? ? ?]. apply n. split_and!; try done.
    by apply Forall_forall.
Defined.

(** ** Example nodes *)

Definition linux : run_info := [("os", VStr "linux")].
Definition win : run_info := [("os", VStr "win")].

Definition os_is (s : string) : Node :=
  BinaryExpressionNode (BinaryOperatorNode "==") (VariableNode "os") (StringNode s).

(** [expected: FAIL] in the manifest, default status PASS, and one run on
    linux that passed. *)
Definition node_fail_now_passing : TestNode :=
  with_root_modified true
    (with_default_status (Some "PASS")
       (with_updated_expected [(0, [mkResult linux "PASS"])]
          (from_file [mkCV None "FAIL"]))).

(** [expected: if os == "linux": FAIL, PASS] in the manifest, default status
    PASS, and one run on linux that failed. *)
Definition node_linux_fail : TestNode :=
  with_default_status (Some "PASS")
    (with_updated_expected [(0, [mkResult linux "FAIL"]); (1, [])]
       (from_file [mkCV (Some (os_is "linux")) "FAIL"; mkCV None "PASS"])).

(** [expected: if os == "linux": FAIL] in the manifest, default status PASS;
    the run on linux passed and a run on win, which no condition matches,
    failed. *)
Definition node_linux_passing_win_failing : TestNode :=
  with_root_modified true
    (with_default_status (Some "PASS")
       (with_new_expected [mkResult win "FAIL"]
          (with_updated_expected [(0, [mkResult linux "PASS"])]
             (from_file [mkCV (Some (os_is "linux")) "FAIL"])))).

(** [expected: FAIL] in the manifest, default status PASS; a run on linux
    passed and a run on win timed out. *)
Definition node_fail_disagreeing : TestNode :=
  with_root_modified true
    (with_default_status (Some "PASS")
       (with_updated_expected
          [(0, [mkResult linux "PASS"; mkResult win "TIMEOUT"])]
          (from_file [mkCV None "FAIL"]))).

(** [expected: if os == "linux": FAIL, if os == "win": FAIL] in the
    manifest, default status PASS, and one run on linux that passed. *)
Definition node_linux_passing : TestNode :=
  with_root_modified true
    (with_default_status (Some "PASS")
       (with_updated_expected [(0, [mkResult linux "PASS"]); (1, [])]
          (from_file [mkCV (Some (os_is "linux")) "FAIL";
                      mkCV (Some (os_is "win")) "FAIL"]))).

(** A test that is not in the manifest, default status PASS, with one
    failing run. *)
Definition node_new_failing : TestNode :=
  with_root_modified true
    (with_default_status (Some "PASS")
       (with_new_expected [mkResult linux "FAIL"] (init_TestNode []))).

(** [expected: if os == "linux": FAIL, PASS] as compiled from the manifest,
    with nothing recorded. *)
Definition node_untouched : TestNode :=
  from_file [mkCV (Some (os_is "linux")) "FAIL"; mkCV None "PASS"].

(** The node after coalesce, for nodes on which it returns. *)
Definition coalesced (t : TestNode) : TestNode :=
  match coalesce_expected t with
  | Ok t' => t'
  | Raise _ => t
  end.

(** An evaluator for the examples: the condition holds on linux. *)
Definition holds_on_linux (n : Node) (ri : run_info) : bool :=
  bool_decide (ri = linux).

(** * Vocabulary of the further properties *)

(** ** The synthesizer *)

(** The descriptor of [r] has the property [p]: [p in run_info]. *)
Definition binds_prop (r : Result) (p : string) : Prop :=
  p ∈ (r_run_info r).*1.

(** The signature of a result, for the selected properties. *)
Definition signature (props : list string) (r : Result)
  : res (list (string * pvalue)) :=
  make_prop_set (r_run_info r) props.

(** What the second loop has built from the results [done] seen so far:
    each condition comes from the first result of its signature, and every
    result seen has a condition of its signature. *)
Definition conditions_of (props : list string) (done : list Result)
    (cs : conditions_t) : Prop :=
  (length cs ≤ length done)%nat ∧
  (∀ ps c st, (ps, (c, st)) ∈ cs →
     ∃ j r, done !! j = Some r ∧ signature props r = Ok ps ∧
            st = r_status r ∧ make_expr ps st = Ok c ∧
            ∀ k r' ps', k < j → done !! k = Some r' →
                        signature props r' = Ok ps' →
                        prop_set_eqb ps ps' = false) ∧
  (∀ i r ps, done !! i = Some r → signature props r = Ok ps →
     conditions_mem ps cs = true).

(** ** Recording *)

(** The results a node holds: those matched by its tracked conditions, in
    the order of the conditions, then the unplaced ones. *)
Definition evidence (t : TestNode) : list Result :=
  concat (updated_expected t).*2 ++ new_expected t.

(** The [Result] that [set_result] builds from its arguments. *)
Definition recorded (x : run_info * TestResult) : Result :=
  mkResult x.1 (status x.2).

(** The tracked conditions of [t'] are those of [t] in the same order, each
    with results added at the end of its matched results, and so is the
    list of unplaced results. *)
Definition extends (t t' : TestNode) : Prop :=
  Forall2 (λ e e' : loc * list Result, e'.1 = e.1 ∧ e.2 `prefix_of` e'.2)
    (updated_expected t) (updated_expected t') ∧
  new_expected t `prefix_of` new_expected t'.

(** The default statuses of the results to record agree with each other and
    with the one the node has. *)
Definition defaults_agree (t : TestNode) (rs : list (run_info * TestResult))
  : Prop :=
  ∃ d, (∀ x, x ∈ rs → default_expected x.2 = d) ∧
       (∀ d0, default_status t = Some d0 → rs = [] ∨ d0 = d).

(** Every tracked condition is an object of the store. *)
Definition tracked_alive (t : TestNode) : Prop :=
  ∀ e, e ∈ updated_expected t → is_Some (cvalues t !! e.1).

(** ** Coalescing *)

(** Every tracked condition is a stored entry, as [_add_key_value] leaves
    them and as recording keeps them. *)
Definition tracked_stored (t : TestNode) : Prop :=
  ∀ e, e ∈ updated_expected t → e.1 ∈ entries t.

(** The unplaced results go through [group_conditionals]: they disagree, or
    the node tracks a condition. *)
Definition synthesizes (t : TestNode) : Prop :=
  ¬ (all_agree (new_expected t) = true ∧ updated_expected t = []).

(** [expected: if debug: FAIL] in the manifest, default status PASS; a run on
    linux passed and a run on win timed out, both matching the condition. *)
Definition node_debug_disagreeing : TestNode :=
  with_root_modified true
    (with_default_status (Some "PASS")
       (with_updated_expected
          [(0, [mkResult linux "PASS"; mkResult win "TIMEOUT"])]
          (from_file [mkCV (Some (VariableNode "debug")) "FAIL"]))).

(** A test that is not in the manifest, with two runs on linux, one failing
    and one timing out. *)
Definition node_new_flaky : TestNode :=
  with_root_modified true
    (with_default_status (Some "PASS")
       (with_new_expected [mkResult linux "FAIL"; mkResult linux "TIMEOUT"]
          (init_TestNode []))).

(** The entry at [l] is the one written for the synthesized condition [c]:
    its predicate is the first child of the ConditionalNode and its value
    the status. *)
Definition written_for (t : TestNode) (l : loc) (c : Node * string) : Prop :=
  ∃ cond, head (children c.1) = Some cond ∧
          cvalues t !! l = Some (mkCV (Some cond) c.2).

(** ** Strings *)

(** [s.split(sep)] for a separator of one character: the pieces between the
    separators, empty ones included; never the empty list. *)
Fixpoint str_split (sep : ascii) (s : string) : list string :=
  match s with
  | EmptyString => [EmptyString]
  | String c s' =>
      if bool_decide (c = sep) then EmptyString :: str_split sep s'
      else match str_split sep s' with
           | w :: ws => String c w :: ws
           | [] => [String c EmptyString]
           end
  end.

(** [sep.join(l)] *)
Fixpoint str_join (sep : string) (l : list string) : string :=
  match l with
  | [] => EmptyString
  | w :: l' =>
      match l' with
      | [] => w
      | _ :: _ => w +:+ sep +:+ str_join sep l'
      end
  end.

(** The characters of a string. *)
Fixpoint chars (s : string) : list ascii :=
  match s with
  | EmptyString => []
  | String c s' => c :: chars s'
  end.

(** [l[-1]] *)
Definition last_item {A} (l : list A) : res A :=
  match last l with
  | Some x => Ok x
  | None => Raise IndexError
  end.

(** ** The test node in its tree *)

(** A test id: the url of the test, or for a reftest the tuple
    [(url, reftype, refurl)]. *)
Inductive test_id :=
  | Url (url : string)
  | RefTest (url reftype refurl : string).

Global Instance test_id_eq_dec : EqDecision test_id.
Proof. solve_decision. Defined.

(** [test_id[i]]: an item of the tuple, or a character of the string. *)
Definition test_id_item (i : nat) (id : test_id) : res string :=
  match id with
  | RefTest url reftype refurl =>
      match [url; reftype; refurl] !! i with
      | Some s => Ok s
      | None => Raise IndexError
      end
  | Url s =>
      match String.get i s with
      | Some c => Ok (String c EmptyString)
      | None => Raise IndexError
      end
  end.

(** A [TestNode] or [SubtestNode] with what the tree adds to the node
    above: its name ([self.name], the data of its DataNode), [_from_file],
    the children appended to it, and [subtests], which maps a name to one of
    the children, here to its position among them. *)
#[local] Set Warnings "-register-all".
Inductive TestTree := mkTree {
  t_name : string;
  t_from_file : bool;
  t_item : TestNode;
  t_children : list TestTree;
  t_subtests : gmap string nat
}.

Definition with_item (n : TestNode) (t : TestTree) : TestTree :=
  mkTree (t_name t) (t_from_file t) n (t_children t) (t_subtests t).

(** [cls(DataNode(name))]: [TestNode.__init__] on a new DataNode. *)
Definition new_tree (name : string) : TestTree :=
  mkTree name true (init_TestNode []) [] ∅.

(** What [TestNode.create] raises: an exception of the list above, or the
    AttributeError of [url.split] when [url] is a tuple. *)
Inductive create_exn :=
  | Raised (e : exn)
  | AttributeError.

Definition lift_res {A} (m : res A) : A + create_exn :=
  match m with
  | Ok a => inl a
  | Raise e => inr (Raised e)
  end.

(** [TestNode.create(test_type, test_id)] *)
Definition create (test_type : string) (id : test_id) : TestTree + create_exn :=
  if bool_decide (test_type = "reftest") then
    lift_res (
      url ← test_id_item 0 id;
      name ← last_item (str_split "/"%char url);
      t ← set "type" test_type None (init_TestNode []);
      reftype ← test_id_item 1 id;
      t ← set "reftype" reftype None t;
      refurl ← test_id_item 2 id;
      t ← set "refurl" refurl None t;
      Ok (mkTree name false t [] ∅))
  else
    match id with
    | Url url =>
        lift_res (
          name ← last_item (str_split "/"%char url);
          t ← set "type" test_type None (init_TestNode []);
          Ok (mkTree name false t [] ∅))
    | RefTest _ _ _ => inr AttributeError
    end.

(** [TestNode.test_type] *)
Definition test_type (t : TestTree) : res string :=
  get "type" (t_item t).

(** [TestNode.id], for a node whose parent has the path [test_path];
    [sep] is [os.path.sep]. *)
Definition node_id (sep : ascii) (test_path : string) (t : TestTree)
  : res test_id :=
  let components := removelast (str_split sep test_path) ++ [t_name t] in
  let url := "/" +:+ str_join "/" components in
  type ← test_type t;
  if bool_decide (type = "reftest") then
    reftype ← get "reftype" (t_item t);
    refurl ← get "refurl" (t_item t);
    Ok (RefTest url reftype refurl)
  else Ok (Url url).

(** [SubtestNode.is_empty] *)
Definition subtest_is_empty (t : TestTree) : bool :=
  bool_decide (_data (t_item t) = ∅).

(** [TestNode.is_empty]; the children of a [TestNode] are [SubtestNode]s. *)
Definition is_empty (t : TestTree) : res bool :=
  type ← test_type t;
  let required_keys : gset string :=
    if bool_decide (type = "reftest")
    then {["type"]} ∪ {["reftype"; "refurl"]}
    else {["type"]} in
  if bool_decide (dom (_data (t_item t)) ≠ required_keys) then Ok false
  else Ok (forallb subtest_is_empty (t_children t)).

(** [TestNode.append(node)]. The inherited [ManifestItem.append] (not in the
    sources at hand) adds the child to [self.children], puts its DataNode
    under [self.node] and returns it; [subtests] then maps the child's name
    to it. *)
Definition append (child : TestTree) (t : TestTree) : TestTree :=
  mkTree (t_name t) (t_from_file t)
    (with_node_children
       (node_children (t_item t) ++ [DataNode (t_name child)]) (t_item t))
    (t_children t ++ [child])
    (<[t_name child := length (t_children t)]> (t_subtests t)).

(** [TestNode.get_subtest(name)]: the tree, and the subtest as its position
    among the children. [SubtestNode.create(name)] is [new_tree name]. *)
Definition get_subtest (name : string) (t : TestTree) : TestTree * nat :=
  match t_subtests t !! name with
  | Some i => (t, i)
  | None => (append (new_tree name) t, length (t_children t))
  end.

(** [TestNode.clear_expected] without the loop over the subtests. *)
Definition clear_expected_item (t : TestNode) : TestNode :=
  let t := with_updated_expected [] t in
  match _data t !! "expected" with
  | Some _ =>
      if bool_decide (KeyValueNode "expected" ∈ node_children t) then
        with_data (delete "expected" (_data t))
          (with_node_children
             (remove_first (KeyValueNode "expected") (node_children t)) t)
      else t
  | None => t
  end.

(** [TestNode.clear_expected]: the node, then every child that is a value of
    [subtests]. *)
Fixpoint clear_expected (t : TestTree) : TestTree :=
  match t with
  | mkTree name from_file item children subtests =>
      mkTree name from_file (clear_expected_item item)
        ((fix go (i : nat) (cs : list TestTree) : list TestTree :=
            match cs with
            | [] => []
            | c :: cs' =>
                (if bool_decide (i ∈ (map_img subtests : gset nat))
                 then clear_expected c else c) :: go (S i) cs'
            end) 0 children)
        subtests
  end.

(** The url of a test id. *)
Definition id_url (id : test_id) : string :=
  match id with
  | Url url => url
  | RefTest url _ _ => url
  end.

(** The test type and the shape of the id fit: a tuple for a reftest, a
    string otherwise. *)
Definition id_fits (test_type : string) (id : test_id) : Prop :=
  match id with
  | Url _ => test_type ≠ "reftest"
  | RefTest _ _ _ => test_type = "reftest"
  end.

(** Every name of [subtests] maps to a child with that name. *)
Definition subtests_linked (t : TestTree) : Prop :=
  ∀ name i, t_subtests t !! name = Some i →
            ∃ c, t_children t !! i = Some c ∧ t_name c = name.

(** The subtest reached from [t] by a path of names, each looked up in
    [subtests]. *)
Fixpoint descend (path : list string) (t : TestTree) : option TestTree :=
  match path with
  | [] => Some t
  | name :: path' =>
      i ← t_subtests t !! name;
      c ← t_children t !! i;
      descend path' c
  end.


(** ** The nodes that can arise *)

(** New [ConditionalValue] objects, one for each entry of an attribute. *)
Fixpoint alloc (cvs : list ConditionalValue) (t : TestNode)
  : list loc * TestNode :=
  match cvs with
  | [] => ([], t)
  | cv :: cvs' =>
      let l := fresh (dom (cvalues t)) in
      let '(ls, t') := alloc cvs' (with_cvalues (<[l := cv]> (cvalues t)) t) in
      (l :: ls, t')
  end.

(** One attribute of a section that is compiled: its entries become new
    objects and [_add_key_value] is called with them. *)
Definition add_attribute (t : TestNode) (a : string * list ConditionalValue)
  : TestNode :=
  let '(ls, t') := alloc a.2 t in _add_key_value a.1 ls t'.

(** Modelled from the spec: what [conditional.compile] of
    wptmanifest/backends/conditional.py, which is not part of the sources at
    hand, does for a test section that is "populated by parsing existing
    text". The node is made on the DataNode of the section, whose children
    are the KeyValueNodes of its attributes and the DataNodes of its
    subtests, and [_add_key_value] is called once for each attribute, in the
    order of the file. *)
Definition compile_node (attrs : list (string * list ConditionalValue))
    (subtest_names : list string) : TestNode :=
  foldl add_attribute
    (init_TestNode ((KeyValueNode <$> attrs.*1) ++ (DataNode <$> subtest_names)))
    attrs.

(** The nodes before their first [coalesce_expected]: compiled from a
    manifest in which no attribute is written twice, made by
    [TestNode.create] or by the constructor on a new DataNode (as
    [SubtestNode.create] does), then cleared and recorded on in any order. *)
Inductive recorded_node (eval_condition : Node → run_info → bool)
  : TestNode → Prop :=
  | recorded_from_file cvs :
      recorded_node eval_condition (from_file cvs)
  | recorded_compiled attrs subtest_names :
      NoDup attrs.*1 →
      recorded_node eval_condition (compile_node attrs subtest_names)
  | recorded_new :
      recorded_node eval_condition (init_TestNode [])
  | recorded_created type id t :
      create type id = inl t →
      recorded_node eval_condition (t_item t)
  | recorded_clear t :
      recorded_node eval_condition t →
      recorded_node eval_condition (clear_expected_item t)
  | recorded_set_result ri result t t' :
      recorded_node eval_condition t →
      set_result eval_condition ri result t = Ok t' →
      recorded_node eval_condition t'.

(** The nodes that these become when [coalesce_expected], [clear_expected]
    and further recordings follow in any order. *)
Inductive reachable (eval_condition : Node → run_info → bool)
  : TestNode → Prop :=
  | reachable_recorded t :
      recorded_node eval_condition t → reachable eval_condition t
  | reachable_set_result ri result t t' :
      reachable eval_condition t →
      set_result eval_condition ri result t = Ok t' →
      reachable eval_condition t'
  | reachable_clear t :
      reachable eval_condition t →
      reachable eval_condition (clear_expected_item t)
  | reachable_coalesce t t' :
      reachable eval_condition t →
      coalesce_expected t = Ok t' →
      reachable eval_condition t'.

(** The section of a testharness test with [expected: if os == "linux":
    FAIL], as compiled. *)
Definition node_compiled_linux_fail : TestNode :=
  compile_node [("type", [mkCV None "testharness"]);
                ("expected", [mkCV (Some (os_is "linux")) "FAIL"])] [].

(** The same node after a run on linux that passed and a run on win that
    failed. *)
Definition node_compiled_recorded : TestNode :=
  with_root_modified true
    (with_new_expected [mkResult win "FAIL"]
       (with_updated_expected [(1, [mkResult linux "PASS"])]
          (with_default_status (Some "PASS") node_compiled_linux_fail))).

(** ** ExpectedManifest *)

Global Instance test_id_countable : Countable test_id.
Proof.
  refine (inj_countable'
            (λ id, match id with
                   | Url u => inl u
                   | RefTest u a b => inr (u, a, b)
                   end)
            (λ x, match x with
                  | inl u => Url u
                  | inr (u, a, b) => RefTest u a b
                  end) _).
  by intros [].
Defined.

(** An [ExpectedManifest] with the [TestNode]s it reaches: these are
    objects, referenced both from [children] and from [child_map]. The
    [modified] flag is the [root_modified] that the nodes above carry. *)
Record ExpectedManifest := mkManifest {
  tests : gmap loc TestTree;
  m_children : list loc;
  child_map : gmap test_id loc;
  test_path : string
}.

(** [ExpectedManifest.__init__] *)
Definition init_ExpectedManifest (path : string) : ExpectedManifest :=
  mkManifest ∅ [] ∅ path.

(** [child.id], for a child of the manifest. *)
Definition child_id (sep : ascii) (m : ExpectedManifest) (l : loc)
  : res test_id :=
  match tests m !! l with
  | Some c => node_id sep (test_path m) c
  | None => Raise DanglingRef
  end.

(** [assert len(self.child_map) == len(self.children)] *)
Definition check_lengths (m : ExpectedManifest) : res ExpectedManifest :=
  if bool_decide (size (child_map m) = length (m_children m)) then Ok m
  else Raise AssertionError.

(** [ExpectedManifest.append(child)], for a child that is a new object;
    the result is the manifest and the reference of the child. Modelled from
    the spec: the inherited [ManifestItem.append] of
    wptmanifest/backends/conditional.py adds the child to "the ordered child
    collection" and makes the manifest its parent. *)
Definition manifest_append (sep : ascii) (child : TestTree)
    (m : ExpectedManifest) : res (ExpectedManifest * loc) :=
  let l := fresh (dom (tests m)) in
  let m := mkManifest (<[l := child]> (tests m)) (m_children m ++ [l])
                      (child_map m) (test_path m) in
  id ← child_id sep m l;
  m ← check_lengths
        (mkManifest (tests m) (m_children m) (<[id := l]> (child_map m))
                    (test_path m));
  Ok (m, l).

(** [ExpectedManifest._remove_child(child)]. Modelled from the spec: the
    inherited [ManifestItem._remove_child] removes the child from "the
    ordered child collection" ([list.remove], which raises ValueError for an
    object that is not in it). *)
Definition _remove_child (sep : ascii) (l : loc) (m : ExpectedManifest)
  : res ExpectedManifest :=
  id ← child_id sep m l;
  match child_map m !! id with
  | None => Raise KeyError
  | Some _ =>
      if bool_decide (l ∈ m_children m) then
        check_lengths
          (mkManifest (tests m) (remove_first l (m_children m))
                      (delete id (child_map m)) (test_path m))
      else Raise ValueError
  end.

(** [ExpectedManifest.get_test(test_id)] *)
Definition get_test (id : test_id) (m : ExpectedManifest) : res loc :=
  match child_map m !! id with
  | Some l => Ok l
  | None => Raise KeyError
  end.

(** [ExpectedManifest.has_test(test_id)] *)
Definition has_test (id : test_id) (m : ExpectedManifest) : bool :=
  bool_decide (is_Some (child_map m !! id)).

(** The index and the children correspond one to one: the children are
    distinct, each has an id under which [child_map] has it, and
    [child_map] has nothing else. *)
Definition indexed (sep : ascii) (m : ExpectedManifest) : Prop :=
  NoDup (m_children m) ∧
  size (child_map m) = length (m_children m) ∧
  (∀ l, l ∈ m_children m →
        ∃ id, child_id sep m l = Ok id ∧ child_map m !! id = Some l) ∧
  (∀ id l, child_map m !! id = Some l →
           l ∈ m_children m ∧ child_id sep m l = Ok id).

(** The manifests built from an empty one by [append] and [_remove_child]
    calls that return. *)
Inductive built (sep : ascii) : ExpectedManifest → Prop :=
  | built_init path : built sep (init_ExpectedManifest path)
  | built_append child m m' l :
      built sep m → manifest_append sep child m = Ok (m', l) → built sep m'
  | built_remove l m m' :
      built sep m → _remove_child sep l m = Ok m' → built sep m'.

(** The node that [TestNode.create] makes for the testharness test
    [/dom/a.html], and the manifest of [dom/a.html] that holds it. *)
Definition node_a : TestTree :=
  mkTree "a.html" false
    (append_entry "type" (mkCV None "testharness") (init_TestNode [])) [] ∅.

Definition manifest_a : ExpectedManifest :=
  mkManifest {[0 := node_a]} [0] {[Url "/dom/a.html" := 0]} "dom/a.html".

(** ** A second coalesce_expected *)




(** [expected: if os == "linux": FAIL] in the manifest, default status PASS,
    and one run on linux that timed out. *)
Definition node_linux_timeout : TestNode :=
  with_root_modified true
    (with_default_status (Some "PASS")
       (with_updated_expected [(0, [mkResult linux "TIMEOUT"])]
          (from_file [mkCV (Some (os_is "linux")) "FAIL"]))).

(** The node of [node_linux_timeout] with one more run, on win, that failed
    and that no condition matches. *)
Definition node_linux_timeout_win_failing : TestNode :=
  with_new_expected [mkResult win "FAIL"] node_linux_timeout.

(** [expected: if os == "linux": FAIL, TIMEOUT] in the manifest, default
    status PASS; a run on linux and a run on win, both passing. *)
Definition node_fallback_passing : TestNode :=
  with_root_modified true
    (with_default_status (Some "PASS")
       (with_updated_expected
          [(0, [mkResult linux "PASS"]); (1, [mkResult win "PASS"])]
          (from_file [mkCV (Some (os_is "linux")) "FAIL";
                      mkCV None "TIMEOUT"]))).

(** ** The attribute that coalesce_expected empties *)

(** [type: testharness] and [expected: FAIL] as compiled from the manifest. *)
Definition node_compiled_fail : TestNode :=
  compile_node [("type", [mkCV None "testharness"]);
                ("expected", [mkCV None "FAIL"])] [].

(** * Properties *)

(** ** The error monad *)

Lemma bind_Ok {A B} (m : res A) (k : A → res B) (b : B) :
  (m ≫= k) = Ok b → ∃ a, m = Ok a ∧ k a = Ok b.
Proof. destruct m as [a|e]; [eauto | discriminate]. Qed.

Ltac inv_bind H :=
  let a := fresh "a" in
  let Ha := fresh "Ha" in
  apply bind_Ok in H; destruct H as (a & Ha & H).

Lemma for_each_app {A S} (body : S → A → res S) s l1 l2 :
  for_each body s (l1 ++ l2) = (for_each body s l1 ≫= λ s', for_each body s' l2).
Proof.
  revert s. induction l1 as [|a l1 IH]; intros s; simpl; [done|].
  destruct (body s a); simpl; [apply IH | done].
Qed.

(** An invariant of the loop body holds after the loop. *)
Lemma for_each_invariant {A S} (I : S → Prop) (body : S → A → res S) l :
  (∀ s a s', a ∈ l → I s → body s a = Ok s' → I s') →
  ∀ s s', I s → for_each body s l = Ok s' → I s'.
Proof.
  induction l as [|a l IH]; intros Hbody s s' Hs Hrun; simpl in Hrun.
  - by inversion Hrun; subst.
  - inv_bind Hrun. eapply IH; [| |exact Hrun].
    + intros; eapply Hbody; [by right|done..].
    + eapply Hbody; [by left|done..].
Qed.

(** ** Keys of by_property *)

Lemma key_eqb_norm k1 k2 : key_eqb k1 k2 = true ↔ knorm k1 = knorm k2.
Proof.
  unfold key_eqb, pvalue_eqb, knorm. destruct k1, k2; simpl.
  rewrite andb_true_iff, !bool_decide_eq_true. split.
  - by intros [-> ->].
  - by inversion 1.
Qed.

Lemma key_eqb_refl k : key_eqb k k = true.
Proof. by apply key_eqb_norm. Qed.

Lemma key_eqb_norm_false k1 k2 : key_eqb k1 k2 = false ↔ knorm k1 ≠ knorm k2.
Proof.
  rewrite <-key_eqb_norm. destruct (key_eqb k1 k2); split; congruence.
Qed.

Lemma key_eqb_congr k1 k2 k : knorm k1 = knorm k2 → key_eqb k1 k = key_eqb k2 k.
Proof.
  intros Heq. destruct (key_eqb k2 k) eqn:E.
  - apply key_eqb_norm. apply key_eqb_norm in E. congruence.
  - apply key_eqb_norm_false. apply key_eqb_norm_false in E. congruence.
Qed.

Lemma dict_get_None k d : dict_get k d = None ↔ knorm k ∉ dict_keys d.
Proof.
  induction d as [|[k' ss] d IH]; simpl.
  - split; [intros _; apply not_elem_of_nil | done].
  - rewrite not_elem_of_cons. destruct (key_eqb k k') eqn:E.
    + apply key_eqb_norm in E. split; [done | intros [? _]; done].
    + apply key_eqb_norm_false in E. rewrite IH. simpl. tauto.
Qed.

Lemma dict_get_Some_elem k ss d :
  dict_get k d = Some ss → ∃ k', knorm k = knorm k' ∧ (k', ss) ∈ d.
Proof.
  induction d as [|[k' ss'] d IH]; simpl; [done|].
  destruct (key_eqb k k') eqn:E.
  - intros [= ->]. apply key_eqb_norm in E. exists k'. split; [done | by left].
  - intros H. destruct (IH H) as (k'' & ? & ?). exists k''. split; [done | by right].
Qed.

Lemma dict_elem_get k ss d :
  NoDup (dict_keys d) → (k, ss) ∈ d → dict_get k d = Some ss.
Proof.
  induction d as [|[k' ss'] d IH]; simpl; intros Hnd Hin.
  - by apply elem_of_nil in Hin.
  - apply NoDup_cons in Hnd as [Hk' Hnd].
    apply elem_of_cons in Hin as [[= <- <-] | Hin].
    + by rewrite key_eqb_refl.
    + destruct (key_eqb k k') eqn:E; [|by apply IH].
      apply key_eqb_norm in E. exfalso. apply Hk'. simpl. rewrite <-E.
      apply list_elem_of_fmap. by exists (k, ss).
Qed.

Lemma dict_add_get k k' s d :
  dict_get k (dict_add k' s d) =
  if key_eqb k k' then Some (set_add s (default [] (dict_get k d)))
  else dict_get k d.
Proof.
  induction d as [|[k0 ss] d IH]; simpl.
  - by destruct (key_eqb k k').
  - destruct (key_eqb k' k0) eqn:E0; simpl.
    + destruct (key_eqb k k') eqn:E.
      * assert (key_eqb k k0 = true) as ->; [|done].
        apply key_eqb_norm. apply key_eqb_norm in E0, E. congruence.
      * assert (key_eqb k k0 = false) as ->; [|done].
        apply key_eqb_norm_false. apply key_eqb_norm in E0.
        apply key_eqb_norm_false in E. congruence.
    + destruct (key_eqb k k0) eqn:E1.
      * assert (key_eqb k k' = false) as ->; [|done].
        apply key_eqb_norm_false. apply key_eqb_norm in E1.
        apply key_eqb_norm_false in E0. congruence.
      * apply IH.
Qed.

Lemma dict_add_keys k s d :
  dict_keys (dict_add k s d) =
  if bool_decide (knorm k ∈ dict_keys d) then dict_keys d
  else dict_keys d ++ [knorm k].
Proof.
  induction d as [|[k0 ss] d IH]; simpl; [done|].
  destruct (key_eqb k k0) eqn:E; simpl.
  - apply key_eqb_norm in E. rewrite bool_decide_eq_true_2; [done | rewrite E; left].
  - apply key_eqb_norm_false in E. rewrite IH.
    destruct (decide (knorm k ∈ dict_keys d)).
    + rewrite !bool_decide_eq_true_2; [done | by right | done].
    + rewrite !bool_decide_eq_false_2; [done | | done].
      rewrite not_elem_of_cons. done.
Qed.

Lemma dict_add_NoDup k s d : NoDup (dict_keys d) → NoDup (dict_keys (dict_add k s d)).
Proof.
  intros Hnd. rewrite dict_add_keys. case_bool_decide; [done|].
  apply NoDup_app. split_and!; [done | | apply NoDup_singleton].
  intros x Hx Hx'. apply list_elem_of_singleton in Hx'. by subst.
Qed.

Lemma collect_result_NoDup d r :
  NoDup (dict_keys d) → NoDup (dict_keys (collect_result d r)).
Proof.
  unfold collect_result. generalize (r_run_info r) as items.
  intros items; revert d.
  induction items as [|it items IH]; intros d Hnd; simpl; [done|].
  by apply IH, dict_add_NoDup.
Qed.

Lemma by_property_NoDup values : NoDup (dict_keys (by_property values)).
Proof.
  unfold by_property.
  assert (NoDup (dict_keys [])) as Hnil by constructor.
  revert Hnil. generalize (@nil (prop_key * list string)) as d.
  induction values as [|r values IH]; intros d Hnd; simpl; [done|].
  by apply IH, collect_result_NoDup.
Qed.

(** ** What by_property holds *)

Lemma set_add_elem s s' ss : s ∈ set_add s' ss ↔ s ∈ ss ∨ s = s'.
Proof.
  unfold set_add. case_bool_decide as Hin.
  - split; [by left | intros [?| ->]; done].
  - rewrite elem_of_app, list_elem_of_singleton. done.
Qed.

Lemma set_add_NoDup s ss : NoDup ss → NoDup (set_add s ss).
Proof.
  intros Hnd. unfold set_add. case_bool_decide as Hin; [done|].
  apply NoDup_app. split_and!; [done | | apply NoDup_singleton].
  intros x Hx Hx'. apply list_elem_of_singleton in Hx'. by subst.
Qed.

Lemma set_add_nonempty s ss : set_add s ss ≠ [].
Proof.
  unfold set_add. case_bool_decide as Hin.
  - intros ->. by apply elem_of_nil in Hin.
  - by destruct ss.
Qed.

Lemma tracks_iff d P Q : (∀ k s, P k s ↔ Q k s) → tracks d P → tracks d Q.
Proof.
  intros HPQ Ht k. specialize (Ht k). destruct (dict_get k d) as [ss|].
  - destruct Ht as (? & ? & Hs). split_and!; [done..|].
    intros s. by rewrite Hs.
  - intros s. by rewrite <-HPQ.
Qed.

Lemma tracks_dict_add d P k' s' :
  tracks d P →
  tracks (dict_add k' s' d) (λ k s, P k s ∨ (key_eqb k k' = true ∧ s = s')).
Proof.
  intros Ht k. specialize (Ht k). rewrite dict_add_get.
  destruct (key_eqb k k') eqn:E.
  - split_and!.
    + destruct (dict_get k d) as [ss|]; simpl.
      * apply set_add_NoDup, Ht.
      * apply set_add_NoDup. constructor.
    + apply set_add_nonempty.
    + intros s. rewrite set_add_elem.
      destruct (dict_get k d) as [ss|]; simpl.
      * destruct Ht as (_ & _ & Hs). rewrite Hs. naive_solver.
      * split; [intros [Hn | ->]; [by apply elem_of_nil in Hn | by right]|].
        intros [HP | [_ ->]]; [by apply Ht in HP | by right].
  - destruct (dict_get k d) as [ss|].
    + destruct Ht as (? & ? & Hs). split_and!; [done..|].
      intros s. rewrite Hs. naive_solver.
    + intros s [HP | [? _]]; [by apply Ht in HP | done].
Qed.

Lemma tracks_collect_result d P r :
  tracks d P →
  tracks (collect_result d r)
         (λ k s, P k s ∨ (has_binding k r = true ∧ s = r_status r)).
Proof.
  unfold collect_result, has_binding.
  generalize (r_run_info r) as items. intros items. revert d P.
  induction items as [|it items IH]; intros d P Ht; simpl.
  - eapply tracks_iff; [|exact Ht]. naive_solver.
  - eapply tracks_iff; [|apply IH, tracks_dict_add, Ht].
    intros k s. simpl. rewrite orb_true_iff. naive_solver.
Qed.

Lemma tracks_by_property values : tracks (by_property values) (seen_under values).
Proof.
  unfold by_property.
  assert (∀ d P, tracks d P →
            tracks (fold_left collect_result values d)
                   (λ k s, P k s ∨ seen_under values k s)) as Hgen.
  { induction values as [|r values IH]; intros d P Ht; simpl.
    - eapply tracks_iff; [|exact Ht]. intros k s. split; [by left|].
      intros [?|(r & Hr & _)]; [done | by apply elem_of_nil in Hr].
    - eapply tracks_iff; [|apply IH, tracks_collect_result, Ht].
      intros k s. simpl. unfold seen_under. split.
      + intros [[?|[? ->]]|(r' & ? & ? & ?)]; [by left| |].
        * right. exists r. split_and!; [by left | done..].
        * right. exists r'. split_and!; [by right | done..].
      + intros [?|(r' & Hr' & ? & ?)]; [by left; left|].
        apply elem_of_cons in Hr' as [-> | ?].
        * left; right. done.
        * right. by exists r'. }
  eapply tracks_iff; [|apply (Hgen [] (λ _ _, False))].
  - naive_solver.
  - intros k. simpl. tauto.
Qed.

Lemma by_property_count values k ss :
  dict_get k (by_property values) = Some ss →
  length ss = distinct_status_count values k.
Proof.
  intros Hget. pose proof (tracks_by_property values k) as Ht.
  rewrite Hget in Ht. destruct Ht as (Hnd & _ & Hs).
  unfold distinct_status_count. apply Permutation_length.
  apply NoDup_Permutation; [done | apply NoDup_remove_dups |].
  intros s. rewrite Hs, elem_of_remove_dups, list_elem_of_fmap.
  unfold seen_under. split.
  - intros (r & ? & ? & ?). exists r. split; [done|].
    by apply list_elem_of_filter.
  - intros (r & ? & Hr). apply list_elem_of_filter in Hr as [? ?]. by exists r.
Qed.

(** A candidate is a key of by_property: some result has the binding. *)
Lemma by_property_candidate values k :
  is_Some (dict_get k (by_property values)) ↔
  ∃ r, r ∈ values ∧ has_binding k r = true.
Proof.
  pose proof (tracks_by_property values k) as Ht.
  destruct (dict_get k (by_property values)) as [ss|].
  - destruct Ht as (_ & Hne & Hs). split; [intros _ | by eauto].
    destruct ss as [|s ss]; [done|].
    destruct (proj1 (Hs s)) as (r & ? & ? & _); [by left|]. by exists r.
  - split; [by intros [? ?]|]. intros (r & ? & ?). exfalso.
    apply (Ht (r_status r)). by exists r.
Qed.

(** ** Pruning *)

Lemma dict_get_filter (P : prop_key * list string → Prop)
    `{∀ e, Decision (P e)} k d :
  NoDup (dict_keys d) →
  (∀ k1 k2 ss, knorm k1 = knorm k2 → P (k1, ss) ↔ P (k2, ss)) →
  dict_get k (filter P d) =
  match dict_get k d with
  | Some ss => if decide (P (k, ss)) then Some ss else None
  | None => None
  end.
Proof.
  intros Hnd Hresp. induction d as [|[k' ss] d IH]; simpl; [done|].
  apply NoDup_cons in Hnd as [Hk' Hnd]. specialize (IH Hnd).
  rewrite filter_cons. destruct (key_eqb k k') eqn:E.
  - apply key_eqb_norm in E.
    destruct (decide (P (k', ss))) as [HP|HP]; simpl.
    + apply key_eqb_norm in E. rewrite E.
      apply key_eqb_norm in E. rewrite decide_True; [done|].
      by apply (Hresp k k').
    + rewrite decide_False; [|by rewrite (Hresp k k')].
      apply dict_get_None. intros Hin. apply Hk'. simpl. rewrite <-E.
      unfold dict_keys in Hin. apply list_elem_of_fmap in Hin as (e & -> & He).
      apply list_elem_of_filter in He as [_ He].
      apply list_elem_of_fmap. by exists e.
  - destruct (decide (P (k', ss))); simpl; [by rewrite E | done].
Qed.

Lemma prune_get values k :
  dict_get k (prune values (by_property values)) =
  match dict_get k (by_property values) with
  | Some ss =>
      if bool_decide (1 < length values ∧ length ss = length values)
      then None else Some ss
  | None => None
  end.
Proof.
  unfold prune. case_bool_decide as Hlen.
  - rewrite dict_get_filter; [|apply by_property_NoDup|done].
    destruct (dict_get k (by_property values)) as [ss|]; [|done]. simpl.
    destruct (decide (length ss ≠ length values)).
    + rewrite bool_decide_eq_false_2; [done | naive_solver].
    + rewrite bool_decide_eq_true_2; [done | split; [done | lia]].
  - destruct (dict_get k (by_property values)) as [ss|]; [|done].
    rewrite bool_decide_eq_false_2; [done | naive_solver].
Qed.

(** C5, amended: a candidate (property, value) is discarded exactly when
    there is more than one input Result and its number of distinct statuses
    equals the number of input Results; with a single Result nothing is
    discarded. *)
Theorem prune_discards_iff (values : list Result) (k : prop_key) :
  discarded values k ↔
  candidate values k ∧ 1 < length values ∧
  distinct_status_count values k = length values.
Proof.
  unfold discarded, candidate. rewrite prune_get.
  destruct (dict_get k (by_property values)) as [ss|] eqn:Hget.
  - rewrite <-(by_property_count values k ss Hget).
    case_bool_decide as Hc; split.
    + intros _. split; [by eexists | done].
    + done.
    + intros [_ [=]].
    + intros (_ & ? & ?). by destruct Hc.
  - split; intros [[? [=]] _].
Qed.

(** C5 as stated fails on a single Result: the candidate os=linux has one
    distinct status, which is the number of Results, and is kept. *)
Lemma prune_single_result_kept :
  let values := [mkResult [("os", VStr "linux")] "FAIL"] in
  let k := ("os", VStr "linux") in
  candidate values k ∧
  distinct_status_count values k = length values ∧
  ¬ discarded values k.
Proof.
  split_and!; [by eexists | done |].
  intros [_ Hd]. vm_compute in Hd. discriminate.
Qed.

(** ** The synthesized predicates *)

Lemma tested_props_prop_expr pv : tested_props (prop_expr pv) = [pv.1].
Proof.
  destruct pv as [p v]. unfold prop_expr.
  destruct (negb _); [by destruct (is_number v)|]. by destruct (truthy v).
Qed.

Lemma tested_props_and_chain init last :
  tested_props (and_chain init last) =
  concat (tested_props <$> init) ++ tested_props last.
Proof.
  unfold and_chain.
  rewrite <-(fold_left_rev_right
               (λ curr prev, BinaryExpressionNode (BinaryOperatorNode "and") curr prev)).
  rewrite rev_involutive.
  induction init as [|e init IH]; csimpl; [done|].
  by rewrite IH, app_assoc.
Qed.

Lemma concat_tested_props ps :
  concat (tested_props <$> (prop_expr <$> ps)) = ps.*1.
Proof.
  induction ps as [|pv ps IH]; csimpl; [done|].
  by rewrite tested_props_prop_expr, IH.
Qed.

Lemma make_expr_Ok ps st n :
  make_expr ps st = Ok n →
  ∃ e, n = ConditionalNode e (StringNode st) ∧ tested_props e = ps.*1.
Proof.
  unfold make_expr. case_bool_decide as Hlen; [|done].
  intros [= <-]. eexists. split; [done|].
  rewrite <-concat_tested_props.
  set (es := prop_expr <$> ps).
  assert (es ≠ []) as Hne by (subst es; destruct ps; [simpl in Hlen; lia | done]).
  case_bool_decide as Hlen2.
  - rewrite tested_props_and_chain.
    rewrite (app_removelast_last (StringNode "") Hne) at 3.
    rewrite fmap_app, concat_app. simpl. by rewrite app_nil_r.
  - destruct es as [|e [|e' es]]; [done| |simpl in Hlen2; lia].
    simpl. by rewrite app_nil_r.
Qed.

Lemma make_prop_set_Ok ri props ps :
  make_prop_set ri props = Ok ps → ps.*1 = props.
Proof.
  revert ps. induction props as [|p props IH]; intros ps; simpl.
  - by intros [= <-].
  - intros H. inv_bind H. inv_bind H. inversion H; subst. simpl.
    f_equal. by apply IH.
Qed.

Lemma filter_elem_of_filter (P : string → Prop) `{∀ x, Decision (P x)}
    (l : list string) :
  filter (λ p, p ∈ filter P l) l = filter P l.
Proof.
  assert (∀ l' : list string, (∀ x, x ∈ l' → x ∈ l) →
            filter (λ p, p ∈ filter P l) l' = filter P l') as Hgen.
  { induction l' as [|x l' IH]; intros Hsub; [done|].
    rewrite !filter_cons, IH by (intros; apply Hsub; by right).
    destruct (decide (P x)) as [HP|HP].
    - rewrite decide_True; [done|]. apply list_elem_of_filter.
      split; [done | apply Hsub; by left].
    - rewrite decide_False; [done|]. rewrite list_elem_of_filter. tauto. }
  by apply Hgen.
Qed.

(** C6: every synthesized condition is a ConditionalNode whose predicate
    tests exactly the selected discriminator properties, in the priority
    order debug, os, version, processor, bits: the tested properties are
    [prop_order] restricted to the properties the predicate uses. *)
Theorem synthesized_props_in_prop_order (values : list Result)
    (conds : list (Node * string)) :
  group_conditionals values = Ok conds →
  ∀ c st, (c, st) ∈ conds →
    ∃ cond, children c = [cond; StringNode st] ∧
      tested_props cond = include_props values ∧
      tested_props cond = filter (λ p, p ∈ tested_props cond) prop_order ∧
      tested_props cond `sublist_of` prop_order.
Proof.
  unfold group_conditionals. intros Hrun c st Hin. inv_bind Hrun.
  inversion Hrun; subst; clear Hrun.
  apply list_elem_of_fmap in Hin as ([ps [c' st']] & [= <- <-] & Hin).
  assert (∀ e : list (string * pvalue) * (Node * string), e ∈ a →
            ∃ cond, e.2.1 = ConditionalNode cond (StringNode e.2.2) ∧
                    tested_props cond = include_props values) as Hall.
  { eapply (for_each_invariant
              (λ cs : conditions_t, ∀ e, e ∈ cs →
                 ∃ cond, e.2.1 = ConditionalNode cond (StringNode e.2.2) ∧
                         tested_props cond = include_props values));
      [| |exact Ha].
    - intros cs r cs' _ Hcs Hbody. unfold add_condition in Hbody.
      inv_bind Hbody. destruct (conditions_mem a0 cs).
      + by inversion Hbody; subst.
      + inv_bind Hbody. inversion Hbody; subst; clear Hbody.
        intros e He. apply elem_of_app in He as [He|He]; [by apply Hcs|].
        apply list_elem_of_singleton in He as ->. simpl.
        apply make_expr_Ok in Ha1 as (cond & -> & Hprops).
        exists cond. split; [done|]. rewrite Hprops.
        by eapply make_prop_set_Ok.
    - intros e He. by apply elem_of_nil in He. }
  destruct (Hall _ Hin) as (cond & Hc & Hprops). simpl in Hc. subst c.
  exists cond. split_and!; [done | done | |].
  - rewrite Hprops. unfold include_props. by rewrite filter_elem_of_filter.
  - rewrite Hprops. unfold include_props. apply sublist_filter.
Qed.

Lemma synthesized_props_in_prop_order_witness :
  let values :=
    [mkResult [("os", VStr "linux"); ("bits", VNum 64); ("debug", VBool true)] "PASS";
     mkResult [("os", VStr "win"); ("bits", VNum 64); ("debug", VBool false)] "FAIL"] in
  let c :=
    ConditionalNode
      (BinaryExpressionNode (BinaryOperatorNode "and")
         (UnaryExpressionNode (UnaryOperatorNode "not") (VariableNode "debug"))
         (BinaryExpressionNode (BinaryOperatorNode "==")
            (VariableNode "os") (StringNode "win")))
      (StringNode "FAIL") in
  ∃ cond, children c = [cond; StringNode "FAIL"] ∧
    tested_props cond = include_props values ∧
    tested_props cond = filter (λ p, p ∈ tested_props cond) prop_order ∧
    tested_props cond `sublist_of` prop_order.
Proof.
  intros values c.
  apply (synthesized_props_in_prop_order values _ eq_refl c "FAIL").
  right; left.
Defined.

(** C10: two Results with the same descriptor and different statuses make
    every candidate reach the total count, so that all are pruned, no
    property is selected, each signature is the empty tuple, and
    [make_expr]'s assertion fails: the synthesizer raises instead of
    returning conditions. *)
Theorem group_conditionals_same_descriptor (ri : run_info) (s1 s2 : string) :
  s1 ≠ s2 →
  let values := [mkResult ri s1; mkResult ri s2] in
  prune values (by_property values) = [] ∧
  include_props values = [] ∧
  (∀ r, r ∈ values → make_prop_set (r_run_info r) (include_props values) = Ok []) ∧
  make_expr [] s1 = Raise AssertionError ∧
  group_conditionals values = Raise AssertionError.
Proof.
  intros Hne values.
  assert (prune values (by_property values) = []) as Hprune.
  { unfold prune. rewrite bool_decide_eq_true_2 by (simpl; lia).
    destruct (filter _ _) as [|[k ss] rest] eqn:Hf; [done|]. exfalso.
    assert ((k, ss) ∈ filter (λ e : prop_key * list string,
                                length e.2 ≠ length values) (by_property values))
      as Hin by (rewrite Hf; left).
    apply list_elem_of_filter in Hin as [Hlen Hin]. apply Hlen. simpl.
    apply dict_elem_get in Hin; [|apply by_property_NoDup].
    pose proof (tracks_by_property values k) as Ht. rewrite Hin in Ht.
    destruct Ht as (Hnd & Hn & Hs).
    assert (has_binding k (mkResult ri s1) = true) as Hb.
    { destruct ss as [|s ss]; [done|].
      destruct (proj1 (Hs s)) as (r & Hr & Hb & _); [by left|].
      apply elem_of_cons in Hr as [-> | Hr]; [done|].
      apply list_elem_of_singleton in Hr as ->. done. }
    change 2 with (length [s1; s2]). apply Permutation_length.
    apply NoDup_Permutation; [done | |].
    - apply NoDup_cons. split; [by rewrite list_elem_of_singleton|].
      apply NoDup_singleton.
    - intros s. rewrite Hs. unfold seen_under. split.
      + intros (r & Hr & _ & <-).
        apply elem_of_cons in Hr as [-> | Hr]; [by left|].
        apply list_elem_of_singleton in Hr as ->. by right; left.
      + intros Hin'. apply elem_of_cons in Hin' as [-> | Hin'].
        * exists (mkResult ri s1). split_and!; [by left | done..].
        * apply list_elem_of_singleton in Hin' as ->.
          exists (mkResult ri s2). split_and!; [by right; left | done..]. }
  assert (include_props values = []) as Hinc.
  { unfold include_props. rewrite Hprune. done. }
  split_and!; [done | done | | done |].
  - intros r _. by rewrite Hinc.
  - unfold group_conditionals. rewrite Hinc. done.
Qed.

Lemma group_conditionals_same_descriptor_witness :
  group_conditionals
    [mkResult [("os", VStr "linux"); ("debug", VBool false)] "PASS";
     mkResult [("os", VStr "linux"); ("debug", VBool false)] "FAIL"]
  = Raise AssertionError.
Proof.
  apply (group_conditionals_same_descriptor
           [("os", VStr "linux"); ("debug", VBool false)] "PASS" "FAIL").
  discriminate.
Defined.

(** ** set_result *)

Section set_result_properties.

Variable eval_condition : Node → run_info → bool.

Lemma deref_Ok t l cv : deref t l = Ok cv ↔ cvalues t !! l = Some cv.
Proof. unfold deref. destruct (cvalues t !! l); split; congruence. Qed.

Lemma record_match_Some t ri st ue ue' differs :
  record_match eval_condition t ri st ue = Ok (Some (ue', differs)) →
  ∃ before l vals after cv,
    ue = before ++ (l, vals) :: after ∧
    Forall (rejects eval_condition t ri) before ∧
    cvalues t !! l = Some cv ∧ cv_call eval_condition cv ri = true ∧
    ue' = before ++ (l, vals ++ [mkResult ri st]) :: after ∧
    differs = bool_decide (st ≠ value cv).
Proof.
  revert ue' differs.
  induction ue as [|[l vals] ue IH]; intros ue' differs H; simpl in H; [done|].
  inv_bind H. apply deref_Ok in Ha.
  destruct (cv_call eval_condition a ri) eqn:Hcall.
  - inversion H; subst; clear H.
    exists [], l, vals, ue, a. split_and!; done.
  - inv_bind H. destruct a0 as [[ue'' differs'']|]; [|done].
    inversion H; subst; clear H.
    destruct (IH _ _ Ha0) as (before & l' & vals' & after & cv & -> & ? & ? & ? & -> & ->).
    exists ((l, vals) :: before), l', vals', after, cv.
    split_and!; try done.
    constructor; [by exists a | done].
Qed.

Lemma record_match_None t ri st ue :
  record_match eval_condition t ri st ue = Ok None →
  Forall (rejects eval_condition t ri) ue.
Proof.
  induction ue as [|[l vals] ue IH]; intros H; simpl in H; [constructor|].
  inv_bind H. apply deref_Ok in Ha.
  destruct (cv_call eval_condition a ri) eqn:Hcall; [done|].
  inv_bind H. destruct a0 as [[ue'' differs'']|]; [done|].
  constructor; [by exists a | by apply IH].
Qed.

Lemma record_match_no_assert t ri st ue :
  record_match eval_condition t ri st ue ≠ Raise AssertionError.
Proof.
  induction ue as [|[l vals] ue IH]; simpl; [done|].
  unfold deref. destruct (cvalues t !! l) as [cv|]; simpl; [|done].
  destruct (cv_call eval_condition cv ri); [done|].
  destruct (record_match eval_condition t ri st ue) as [[[? ?]|]|e];
    simpl; [done..|].
  intros [= ->]. done.
Qed.

(** C3: a successful [set_result] walks the tracked conditions in stored
    order. Either a first condition holds on the descriptor: every
    condition before it was evaluated and rejected, the Result is appended
    to its matched results, the later conditions are untouched, and the
    root is marked modified when the status differs from the stored one.
    Or every condition rejects: the Result is appended to [new_expected]
    and the root is marked modified. The stored attribute is not changed. *)
Theorem set_result_first_match (ri : run_info) (result : TestResult)
    (t t' : TestNode) :
  set_result eval_condition ri result t = Ok t' →
  let r := mkResult ri (status result) in
  cvalues t' = cvalues t ∧ _data t' = _data t ∧
  node_children t' = node_children t ∧
  ((∃ before l vals after cv,
      updated_expected t = before ++ (l, vals) :: after ∧
      Forall (rejects eval_condition t ri) before ∧
      cvalues t !! l = Some cv ∧ cv_call eval_condition cv ri = true ∧
      updated_expected t' = before ++ (l, vals ++ [r]) :: after ∧
      new_expected t' = new_expected t ∧
      root_modified t' =
        (if bool_decide (status result ≠ value cv) then true
         else root_modified t))
   ∨
   (Forall (rejects eval_condition t ri) (updated_expected t) ∧
    updated_expected t' = updated_expected t ∧
    new_expected t' = new_expected t ++ [r] ∧
    root_modified t' = true)).
Proof.
  unfold set_result. intros H. inv_bind H. inv_bind H.
  assert (cvalues a = cvalues t ∧ _data a = _data t ∧
          node_children a = node_children t ∧
          updated_expected a = updated_expected t ∧
          new_expected a = new_expected t ∧
          root_modified a = root_modified t) as (Hc & Hd & Hn & Hu & Hne & Hm).
  { unfold check_default in Ha. destruct (default_status t).
    - case_bool_decide; [|done]. by inversion Ha; subst.
    - by inversion Ha; subst. }
  assert (∀ e, rejects eval_condition a ri e ↔ rejects eval_condition t ri e) as Hrej.
  { intros e. unfold rejects. by rewrite Hc. }
  destruct a0 as [[ue differs]|]; inversion H; subst; clear H.
  - apply record_match_Some in Ha0
      as (before & l & vals & after & cv & Hue & Hbefore & Hl & Hcall & -> & ->).
    split_and!; [by case_bool_decide..|]. left.
    exists before, l, vals, after, cv. rewrite <-Hu, <-Hc, <-Hne, <-Hm.
    split_and!; try done.
    + eapply Forall_impl; [exact Hbefore|]. intros e. apply Hrej.
    + by case_bool_decide.
    + by case_bool_decide.
    + by case_bool_decide.
  - apply record_match_None in Ha0.
    split_and!; [done..|]. right. simpl. rewrite <-Hu, <-Hne.
    split_and!; try done.
    eapply Forall_impl; [exact Ha0|]. intros e. apply Hrej.
Qed.

Lemma set_result_frame ri result t t' :
  set_result eval_condition ri result t = Ok t' →
  cvalues t' = cvalues t ∧ _data t' = _data t ∧
  node_children t' = node_children t ∧
  (updated_expected t').*1 = (updated_expected t).*1.
Proof.
  unfold set_result. intros H. inv_bind H. inv_bind H.
  assert (cvalues a = cvalues t ∧ _data a = _data t ∧
          node_children a = node_children t ∧
          updated_expected a = updated_expected t) as (Hc & Hd & Hn & Hu).
  { unfold check_default in Ha. destruct (default_status t).
    - case_bool_decide; [|done]. by inversion Ha; subst.
    - by inversion Ha; subst. }
  destruct a0 as [[ue differs]|]; inversion H; subst; clear H.
  - apply record_match_Some in Ha0
      as (before & l & vals & after & cv & Hue & _ & _ & _ & -> & _).
    rewrite <-Hu, Hue.
    destruct differs; simpl; by rewrite !fmap_app, !fmap_cons.
  - simpl. by rewrite Hu.
Qed.

Lemma set_result_default_status ri result t t' :
  set_result eval_condition ri result t = Ok t' →
  default_status t' = Some (default_expected result) ∧
  (∀ d, default_status t = Some d → d = default_expected result).
Proof.
  unfold set_result. intros H. inv_bind H. inv_bind H.
  assert (default_status a = Some (default_expected result) ∧
          (∀ d, default_status t = Some d → d = default_expected result))
    as [Hd Hprev].
  { unfold check_default in Ha. destruct (default_status t) eqn:E.
    - case_bool_decide; [|done]. inversion Ha; subst.
      split; [by rewrite E | by intros ? [= <-]].
    - inversion Ha; subst. done. }
  split; [|done].
  destruct a0 as [[ue differs]|]; inversion H; subst; clear H; [|done].
  by destruct differs.
Qed.

Lemma set_result_assert ri result t d :
  default_status t = Some d →
  set_result eval_condition ri result t = Raise AssertionError ↔
  d ≠ default_expected result.
Proof.
  intros Hd. unfold set_result, check_default. rewrite Hd.
  case_bool_decide as Heq; simpl.
  - split; [|done]. intros H. exfalso.
    pose proof (record_match_no_assert t ri (status result) (updated_expected t)) as Hno.
    destruct (record_match _ _ _ _ _) as [[[? ?]|]|e]; simpl in H; try done.
    by inversion H; subst.
  - done.
Qed.

(** When the tracked conditions are in the store, [set_result] returns
    unless the default statuses disagree. *)
Lemma set_result_returns ri result t :
  (∀ e, e ∈ updated_expected t → is_Some (cvalues t !! e.1)) →
  (∀ d, default_status t = Some d → d = default_expected result) →
  ∃ t', set_result eval_condition ri result t = Ok t'.
Proof.
  intros Halive Hd. unfold set_result.
  assert (∃ t0, check_default t result = Ok t0 ∧
                cvalues t0 = cvalues t ∧
                updated_expected t0 = updated_expected t) as (t0 & -> & Hc & Hu).
  { unfold check_default. destruct (default_status t) as [d|] eqn:E.
    - rewrite bool_decide_eq_true_2 by auto. by exists t.
    - by eexists. }
  cbn [mbind res_bind]. rewrite Hu.
  assert (∀ ue, (∀ e, e ∈ ue → is_Some (cvalues t !! e.1)) →
            ∃ o, record_match eval_condition t0 ri (status result) ue = Ok o)
    as Hmatch.
  { clear -Hc. induction ue as [|[l vals] ue IH]; intros Halive; simpl;
      [by eexists|].
    destruct (Halive (l, vals)) as [cv Hcv]; [by left|]. simpl in Hcv.
    unfold deref. rewrite Hc, Hcv. cbn [mbind res_bind].
    destruct (cv_call eval_condition cv ri); [by eexists|].
    destruct IH as [o ->].
    { intros e ?. apply Halive. by right. }
    cbn [mbind res_bind]. destruct o as [[? ?]|]; by eexists. }
  destruct (Hmatch _ Halive) as [o ->].
  cbn [mbind res_bind]. destruct o as [[? ?]|]; by eexists.
Qed.

(** C9: the first Result recorded on a node (no default status yet) makes
    its implied default the node's [default_status]; the node keeps it
    through every later recording, and a later [set_result] raises the
    assertion error exactly when the new Result's implied default differs
    from it. *)
Theorem default_status_consistent (t0 t1 tn : TestNode)
    (ri1 : run_info) (r1 : TestResult) (rs : list (run_info * TestResult))
    (ri : run_info) (r : TestResult) :
  default_status t0 = None →
  set_result eval_condition ri1 r1 t0 = Ok t1 →
  record_all eval_condition rs t1 = Ok tn →
  default_status t1 = Some (default_expected r1) ∧
  default_status tn = Some (default_expected r1) ∧
  (set_result eval_condition ri r tn = Raise AssertionError ↔
   default_expected r1 ≠ default_expected r).
Proof.
  intros _ H1 Hrs.
  apply set_result_default_status in H1 as [H1 _].
  assert (default_status tn = Some (default_expected r1)) as Hn.
  { unfold record_all in Hrs. revert Hrs H1.
    generalize t1. induction rs as [|[ri' r'] rs IH]; intros t Hrs Ht; simpl in Hrs.
    - by inversion Hrs; subst.
    - inv_bind Hrs. apply (IH _ Hrs).
      apply set_result_default_status in Ha as [Ha Hprev]. simpl in *.
      rewrite Ha. f_equal. symmetry. by apply Hprev. }
  split_and!; [done..|]. by apply set_result_assert.
Qed.

End set_result_properties.

(** ** The stored entries and the mutations of coalesce_expected *)

Section remove_first.
Context {A : Type} `{EqDecision A}.
Implicit Types (x y : A) (l : list A).

Lemma remove_first_elem x y l : x ∈ remove_first y l → x ∈ l.
Proof.
  induction l as [|z l IH]; simpl; [done|]. case_bool_decide.
  - by right.
  - intros [->|?]%elem_of_cons; [by left | right; by apply IH].
Qed.

Lemma remove_first_elem_ne x y l : x ≠ y → x ∈ l → x ∈ remove_first y l.
Proof.
  intros Hne. induction l as [|z l IH]; simpl; [done|].
  intros [->|?]%elem_of_cons; case_bool_decide; subst; try done.
  - by left.
  - right. by apply IH.
Qed.

Lemma remove_first_sublist y l : remove_first y l `sublist_of` l.
Proof.
  induction l as [|z l IH]; simpl; [done|]. case_bool_decide.
  - by apply sublist_cons.
  - by apply sublist_skip.
Qed.

Lemma remove_first_NoDup y l : NoDup l → NoDup (remove_first y l).
Proof. intros ?. by eapply sublist_NoDup, remove_first_sublist. Qed.

Lemma remove_first_not_elem y l : y ∉ l → remove_first y l = l.
Proof.
  induction l as [|z l IH]; simpl; [done|].
  intros [? ?]%not_elem_of_cons. rewrite bool_decide_eq_false_2 by done.
  f_equal. by apply IH.
Qed.

Lemma remove_first_gone y l : NoDup l → y ∉ remove_first y l.
Proof.
  induction l as [|z l IH]; simpl; [intros _; apply not_elem_of_nil|].
  intros [Hz Hnd]%NoDup_cons. case_bool_decide; subst; [done|].
  apply not_elem_of_cons. split; [done | by apply IH].
Qed.

Lemma remove_first_snoc y l : NoDup (l ++ [y]) → remove_first y (l ++ [y]) = l.
Proof.
  induction l as [|z l IH]; simpl.
  - intros _. by rewrite bool_decide_eq_true_2.
  - intros [Hz Hnd]%NoDup_cons. rewrite bool_decide_eq_false_2.
    + f_equal. by apply IH.
    + intros ->. apply Hz. apply elem_of_app. right. by left.
Qed.
End remove_first.

Lemma remove_value_Ok l t t' :
  remove_value "expected" l t = Ok t' →
  l ∈ entries t ∧
  t' = with_data (<["expected" := remove_first l (entries t)]> (_data t)) t.
Proof.
  unfold remove_value, entries.
  destruct (_data t !! "expected") as [ls|]; [|done]. simpl.
  case_bool_decide; [|done]. by intros [= <-].
Qed.

Lemma remove_value_entries l t t' :
  remove_value "expected" l t = Ok t' →
  entries t' = remove_first l (entries t).
Proof.
  intros [_ ->]%remove_value_Ok. unfold entries at 1. simpl.
  by rewrite lookup_insert_eq.
Qed.

Lemma append_entry_entries cv t :
  entries (append_entry "expected" cv t) =
  entries t ++ [fresh (dom (cvalues t))].
Proof.
  unfold append_entry, entries. simpl.
  destruct (_data t !! "expected") as [ls|]; simpl; by rewrite lookup_insert_eq.
Qed.

Lemma append_entry_cvalues cv t :
  cvalues (append_entry "expected" cv t) =
  <[fresh (dom (cvalues t)) := cv]> (cvalues t).
Proof.
  unfold append_entry. simpl. by destruct (_data t !! "expected").
Qed.

Lemma fresh_not_alive (t : TestNode) l :
  is_Some (cvalues t !! l) → l ≠ fresh (dom (cvalues t)).
Proof.
  intros Hl ->. apply elem_of_dom in Hl. by apply is_fresh in Hl.
Qed.

Lemma step_mono (keep keep' : loc → Prop) t t' :
  (∀ x, keep' x → keep x) → step keep t t' → step keep' t t'.
Proof.
  intros Hk [l ? ? Hl Hr | l cv v ? Hl Hcv | cv ? | n ?].
  - eapply step_remove; [|done]. naive_solver.
  - eapply step_assign; [|done]. naive_solver.
  - apply step_append.
  - apply step_new.
Qed.

Lemma steps_mono (keep keep' : loc → Prop) t t' :
  (∀ x, keep' x → keep x) → steps keep t t' → steps keep' t t'.
Proof.
  intros Hk. induction 1 as [|? ? ? Hs _ IH]; [constructor|].
  eapply rtc_l; [|exact IH]. by eapply step_mono.
Qed.

(** What no mutation changes. *)
Lemma step_static keep s s' :
  step keep s s' →
  updated_expected s' = updated_expected s ∧
  default_status s' = default_status s ∧
  root_modified s' = root_modified s.
Proof.
  intros [l t t' _ Hr | l cv v t _ _ | cv t | n t]; try done.
  - by apply remove_value_Ok in Hr as [_ ->].
  - unfold append_entry. simpl. by destruct (_data t !! "expected").
Qed.

(** Objects stay in the store and keep their predicate. *)
Lemma step_alive keep s s' l cv :
  step keep s s' → cvalues s !! l = Some cv →
  ∃ cv', cvalues s' !! l = Some cv' ∧ condition_node cv' = condition_node cv.
Proof.
  intros [l0 t t' _ Hr | l0 cv0 v t _ Hcv0 | cv0 t | n t] Hl.
  - apply remove_value_Ok in Hr as [_ ->]. by exists cv.
  - simpl. destruct (decide (l0 = l)) as [->|Hne].
    + rewrite lookup_insert_eq. eexists. split; [done|]. simpl. congruence.
    + rewrite lookup_insert_ne by done. by exists cv.
  - rewrite append_entry_cvalues, lookup_insert_ne; [by exists cv|].
    intros <-. by eapply fresh_not_alive.
  - by exists cv.
Qed.

(** A protected object keeps its value and its place in the attribute. *)
Lemma step_keep (keep : loc → Prop) s s' l :
  step keep s s' → keep l → is_Some (cvalues s !! l) →
  cvalues s' !! l = cvalues s !! l ∧ (l ∈ entries s → l ∈ entries s').
Proof.
  intros [l0 t t' Hk Hr | l0 cv0 v t Hk Hcv0 | cv0 t | n t] Hl Halive.
  - rewrite (remove_value_entries _ _ _ Hr).
    apply remove_value_Ok in Hr as [_ ->]. split; [done|].
    apply remove_first_elem_ne. by intros ->.
  - split; [|done]. simpl. rewrite lookup_insert_ne; [done|]. by intros ->.
  - rewrite append_entry_cvalues, append_entry_entries. split.
    + rewrite lookup_insert_ne; [done|]. intros <-. by eapply fresh_not_alive.
    + intros ?. apply elem_of_app. by left.
  - done.
Qed.

(** An object of the store that is not stored in the attribute stays out. *)
Lemma step_gone keep s s' l :
  step keep s s' → is_Some (cvalues s !! l) → l ∉ entries s → l ∉ entries s'.
Proof.
  intros [l0 t t' _ Hr | l0 cv0 v t _ _ | cv0 t | n t] Halive Hl; try done.
  - rewrite (remove_value_entries _ _ _ Hr). intros ?%remove_first_elem. done.
  - rewrite append_entry_entries. intros [?|Hf%list_elem_of_singleton]%elem_of_app.
    + done.
    + by eapply fresh_not_alive.
Qed.

Lemma kv_once_snoc (cs : list ChildNode) :
  KeyValueNode "expected" ∉ cs →
  KeyValueNode "expected" ∉
    remove_first (KeyValueNode "expected") (cs ++ [KeyValueNode "expected"]).
Proof.
  induction cs as [|c cs IH]; simpl; intros Hn.
  - apply not_elem_of_nil.
  - apply not_elem_of_cons in Hn as [? ?].
    rewrite bool_decide_eq_false_2 by done.
    apply not_elem_of_cons. split; [done | by apply IH].
Qed.

Lemma step_wf keep s s' : step keep s s' → wf s → wf s'.
Proof.
  intros Hstep [Hnd Halive Htr Hkv Hkv0].
  destruct (step_static _ _ _ Hstep) as (Hue & _ & _).
  destruct Hstep as [l0 t t' _ Hr | l0 cv0 v t _ Hcv0 | cv0 t | n t].
  - pose proof (remove_value_entries _ _ _ Hr) as He.
    apply remove_value_Ok in Hr as [_ ->].
    split; rewrite ?He; simpl; try done.
    + by apply remove_first_NoDup.
    + intros l ?%remove_first_elem. by apply Halive.
    + by rewrite lookup_insert_eq.
  - split; try done. intros l Hl. simpl.
    destruct (decide (l0 = l)) as [->|Hne].
    + rewrite lookup_insert_eq. by eexists.
    + rewrite lookup_insert_ne by done. by apply Halive.
  - split; rewrite ?append_entry_entries, ?append_entry_cvalues, ?Hue; try done.
    + apply NoDup_app. split_and!; [done | | apply NoDup_singleton].
      intros l Hl ->%list_elem_of_singleton.
      by eapply fresh_not_alive; [apply Halive|].
    + intros l [Hl | ->%list_elem_of_singleton]%elem_of_app.
      * rewrite lookup_insert_ne; [by apply Halive|].
        intros <-. by eapply fresh_not_alive; [apply Halive|].
      * rewrite lookup_insert_eq. by eexists.
    + unfold append_entry. simpl.
      destruct (_data t !! "expected") as [ls|] eqn:E; simpl; [done|].
      by apply kv_once_snoc, Hkv0.
    + unfold append_entry. simpl.
      destruct (_data t !! "expected") as [ls|] eqn:E; simpl;
        rewrite lookup_insert_eq; done.
  - split; done.
Qed.

Lemma filter_sublist_mono {A} (P : A → Prop) `{∀ x, Decision (P x)} (l1 l2 : list A) :
  l1 `sublist_of` l2 → filter P l1 `sublist_of` filter P l2.
Proof.
  induction 1 as [|x l1 l2 _ IH|x l1 l2 _ IH]; [done| |].
  - rewrite !filter_cons. destruct (decide (P x)); [by apply sublist_skip | done].
  - rewrite filter_cons. destruct (decide (P x)); [by apply sublist_cons | done].
Qed.

(** The entries that were stored before keep their relative order. *)
Lemma step_order keep s s' (old : list loc) :
  step keep s s' → (∀ x, x ∈ old → is_Some (cvalues s !! x)) →
  filter (λ x, x ∈ old) (entries s') `sublist_of` filter (λ x, x ∈ old) (entries s).
Proof.
  intros [l0 t t' _ Hr | l0 cv0 v t _ _ | cv0 t | n t] Hold; try done.
  - rewrite (remove_value_entries _ _ _ Hr).
    apply filter_sublist_mono, remove_first_sublist.
  - rewrite append_entry_entries, filter_app, filter_cons, filter_nil.
    rewrite decide_False, app_nil_r; [done|].
    intros Hf. by eapply fresh_not_alive; [apply Hold, Hf|].
Qed.

Lemma steps_static keep s s' :
  steps keep s s' →
  updated_expected s' = updated_expected s ∧
  default_status s' = default_status s ∧
  root_modified s' = root_modified s.
Proof.
  induction 1 as [|s1 s2 s3 Hs _ IH]; [done|].
  apply step_static in Hs as (? & ? & ?). destruct IH as (? & ? & ?).
  split_and!; congruence.
Qed.

Lemma steps_alive keep s s' l cv :
  steps keep s s' → cvalues s !! l = Some cv →
  ∃ cv', cvalues s' !! l = Some cv' ∧ condition_node cv' = condition_node cv.
Proof.
  intros Hs. revert cv. induction Hs as [|s1 s2 s3 Hs _ IH]; intros cv Hl.
  - by exists cv.
  - destruct (step_alive _ _ _ _ _ Hs Hl) as (cv1 & Hl1 & Hc1).
    destruct (IH _ Hl1) as (cv2 & ? & ?). exists cv2. split; congruence.
Qed.

Lemma steps_keep (keep : loc → Prop) s s' l :
  steps keep s s' → keep l → is_Some (cvalues s !! l) →
  cvalues s' !! l = cvalues s !! l ∧ (l ∈ entries s → l ∈ entries s').
Proof.
  intros Hs Hk. induction Hs as [|s1 s2 s3 Hs _ IH]; intros Hl; [done|].
  destruct (step_keep _ _ _ _ Hs Hk Hl) as [Hc He].
  destruct IH as [Hc' He']; [by rewrite Hc|].
  split; [congruence | auto].
Qed.

Lemma steps_gone keep s s' l :
  steps keep s s' → is_Some (cvalues s !! l) → l ∉ entries s → l ∉ entries s'.
Proof.
  induction 1 as [|s1 s2 s3 Hs _ IH]; intros [cv Hl] Hn; [done|].
  destruct (step_alive _ _ _ _ _ Hs Hl) as (cv1 & Hl1 & _).
  apply IH; [by eexists|]. eapply step_gone; [done | by eexists | done].
Qed.

Lemma steps_wf keep s s' : steps keep s s' → wf s → wf s'.
Proof.
  induction 1 as [|s1 s2 s3 Hs _ IH]; [done|].
  intros ?. by eapply IH, step_wf.
Qed.

Lemma steps_order keep s s' (old : list loc) :
  steps keep s s' → (∀ x, x ∈ old → is_Some (cvalues s !! x)) →
  filter (λ x, x ∈ old) (entries s') `sublist_of` filter (λ x, x ∈ old) (entries s).
Proof.
  induction 1 as [|s1 s2 s3 Hs _ IH]; intros Hold; [done|].
  etrans; [apply IH | by eapply step_order].
  intros x Hx. destruct (Hold x Hx) as [cv Hl].
  destruct (step_alive _ _ _ _ _ Hs Hl) as (cv1 & Hl1 & _). by eexists.
Qed.

(** ** The phases of coalesce_expected as mutations *)

Lemma coalesce_entry_steps ucs t l rs t' :
  coalesce_entry ucs t (l, rs) = Ok t' → steps (λ x, x ≠ l) t t'.
Proof.
  unfold coalesce_entry. destruct rs as [|r0 rs]; [by intros [= <-]|].
  intros H. inv_bind H. apply deref_Ok in Ha.
  destruct (all_agree (r0 :: rs)).
  - destruct (_ && _).
    + apply rtc_once. eapply step_remove; [|done]. naive_solver.
    + inversion H; subst. apply rtc_once.
      apply (step_assign _ l a (r_status r0) t); [naive_solver | done].
  - case_bool_decide.
    + inv_bind H. inversion H; subst.
      eapply rtc_l; [eapply step_remove; [|done]; naive_solver|].
      apply rtc_once, step_new.
    + inversion H; subst. apply rtc_once, step_new.
Qed.

Lemma coalesce_loop_steps ucs es t t' :
  for_each (coalesce_entry ucs) t es = Ok t' →
  steps (λ x, x ∉ es.*1) t t'.
Proof.
  revert t. induction es as [|[l rs] es IH]; intros t H; simpl in H.
  - inversion H; subst. constructor.
  - inv_bind H. etrans.
    + eapply steps_mono; [|by eapply coalesce_entry_steps].
      intros x Hx ->. apply Hx. csimpl. by left.
    + eapply steps_mono; [|by apply IH].
      intros x Hx Hin. apply Hx. csimpl. by right.
Qed.

Lemma add_synthesized_steps ucs t c t' :
  add_synthesized ucs t c = Ok t' → steps (λ _, True) t t'.
Proof.
  unfold add_synthesized. destruct c as [n st].
  case_bool_decide; [|by intros [= <-]].
  destruct (children n) as [|cond ?]; [done|]. simpl.
  intros [= <-]. apply rtc_once, step_append.
Qed.

Lemma synthesized_loop_steps ucs cs t t' :
  for_each (add_synthesized ucs) t cs = Ok t' → steps (λ _, True) t t'.
Proof.
  revert t. induction cs as [|c cs IH]; intros t H; simpl in H.
  - inversion H; subst. constructor.
  - inv_bind H. etrans; [by eapply add_synthesized_steps | by apply IH].
Qed.

Lemma find_unconditional_Some t ls l :
  find_unconditional t ls = Ok (Some l) →
  l ∈ ls ∧ ∃ cv, cvalues t !! l = Some cv ∧ condition_node cv = None.
Proof.
  induction ls as [|l0 ls IH]; simpl; [done|].
  intros H. inv_bind H. apply deref_Ok in Ha.
  destruct (condition_node a) eqn:Hc.
  - destruct (IH H) as [? ?]. split; [by right | done].
  - inversion H; subst. split; [by left | by exists a].
Qed.


Lemma set_steps v c t t' :
  set "expected" v c t = Ok t' → steps (λ _, False) t t'.
Proof.
  unfold set. destruct c as [c|].
  - intros [= <-]. apply rtc_once, step_append.
  - intros H. inv_bind H. destruct a as [l|].
    + inv_bind H. apply deref_Ok in Ha0. inversion H; subst.
      apply rtc_once.
      apply (step_assign (λ _, False) l a v t); [tauto | done].
    + inversion H; subst. apply rtc_once, step_append.
Qed.

Lemma place_new_expected_steps ucs t t' :
  place_new_expected ucs t = Ok t' → steps (λ _, False) t t'.
Proof.
  unfold place_new_expected. destruct (new_expected t) as [|r0 rs].
  { intros [= <-]. constructor. }
  destruct (_ && _).
  - case_bool_decide; [by apply set_steps | intros [= <-]; constructor].
  - intros H. inv_bind H.
    eapply steps_mono; [|by eapply synthesized_loop_steps]. done.
Qed.

(** With tracked conditions, the unplaced evidence only appends entries. *)
Lemma place_new_expected_tracked ucs t t' :
  place_new_expected ucs t = Ok t' → updated_expected t ≠ [] →
  steps (λ _, True) t t'.
Proof.
  unfold place_new_expected. destruct (new_expected t) as [|r0 rs].
  { intros [= <-]. constructor. }
  destruct (updated_expected t); [done|]. rewrite andb_false_r.
  intros H _. inv_bind H. by eapply synthesized_loop_steps.
Qed.

Lemma drop_default_cases t t' :
  drop_default t = Ok t' →
  t' = t ∨
  ∃ l cv, last (entries t) = Some l ∧ cvalues t !! l = Some cv ∧
          condition_node cv = None ∧ Some (value cv) = default_status t ∧
          remove_value "expected" l t = Ok t'.
Proof.
  unfold drop_default, entries.
  destruct (_data t !! "expected") as [ls|]; [|intros [= <-]; by left]. simpl.
  destruct (last ls) as [l|]; [|intros [= <-]; by left].
  intros H. inv_bind H. apply deref_Ok in Ha.
  destruct (bool_decide (condition_node a = None)) eqn:E1;
    [|inversion H; by left].
  destruct (bool_decide (Some (value a) = default_status t)) eqn:E2;
    [|inversion H; by left].
  apply bool_decide_eq_true in E1, E2. simpl in H.
  right. by exists l, a.
Qed.

Lemma drop_default_steps t t' :
  drop_default t = Ok t' → steps (λ x, last (entries t) ≠ Some x) t t'.
Proof.
  intros [->|(l & cv & Hlast & _ & _ & _ & Hr)]%drop_default_cases.
  - constructor.
  - apply rtc_once. eapply step_remove; [|done]. naive_solver.
Qed.

Lemma coalesce_expected_Ok t t' :
  coalesce_expected t = Ok t' →
  ∃ ucs t1 t2 t3,
    unconditional_status_of t = Ok ucs ∧
    for_each (coalesce_entry ucs) t (updated_expected t) = Ok t1 ∧
    place_new_expected ucs t1 = Ok t2 ∧
    rewrite_entries t = Ok t2 ∧
    drop_default t2 = Ok t3 ∧
    t' = drop_empty t3.
Proof.
  unfold coalesce_expected. intros H. inv_bind H. inv_bind H.
  inversion H; subst; clear H. pose proof Ha as Hrw.
  unfold rewrite_entries in Ha. inv_bind Ha. inv_bind Ha.
  by exists a1, a2, a, a0.
Qed.

Lemma drop_empty_entries t : entries (drop_empty t) = entries t.
Proof.
  unfold drop_empty. by destruct (_data t !! "expected") as [[|? ?]|].
Qed.

Lemma drop_empty_cvalues t : cvalues (drop_empty t) = cvalues t.
Proof.
  unfold drop_empty. by destruct (_data t !! "expected") as [[|? ?]|].
Qed.

Lemma drop_empty_data t : _data (drop_empty t) = _data t.
Proof.
  unfold drop_empty. by destruct (_data t !! "expected") as [[|? ?]|].
Qed.

(** The whole of [coalesce_expected] up to the second closing [if]. *)
Lemma coalesce_expected_steps t t' :
  coalesce_expected t = Ok t' →
  ∃ t3, steps (λ _, False) t t3 ∧ t' = drop_empty t3.
Proof.
  intros (ucs & t1 & t2 & t3 & _ & H1 & H2 & _ & H3 & ->)%coalesce_expected_Ok.
  exists t3. split; [|done].
  etrans; [eapply steps_mono; [|by eapply coalesce_loop_steps]; done|].
  etrans; [by eapply place_new_expected_steps|].
  eapply steps_mono; [|by eapply drop_default_steps]. done.
Qed.

Lemma filter_all {A} (P : A → Prop) `{∀ x, Decision (P x)} (l : list A) :
  (∀ x, x ∈ l → P x) → filter P l = l.
Proof.
  induction l as [|x l IH]; intros Hall; [done|].
  rewrite filter_cons, decide_True by (apply Hall; by left).
  f_equal. apply IH. intros y Hy. apply Hall. by right.
Qed.

(** Entries are removed or appended, never reordered. *)
Lemma coalesce_expected_order t t' :
  wf t → coalesce_expected t = Ok t' →
  filter (λ x, x ∈ entries t) (entries t') `sublist_of` entries t.
Proof.
  intros Hwf (t3 & Hs & ->)%coalesce_expected_steps.
  rewrite drop_empty_entries. etrans.
  - eapply steps_order; [done|]. apply Hwf.
  - by rewrite filter_all.
Qed.

(** What happens to a tracked entry once its own iteration is over: the
    iterations [after] it and the unplaced evidence leave it alone, and only
    the closing [if] can remove it, as the trailing default. *)
Lemma coalesce_tail_keep ucs (after : list (loc * list Result))
    tc t1 t2 t3 l c :
  l ∉ after.*1 → updated_expected tc ≠ [] →
  for_each (coalesce_entry ucs) tc after = Ok t1 →
  place_new_expected ucs t1 = Ok t2 →
  drop_default t2 = Ok t3 →
  cvalues tc !! l = Some c →
  (cvalues t1 !! l = Some c ∧ (l ∈ entries tc → l ∈ entries t1)) ∧
  cvalues (drop_empty t3) !! l = Some c ∧
  (l ∈ entries tc →
   l ∈ entries (drop_empty t3) ∨
   (condition_node c = None ∧ Some (value c) = default_status tc ∧
    last (entries t2) = Some l)).
Proof.
  intros Hl Hue H1 H2 H3 Hc.
  apply coalesce_loop_steps in H1.
  destruct (steps_static _ _ _ H1) as (Hue1 & Hd1 & _).
  destruct (steps_keep _ _ _ l H1 Hl) as [Hc1 He1]; [by eexists|].
  rewrite Hc in Hc1.
  apply place_new_expected_tracked in H2; [|by rewrite Hue1].
  destruct (steps_static _ _ _ H2) as (_ & Hd2 & _).
  destruct (steps_keep _ _ _ l H2 I) as [Hc2 He2]; [by eexists|].
  rewrite Hc1 in Hc2.
  rewrite drop_empty_cvalues, drop_empty_entries.
  split; [done|].
  apply drop_default_cases in H3 as [->|(l' & cv' & Hlast & Hcv' & Hn & Hv & Hr)].
  - split; [done|]. intros ?. left. auto.
  - rewrite (remove_value_entries _ _ _ Hr).
    pose proof Hr as [_ ->]%remove_value_Ok. split; [done|]. intros Hin.
    destruct (decide (l = l')) as [->|Hne].
    + right. rewrite Hcv' in Hc2. inversion Hc2; subst.
      split_and!; [done | congruence | done].
    + left. apply remove_first_elem_ne; auto.
Qed.

Lemma tracked_split (ue : list (loc * list Result)) l rs :
  NoDup (ue.*1) → (l, rs) ∈ ue →
  ∃ before after,
    ue = before ++ (l, rs) :: after ∧ (l ∉ before.*1) ∧ (l ∉ after.*1).
Proof.
  intros Hnd (before & after & ->)%list_elem_of_split.
  exists before, after. split; [done|].
  rewrite fmap_app, fmap_cons in Hnd. simpl in Hnd.
  apply NoDup_app in Hnd as (_ & Hdisj & [? _]%NoDup_cons).
  split; [|done]. intros Hin. apply (Hdisj _ Hin). by left.
Qed.

(** The pass over the tracked conditions, cut at one of them. *)
Lemma coalesce_loop_split ucs t t1 ue l rs :
  wf t → updated_expected t = ue → (l, rs) ∈ ue →
  for_each (coalesce_entry ucs) t ue = Ok t1 →
  ∃ after tb tc,
    (l ∉ after.*1) ∧
    coalesce_entry ucs tb (l, rs) = Ok tc ∧
    for_each (coalesce_entry ucs) tc after = Ok t1 ∧
    wf tb ∧ updated_expected tb = ue ∧ default_status tb = default_status t ∧
    (∀ cv, cvalues t !! l = Some cv → cvalues tb !! l = Some cv) ∧
    (l ∈ entries t → l ∈ entries tb).
Proof.
  intros Hwf Hue Hin Hrun.
  destruct (tracked_split ue l rs) as (before & after & -> & Hb & Ha);
    [rewrite <-Hue; apply Hwf | done |].
  rewrite for_each_app in Hrun. inv_bind Hrun. simpl in Hrun. inv_bind Hrun.
  apply coalesce_loop_steps in Ha0.
  destruct (steps_static _ _ _ Ha0) as (Hue' & Hd' & _).
  exists after, a, a0. split_and!; try done.
  - by eapply steps_wf.
  - congruence.
  - intros cv Hcv. destruct (steps_keep _ _ _ l Ha0 Hb) as [-> _]; [by eexists | done].
  - intros He. destruct (decide (is_Some (cvalues t !! l))) as [Hs|Hs].
    + by destruct (steps_keep _ _ _ l Ha0 Hb Hs) as [_ ?]; auto.
    + destruct Hs. by apply Hwf.
Qed.

Lemma coalesce_entry_agree ucs t l r0 rs cv :
  cvalues t !! l = Some cv → all_agree (r0 :: rs) = true →
  coalesce_entry ucs t (l, r0 :: rs) =
  if bool_decide (Some (r_status r0) = ucs)
     && bool_decide (condition_node cv ≠ None)
  then remove_value "expected" l t
  else Ok (assign_value l cv (r_status r0) t).
Proof.
  intros Hcv Ha. unfold coalesce_entry, deref. rewrite Hcv.
  cbn [mbind res_bind]. by rewrite Ha.
Qed.

(** C1, amended: a tracked condition whose matches all agree on S. If its
    predicate is not the default one and S is the unconditional status, the
    entry is removed from the stored attribute, by the pass over the tracked
    conditions and for good. Otherwise the pass assigns S to it and keeps
    it where it is stored; at the end of coalesce it is still stored with
    status S, unless it is unconditional, S is the default status and it is
    the last entry when the closing cleanup runs. *)
Theorem coalesce_agreeing_entry (t t' : TestNode) (ucs : option string)
    (l : loc) (rs : list Result) (r0 : Result) (cv : ConditionalValue) :
  wf t →
  unconditional_status_of t = Ok ucs →
  coalesce_expected t = Ok t' →
  (l, rs) ∈ updated_expected t → head rs = Some r0 → all_agree rs = true →
  cvalues t !! l = Some cv →
  ∃ t1 t2,
    for_each (coalesce_entry ucs) t (updated_expected t) = Ok t1 ∧
    rewrite_entries t = Ok t2 ∧
    (condition_node cv ≠ None ∧ Some (r_status r0) = ucs →
       (l ∉ entries t1) ∧ (l ∉ entries t')) ∧
    (¬ (condition_node cv ≠ None ∧ Some (r_status r0) = ucs) →
       let cv' := mkCV (condition_node cv) (r_status r0) in
       cvalues t1 !! l = Some cv' ∧ (l ∈ entries t → l ∈ entries t1) ∧
       cvalues t' !! l = Some cv' ∧
       (l ∈ entries t →
        l ∈ entries t' ∨
        (condition_node cv = None ∧ Some (r_status r0) = default_status t ∧
         last (entries t2) = Some l))).
Proof.
  intros Hwf Hucs Hrun Hin Hhead Hagree Hcv.
  apply coalesce_expected_Ok in Hrun
    as (ucs' & t1 & t2 & t3 & Hucs' & H1 & H2 & Hrw & H3 & ->).
  rewrite Hucs in Hucs'. inversion Hucs'; subst ucs'; clear Hucs'.
  exists t1, t2. split; [done|]. split; [done|].
  destruct (coalesce_loop_split _ _ _ _ _ _ Hwf eq_refl Hin H1)
    as (after & tb & tc & Hafter & Hown & Hrest & Hwfb & Hueb & Hdb & Hcvb & Heb).
  specialize (Hcvb _ Hcv).
  destruct rs as [|r rs]; [done|]. inversion Hhead; subst r; clear Hhead.
  assert (updated_expected tc ≠ []) as Huec.
  { pose proof (coalesce_entry_steps _ _ _ _ _ Hown) as Hst.
    destruct (steps_static _ _ _ Hst) as (-> & _ & _). rewrite Hueb.
    intros Hnil. rewrite Hnil in Hin. by apply elem_of_nil in Hin. }
  rewrite (coalesce_entry_agree _ _ _ _ _ _ Hcvb Hagree) in Hown.
  destruct (bool_decide (Some (r_status r0) = ucs)
            && bool_decide (condition_node cv ≠ None)) eqn:Hcase.
  - apply andb_true_iff in Hcase as [Hs%bool_decide_eq_true Hc%bool_decide_eq_true].
    split; [|tauto]. intros _.
    assert (l ∉ entries tc) as Hgone.
    { rewrite (remove_value_entries _ _ _ Hown).
      apply remove_first_gone, Hwfb. }
    assert (is_Some (cvalues tc !! l)) as Halive.
    { apply remove_value_Ok in Hown as [_ ->]. by eexists. }
    assert (steps (λ _, False) tc t1) as Hs1.
    { eapply steps_mono; [|by eapply coalesce_loop_steps]. done. }
    assert (steps (λ _, False) tc t3) as Hs3.
    { etrans; [exact Hs1|].
      etrans; [by eapply place_new_expected_steps|].
      eapply steps_mono; [|by eapply drop_default_steps]. done. }
    split; [by eapply steps_gone|].
    rewrite drop_empty_entries. by eapply steps_gone.
  - split; [intros [? ?]; apply andb_false_iff in Hcase as
              [?%bool_decide_eq_false|?%bool_decide_eq_false]; done|].
    intros _ cv'. inversion Hown; subst tc; clear Hown.
    assert (cvalues (assign_value l cv (r_status r0) tb) !! l = Some cv') as Hc'.
    { simpl. by rewrite lookup_insert_eq. }
    destruct (coalesce_tail_keep ucs after _ _ _ _ l cv' Hafter Huec Hrest H2 H3 Hc')
      as ([Hc1 He1] & Hc3 & He3).
    split_and!; [done | auto | done |].
    intros He. destruct (He3 (Heb He)) as [?|(? & Hd & ?)]; [by left|].
    right. split_and!; [done | | done]. simpl in Hd. by rewrite <-Hdb.
Qed.

(** C2, amended: a tracked condition with no matched result. Its iteration
    changes nothing, and the whole pass over the tracked conditions leaves
    it stored with the same predicate and status. The stored entries are
    never reordered: those that were stored before and still are keep their
    order. At the end of coalesce the entry is still stored, unchanged,
    unless it is unconditional with the default status as its value and is
    the last entry when the closing cleanup runs. *)
Theorem coalesce_untested_entry (t t' : TestNode) (ucs : option string)
    (l : loc) (cv : ConditionalValue) :
  wf t →
  unconditional_status_of t = Ok ucs →
  coalesce_expected t = Ok t' →
  (l, []) ∈ updated_expected t →
  cvalues t !! l = Some cv →
  (∀ s, coalesce_entry ucs s (l, []) = Ok s) ∧
  cvalues t' !! l = Some cv ∧
  filter (λ x, x ∈ entries t) (entries t') `sublist_of` entries t ∧
  ∃ t1 t2,
    for_each (coalesce_entry ucs) t (updated_expected t) = Ok t1 ∧
    rewrite_entries t = Ok t2 ∧
    cvalues t1 !! l = Some cv ∧ (l ∈ entries t → l ∈ entries t1) ∧
    (l ∈ entries t →
     l ∈ entries t' ∨
     (condition_node cv = None ∧ Some (value cv) = default_status t ∧
      last (entries t2) = Some l)).
Proof.
  intros Hwf Hucs Hrun Hin Hcv.
  pose proof (coalesce_expected_order _ _ Hwf Hrun) as Horder.
  apply coalesce_expected_Ok in Hrun
    as (ucs' & t1 & t2 & t3 & Hucs' & H1 & H2 & Hrw & H3 & ->).
  rewrite Hucs in Hucs'. inversion Hucs'; subst ucs'; clear Hucs'.
  destruct (coalesce_loop_split _ _ _ _ _ _ Hwf eq_refl Hin H1)
    as (after & tb & tc & Hafter & Hown & Hrest & Hwfb & Hueb & Hdb & Hcvb & Heb).
  specialize (Hcvb _ Hcv). simpl in Hown. inversion Hown; subst tc; clear Hown.
  assert (updated_expected tb ≠ []) as Hueb'.
  { rewrite Hueb. intros Hnil. rewrite Hnil in Hin. by apply elem_of_nil in Hin. }
  destruct (coalesce_tail_keep ucs after _ _ _ _ l cv Hafter Hueb' Hrest H2 H3 Hcvb)
    as ([Hc1 He1] & Hc3 & He3).
  split_and!; [done | done | done |].
  exists t1, t2. split_and!; [done | done | done | auto |].
  intros He. destruct (He3 (Heb He)) as [?|(? & Hd & ?)]; [by left|].
  right. split_and!; [done | | done]. by rewrite <-Hdb.
Qed.

Lemma rewrite_entries_steps t t2 :
  rewrite_entries t = Ok t2 → steps (λ _, False) t t2.
Proof.
  unfold rewrite_entries. intros H. inv_bind H. inv_bind H.
  etrans; [eapply steps_mono; [|by eapply coalesce_loop_steps]; done|].
  by eapply place_new_expected_steps.
Qed.

Lemma entries_nil_data t :
  entries t = [] → _data t !! "expected" = None ∨ _data t !! "expected" = Some [].
Proof.
  unfold entries. destruct (_data t !! "expected") as [ls|]; simpl; [|by left].
  intros ->. by right.
Qed.

Lemma drop_default_snoc t ls l cv :
  entries t = ls ++ [l] → cvalues t !! l = Some cv →
  drop_default t =
  if bool_decide (condition_node cv = None)
     && bool_decide (Some (value cv) = default_status t)
  then remove_value "expected" l t else Ok t.
Proof.
  unfold drop_default, entries. intros Hls Hcv.
  destruct (_data t !! "expected") as [ls'|]; simpl in Hls;
    [subst ls'|by destruct ls].
  rewrite last_snoc. unfold deref. rewrite Hcv. done.
Qed.

Lemma drop_default_nil t : entries t = [] → drop_default t = Ok t.
Proof.
  unfold drop_default, entries.
  destruct (_data t !! "expected") as [ls|]; simpl; [|done]. by intros ->.
Qed.

(** The end of coalesce, on the node [t2] that the rewriting of the
    entries leaves. If the last stored entry is unconditional and its value
    is the default status, that entry is removed and the others stay;
    otherwise the entries stay as they are. If the attribute then has no
    entry, the manifest node has no [expected] KeyValueNode left; otherwise
    its children are untouched. *)
Theorem coalesce_cleanup (t t' : TestNode) :
  wf t → coalesce_expected t = Ok t' →
  ∃ t2, rewrite_entries t = Ok t2 ∧
    default_status t2 = default_status t ∧
    cvalues t' = cvalues t2 ∧
    (∀ ls l cv, entries t2 = ls ++ [l] → cvalues t2 !! l = Some cv →
       (condition_node cv = None ∧ Some (value cv) = default_status t →
        entries t' = ls) ∧
       (¬ (condition_node cv = None ∧ Some (value cv) = default_status t) →
        entries t' = entries t2)) ∧
    (entries t2 = [] → entries t' = []) ∧
    (entries t' = [] → KeyValueNode "expected" ∉ node_children t') ∧
    (entries t' ≠ [] → node_children t' = node_children t2).
Proof.
  intros Hwf (ucs & t1 & t2 & t3 & _ & _ & _ & Hrw & H3 & ->)%coalesce_expected_Ok.
  exists t2. split; [done|].
  pose proof (rewrite_entries_steps _ _ Hrw) as Hst.
  pose proof (steps_wf _ _ _ Hst Hwf) as Hwf2.
  destruct (steps_static _ _ _ Hst) as (_ & Hd & _).
  pose proof (steps_wf _ _ _ (drop_default_steps _ _ H3) Hwf2) as Hwf3.
  rewrite drop_empty_entries, drop_empty_cvalues.
  assert (node_children t3 = node_children t2 ∧ cvalues t3 = cvalues t2) as [Hn3 Hc3].
  { pose proof H3 as [->|(? & ? & _ & _ & _ & _ & Hr)]%drop_default_cases; [done|].
    by apply remove_value_Ok in Hr as [_ ->]. }
  split_and!; [done | done | | | |].
  - intros ls l cv Hls Hcv.
    rewrite (drop_default_snoc _ _ _ _ Hls Hcv), Hd in H3. split.
    + intros [Hn Hv]. rewrite !bool_decide_eq_true_2 in H3 by done.
      rewrite (remove_value_entries _ _ _ H3), Hls.
      apply remove_first_snoc. rewrite <-Hls. apply Hwf2.
    + intros Hno. destruct (_ && _) eqn:E; [|by inversion H3].
      apply andb_true_iff in E as [?%bool_decide_eq_true ?%bool_decide_eq_true].
      by destruct Hno.
  - intros Hnil. rewrite (drop_default_nil _ Hnil) in H3. by inversion H3; subst.
  - intros Hnil. unfold drop_empty.
    destruct (entries_nil_data _ Hnil) as [E|E]; rewrite E; simpl.
    + by apply Hwf3.
    + apply Hwf3.
  - intros Hne. rewrite <-Hn3. unfold drop_empty. unfold entries in Hne.
    by destruct (_data t3 !! "expected") as [[|? ?]|].
Qed.

Lemma unconditional_status_no_entry t :
  entries t = [] → unconditional_status_of t = Ok (default_status t).
Proof.
  unfold unconditional_status_of, get.
  intros [E|E]%entries_nil_data; by rewrite E.
Qed.

(** C4, amended: a node that tracks no condition and stores no entry, with
    unplaced Results that all share the status S. Coalesce returns; when S
    is not the default status it leaves exactly one entry, a new
    unconditional one with value S; when S is the default status nothing is
    written: the stored data and the objects are as before. *)
Theorem coalesce_unplaced_only (t : TestNode) (r0 : Result) (rest : list Result) :
  updated_expected t = [] → entries t = [] →
  new_expected t = r0 :: rest → all_agree (r0 :: rest) = true →
  ∃ t', coalesce_expected t = Ok t' ∧
    (Some (r_status r0) ≠ default_status t →
       ∃ l, entries t' = [l] ∧ cvalues t !! l = None ∧
            cvalues t' = <[l := mkCV None (r_status r0)]> (cvalues t)) ∧
    (Some (r_status r0) = default_status t →
       _data t' = _data t ∧ cvalues t' = cvalues t).
Proof.
  intros Hue Hent Hnew Hagree.
  unfold coalesce_expected, rewrite_entries.
  rewrite (unconditional_status_no_entry _ Hent), Hue.
  cbn [mbind res_bind for_each]. unfold place_new_expected.
  rewrite Hnew, Hue, Hagree. cbn [andb].
  case_bool_decide as Hs.
  - unfold set. unfold entries in Hent. rewrite Hent.
    cbn [find_unconditional mbind res_bind].
    set (t2 := append_entry "expected" (mkCV None (r_status r0)) t).
    set (l := fresh (dom (cvalues t))).
    assert (entries t2 = [l]) as He2.
    { subst t2 l. rewrite append_entry_entries. unfold entries. by rewrite Hent. }
    assert (cvalues t2 = <[l := mkCV None (r_status r0)]> (cvalues t)) as Hc2.
    { subst t2 l. by rewrite append_entry_cvalues. }
    assert (default_status t2 = default_status t) as Hd2.
    { subst t2. unfold append_entry. simpl. by destruct (_data t !! "expected"). }
    rewrite (drop_default_snoc t2 [] l (mkCV None (r_status r0)));
      [|done|by rewrite Hc2, lookup_insert_eq].
    simpl. rewrite Hd2. rewrite (bool_decide_eq_false_2 _ Hs).
    cbn [mbind res_bind]. eexists. split; [done|].
    rewrite drop_empty_entries, drop_empty_cvalues. split; [|done].
    intros _. exists l. split_and!; [done | | done].
    apply not_elem_of_dom. apply is_fresh.
  - cbn [mbind res_bind]. rewrite (drop_default_nil t) by done.
    cbn [mbind res_bind]. eexists. split; [done|].
    rewrite drop_empty_data, drop_empty_cvalues. split; [|done].
    intros Hne. by destruct Hs.
Qed.

(** ** Coalescing without pending evidence *)

Lemma find_unconditional_total t ls :
  (∀ l, l ∈ ls → is_Some (cvalues t !! l)) →
  ∃ o, find_unconditional t ls = Ok o.
Proof.
  induction ls as [|l ls IH]; intros Halive; simpl; [by eexists|].
  destruct (Halive l) as [cv Hcv]; [by left|].
  unfold deref. rewrite Hcv. cbn [mbind res_bind].
  destruct (condition_node cv); [|by eexists].
  apply IH. intros l' ?. apply Halive. by right.
Qed.

Lemma unconditional_status_total t :
  (∀ l, l ∈ entries t → is_Some (cvalues t !! l)) →
  ∃ ucs, unconditional_status_of t = Ok ucs.
Proof.
  unfold unconditional_status_of, get, entries.
  destruct (_data t !! "expected") as [ls|]; simpl; [|by eexists].
  intros Halive. destruct (find_unconditional_total t ls Halive) as [o Ho].
  rewrite Ho. cbn [mbind res_bind]. destruct o as [l|]; [|by eexists].
  apply find_unconditional_Some in Ho as (_ & cv & Hcv & _).
  unfold deref. rewrite Hcv. by eexists.
Qed.

Lemma coalesce_loop_no_evidence ucs t es :
  Forall (λ e : loc * list Result, e.2 = []) es →
  for_each (coalesce_entry ucs) t es = Ok t.
Proof.
  induction 1 as [|[l rs] es Hrs _ IH]; simpl; [done|].
  simpl in Hrs. subst rs. done.
Qed.

Lemma rewrite_entries_no_evidence t :
  (∀ l, l ∈ entries t → is_Some (cvalues t !! l)) → no_evidence t →
  rewrite_entries t = Ok t.
Proof.
  intros Halive [Hue Hnew]. unfold rewrite_entries.
  destruct (unconditional_status_total t Halive) as [ucs ->].
  cbn [mbind res_bind]. rewrite coalesce_loop_no_evidence by done.
  cbn [mbind res_bind]. unfold place_new_expected. by rewrite Hnew.
Qed.

Lemma drop_empty_static t :
  updated_expected (drop_empty t) = updated_expected t ∧
  new_expected (drop_empty t) = new_expected t ∧
  default_status (drop_empty t) = default_status t.
Proof.
  unfold drop_empty. by destruct (_data t !! "expected") as [[|? ?]|].
Qed.

Lemma drop_empty_idem t :
  KeyValueNode "expected" ∉
    remove_first (KeyValueNode "expected") (node_children t) →
  drop_empty (drop_empty t) = drop_empty t.
Proof.
  intros Hkv. unfold drop_empty at 1. rewrite drop_empty_data.
  destruct (_data t !! "expected") as [[|? ?]|] eqn:E; [|done..].
  unfold drop_empty. rewrite E. unfold with_node_children. simpl.
  by rewrite (remove_first_not_elem _ _ Hkv).
Qed.

Lemma remove_value_static l t t' :
  remove_value "expected" l t = Ok t' →
  cvalues t' = cvalues t ∧ node_children t' = node_children t ∧
  updated_expected t' = updated_expected t ∧
  new_expected t' = new_expected t ∧ default_status t' = default_status t.
Proof. by intros [_ ->]%remove_value_Ok. Qed.

(** A node on which the closing cleanup has nothing left to do. *)
Lemma coalesce_settled t :
  (∀ l, l ∈ entries t → is_Some (cvalues t !! l)) → no_evidence t →
  drop_default t = Ok t →
  KeyValueNode "expected" ∉
    remove_first (KeyValueNode "expected") (node_children t) →
  coalesce_expected (drop_empty t) = Ok (drop_empty t).
Proof.
  intros Halive [Hue Hnew] Hdd Hkv.
  destruct (drop_empty_static t) as (Hue' & Hnew' & Hd').
  unfold coalesce_expected. rewrite rewrite_entries_no_evidence.
  - cbn [mbind res_bind].
    assert (drop_default (drop_empty t) = Ok (drop_empty t)) as ->.
    { destruct (entries t) as [|l0 ls0] eqn:He using rev_ind.
      - apply drop_default_nil. by rewrite drop_empty_entries.
      - clear IHls0. destruct (Halive l0) as [cv Hcv].
        { apply elem_of_app. right. by left. }
        rewrite (drop_default_snoc _ ls0 l0 cv) in Hdd by done.
        rewrite (drop_default_snoc _ ls0 l0 cv);
          [|by rewrite drop_empty_entries|by rewrite drop_empty_cvalues].
        rewrite Hd'. destruct (_ && _); [|done].
        apply remove_value_entries in Hdd. rewrite He in Hdd.
        apply (f_equal length) in Hdd.
        assert (length (remove_first l0 (ls0 ++ [l0])) < length (ls0 ++ [l0])).
        { clear. induction ls0 as [|x ls0 IH]; simpl.
          - rewrite bool_decide_eq_true_2 by done. simpl. lia.
          - case_bool_decide; simpl; lia. }
        lia. }
    cbn [mbind res_bind]. by rewrite drop_empty_idem.
  - by rewrite drop_empty_entries, drop_empty_cvalues.
  - split; by rewrite ?Hue', ?Hnew'.
Qed.

(** On a sound node with no pending evidence and at most one unconditional
    entry, coalesce returns, and calling it again leaves the node exactly as
    the first call left it. *)
Theorem coalesce_idempotent_no_evidence (t : TestNode) :
  wf t → no_evidence t → one_fallback t →
  ∃ t1, coalesce_expected t = Ok t1 ∧ coalesce_expected t1 = Ok t1.
Proof.
  intros Hwf Hev Hone.
  unfold coalesce_expected at 1.
  rewrite rewrite_entries_no_evidence by (done || apply Hwf).
  cbn [mbind res_bind].
  destruct (entries t) as [|l ls] eqn:He using rev_ind.
  { rewrite (drop_default_nil t He). cbn [mbind res_bind].
    eexists. split; [done|].
    apply coalesce_settled; [apply Hwf | done | by apply drop_default_nil | apply Hwf]. }
  clear IHls.
  destruct (wf_entries_alive _ Hwf l) as [cv Hcv].
  { rewrite He. apply elem_of_app. right. by left. }
  rewrite (drop_default_snoc _ ls l cv) by done.
  destruct (bool_decide (condition_node cv = None)
            && bool_decide (Some (value cv) = default_status t)) eqn:Hcase.
  - unfold remove_value. unfold entries in He. 
    destruct (_data t !! "expected") as [ls'|] eqn:Hd; simpl in He;
      [subst ls'|by destruct ls].
    rewrite bool_decide_eq_true_2 by (apply elem_of_app; right; by left).
    cbn [mbind res_bind]. eexists. split; [done|].
    set (t3 := with_data _ t).
    assert (entries t3 = ls) as He3.
    { subst t3. unfold entries. simpl. rewrite lookup_insert_eq. simpl.
      apply remove_first_snoc. pose proof (wf_entries_nodup _ Hwf) as Hnd.
      unfold entries in Hnd. by rewrite Hd in Hnd. }
    apply coalesce_settled; [| done | | apply Hwf].
    + rewrite He3. intros l' Hl'. apply (wf_entries_alive _ Hwf).
      unfold entries. rewrite Hd. simpl. apply elem_of_app. by left.
    + destruct ls as [|l' ls'] using rev_ind; [by apply drop_default_nil|].
      clear IHls'. destruct (wf_entries_alive _ Hwf l') as [cv' Hcv'].
      { unfold entries. rewrite Hd. simpl. rewrite !elem_of_app.
        left; right. by left. }
      rewrite (drop_default_snoc t3 ls' l' cv') by done.
      destruct (bool_decide (condition_node cv' = None)) eqn:Hc'; [|done].
      exfalso. apply bool_decide_eq_true in Hc'.
      apply andb_true_iff in Hcase as [Hc%bool_decide_eq_true _].
      unfold one_fallback, entries in Hone. rewrite Hd in Hone. simpl in Hone.
      rewrite !filter_app, !filter_cons, !filter_nil in Hone.
      rewrite !decide_True in Hone; [rewrite !length_app in Hone; simpl in Hone; lia| |].
      * unfold unconditional. by rewrite Hcv, <-Hc.
      * unfold unconditional. by rewrite Hcv', <-Hc'.
  - cbn [mbind res_bind]. eexists. split; [done|].
    apply coalesce_settled; [apply Hwf | done | | apply Hwf].
    rewrite (drop_default_snoc _ ls l cv) by done. by rewrite Hcase.
Qed.

Lemma node_fail_now_passing_recorded ev :
  set_result ev linux (mkTestResult "PASS" "PASS") (from_file [mkCV None "FAIL"])
  = Ok node_fail_now_passing.
Proof. reflexivity. Qed.

Lemma node_linux_fail_recorded ev :
  ev (os_is "linux") linux = true →
  set_result ev linux (mkTestResult "FAIL" "PASS")
    (from_file [mkCV (Some (os_is "linux")) "FAIL"; mkCV None "PASS"])
  = Ok node_linux_fail.
Proof.
  intros Hev. unfold set_result. cbn [check_default default_status from_file
    _add_key_value init_TestNode with_data with_cvalues with_updated_expected
    bool_decide decide_rel mbind res_bind].
  vm_compute. vm_compute in Hev. by rewrite Hev.
Qed.

Lemma node_linux_passing_win_failing_recorded ev :
  ev (os_is "linux") linux = true → ev (os_is "linux") win = false →
  record_all ev [(linux, mkTestResult "PASS" "PASS");
                 (win, mkTestResult "FAIL" "PASS")]
    (from_file [mkCV (Some (os_is "linux")) "FAIL"])
  = Ok node_linux_passing_win_failing.
Proof.
  intros Hl Hw. vm_compute. vm_compute in Hl, Hw. rewrite Hl. by rewrite Hw.
Qed.

Lemma node_fail_disagreeing_recorded ev :
  record_all ev [(linux, mkTestResult "PASS" "PASS");
                 (win, mkTestResult "TIMEOUT" "PASS")]
    (from_file [mkCV None "FAIL"])
  = Ok node_fail_disagreeing.
Proof. reflexivity. Qed.

Lemma node_new_failing_recorded ev :
  set_result ev linux (mkTestResult "FAIL" "PASS") (init_TestNode [])
  = Ok node_new_failing.
Proof. reflexivity. Qed.

(** ** Sound nodes *)

(** The nodes compiled from a manifest are sound, and recording results
    keeps them so: the properties of [coalesce_expected] below apply to
    every node that was loaded and then fed results. *)
Lemma from_file_wf cvs : wf (from_file cvs).
Proof.
  unfold from_file, _add_key_value. rewrite bool_decide_eq_true_2 by done.
  split; unfold entries; simpl; rewrite ?lookup_insert_eq; simpl.
  - apply NoDup_seq.
  - intros l Hl. apply elem_of_seq in Hl as [_ Hl]. simpl in Hl.
    destruct (lookup_lt_is_Some_2 cvs l Hl) as [cv Hcv].
    exists cv. apply elem_of_list_to_map.
    + rewrite fst_zip by (rewrite length_seq; lia). apply NoDup_seq.
    + apply list_elem_of_lookup. exists l. apply lookup_zip_with_Some.
      exists l, cv. split_and!; [done | | done].
      by apply lookup_seq.
  - rewrite <-list_fmap_compose. simpl. rewrite list_fmap_id. apply NoDup_seq.
  - apply not_elem_of_nil.
  - done.
Qed.

Lemma set_result_wf ev ri result t t' :
  set_result ev ri result t = Ok t' → wf t → wf t'.
Proof.
  intros Hrun [Hnd Halive Htr Hkv Hkv0].
  destruct (set_result_frame ev ri result t t' Hrun) as (Hc & Hd & Hn & Hu).
  split; unfold entries in *; rewrite ?Hc, ?Hd, ?Hn, ?Hu; done.
Qed.

(** ** The claims on the examples *)

(** C1 as stated fails on [expected: FAIL] with a passing run: the entry is
    unconditional, so it is in the "otherwise" case, yet after coalesce it is
    not kept: the attribute has no entry left. *)
Lemma coalesce_agreeing_default_not_kept :
  (0, [mkResult linux "PASS"]) ∈ updated_expected node_fail_now_passing ∧
  all_agree [mkResult linux "PASS"] = true ∧
  cvalues node_fail_now_passing !! 0 = Some (mkCV None "FAIL") ∧
  entries node_fail_now_passing = [0] ∧
  ∃ t', coalesce_expected node_fail_now_passing = Ok t' ∧ entries t' = [].
Proof.
  split_and!; [by left | done | done | done |].
  eexists. split; [vm_compute; reflexivity | done].
Qed.

Lemma node_linux_passing_recorded ev :
  ev (os_is "linux") linux = true →
  set_result ev linux (mkTestResult "PASS" "PASS")
    (from_file [mkCV (Some (os_is "linux")) "FAIL";
                mkCV (Some (os_is "win")) "FAIL"])
  = Ok node_linux_passing.
Proof. intros Hev. vm_compute. vm_compute in Hev. by rewrite Hev. Qed.

(** C2 as stated fails on [expected: if os == "linux": FAIL, PASS] with a
    failing run on linux: the unconditional entry has no matched result, and
    after coalesce it is gone from the attribute. And on [expected: if os ==
    "linux": FAIL, if os == "win": FAIL] with a passing run on linux, the
    entry for win has no matched result and moves from the second place to
    the first. *)
Lemma coalesce_untested_default_dropped :
  ((1, []) ∈ updated_expected node_linux_fail ∧
   cvalues node_linux_fail !! 1 = Some (mkCV None "PASS") ∧
   entries node_linux_fail = [0; 1] ∧
   ∃ t', coalesce_expected node_linux_fail = Ok t' ∧ entries t' = [0]) ∧
  ((1, []) ∈ updated_expected node_linux_passing ∧
   entries node_linux_passing = [0; 1] ∧
   ∃ t', coalesce_expected node_linux_passing = Ok t' ∧ entries t' = [1]).
Proof.
  split; (split_and!; [by right; left | done.. |]);
    (eexists; split; [vm_compute; reflexivity | done]).
Qed.

(** C4 as stated fails when the only tracked condition is dropped: the pass
    leaves no tracked condition and one unplaced Result, whose status is not
    the default, but the entry written is a conditional one. *)
Lemma coalesce_dropped_condition_synthesizes :
  let t := node_linux_passing_win_failing in
  ∃ t1 t',
    for_each (coalesce_entry (Some "PASS")) t (updated_expected t) = Ok t1 ∧
    entries t1 = [] ∧
    new_expected t1 = [mkResult win "FAIL"] ∧
    Some "FAIL" ≠ default_status t1 ∧
    coalesce_expected t = Ok t' ∧
    entries t' = [1] ∧
    cvalues t' !! 1 = Some (mkCV (Some (os_is "win")) "FAIL").
Proof.
  eexists _, _. split_and!;
    [vm_compute; reflexivity | done | done | done
     | vm_compute; reflexivity | done | done].
Qed.


(** Decidable facts about a concrete node, by evaluation. *)
Ltac by_compute :=
  match goal with
  | |- ?P => apply (bool_decide_unpack P); vm_compute; exact I
  end.

Lemma coalesce_agreeing_entry_witness :
  cvalues (coalesced node_linux_fail) !! 0
    = Some (mkCV (Some (os_is "linux")) "FAIL") ∧
  (0 ∈ entries (coalesced node_linux_fail) ∨
   (Some (os_is "linux") = None ∧ Some "FAIL" = Some "PASS")).
Proof.
  destruct (coalesce_agreeing_entry node_linux_fail (coalesced node_linux_fail)
              (Some "PASS") 0 [mkResult linux "FAIL"] (mkResult linux "FAIL")
              (mkCV (Some (os_is "linux")) "FAIL"))
    as (t1 & t2 & _ & _ & _ & Hkept).
  - by_compute.
  - reflexivity.
  - vm_compute. reflexivity.
  - left.
  - reflexivity.
  - reflexivity.
  - reflexivity.
  - destruct Hkept as (_ & _ & Hcv & Hin).
    + intros [_ [=]].
    + split; [exact Hcv|].
      destruct Hin as [Hin|(Hn & Hd & _)]; [left | by left | right; by split].
Defined.

Lemma coalesce_untested_entry_witness :
  cvalues (coalesced node_untouched) !! 0
    = Some (mkCV (Some (os_is "linux")) "FAIL") ∧
  (0 ∈ entries (coalesced node_untouched) ∨
   (Some (os_is "linux") = None ∧ Some "FAIL" = None)).
Proof.
  destruct (coalesce_untested_entry node_untouched (coalesced node_untouched)
              (Some "PASS") 0 (mkCV (Some (os_is "linux")) "FAIL"))
    as (_ & Hcv & _ & t1 & t2 & _ & _ & _ & _ & Hin).
  - by_compute.
  - reflexivity.
  - vm_compute. reflexivity.
  - left.
  - reflexivity.
  - split; [exact Hcv|].
    destruct Hin as [Hin|(Hn & Hd & _)]; [left | by left | right; by split].
Defined.

Lemma coalesce_cleanup_witness :
  ∃ t2, rewrite_entries node_fail_now_passing = Ok t2 ∧
        entries (coalesced node_fail_now_passing) = [] ∧
        KeyValueNode "expected" ∉ node_children (coalesced node_fail_now_passing).
Proof.
  destruct (coalesce_cleanup node_fail_now_passing (coalesced node_fail_now_passing))
    as (t2 & Hrw & _ & _ & _ & _ & Hkv & _).
  - by_compute.
  - vm_compute. reflexivity.
  - exists t2. split; [exact Hrw|]. split; [reflexivity|].
    apply Hkv. reflexivity.
Defined.

Lemma coalesce_unplaced_only_witness :
  ∃ t', coalesce_expected node_new_failing = Ok t' ∧
    ∃ l, entries t' = [l] ∧
         cvalues t' = <[l := mkCV None "FAIL"]> (cvalues node_new_failing).
Proof.
  destruct (coalesce_unplaced_only node_new_failing (mkResult linux "FAIL") [])
    as (t' & Hrun & Hwritten & _).
  - reflexivity.
  - reflexivity.
  - reflexivity.
  - reflexivity.
  - exists t'. split; [exact Hrun|].
    destruct Hwritten as (l & He & _ & Hc); [discriminate|].
    exists l. split; [exact He | exact Hc].
Defined.

Lemma coalesce_idempotent_no_evidence_witness :
  ∃ t1, coalesce_expected node_untouched = Ok t1 ∧ coalesce_expected t1 = Ok t1.
Proof.
  apply (coalesce_idempotent_no_evidence node_untouched).
  - by_compute.
  - split; [|reflexivity]. repeat constructor.
  - vm_compute. lia.
Defined.

Lemma set_result_first_match_witness :
  let t := from_file [mkCV (Some (os_is "linux")) "FAIL"; mkCV None "PASS"] in
  let r := mkResult win "TIMEOUT" in
  let t' := with_root_modified true
              (with_updated_expected [(0, []); (1, [r])]
                 (with_default_status (Some "PASS") t)) in
  cvalues t' = cvalues t ∧ _data t' = _data t ∧
  node_children t' = node_children t ∧
  ((∃ before l vals after cv,
      updated_expected t = before ++ (l, vals) :: after ∧
      Forall (rejects holds_on_linux t win) before ∧
      cvalues t !! l = Some cv ∧ cv_call holds_on_linux cv win = true ∧
      updated_expected t' = before ++ (l, vals ++ [r]) :: after ∧
      new_expected t' = new_expected t ∧
      root_modified t' =
        (if bool_decide ("TIMEOUT" ≠ value cv) then true else root_modified t))
   ∨
   (Forall (rejects holds_on_linux t win) (updated_expected t) ∧
    updated_expected t' = updated_expected t ∧
    new_expected t' = new_expected t ++ [r] ∧
    root_modified t' = true)).
Proof.
  intros t r t'.
  apply (set_result_first_match holds_on_linux win
           (mkTestResult "TIMEOUT" "PASS") t t').
  reflexivity.
Defined.

Lemma default_status_consistent_witness :
  let t0 := from_file [mkCV None "FAIL"] in
  ∃ t1, set_result holds_on_linux linux (mkTestResult "PASS" "PASS") t0 = Ok t1 ∧
        default_status t1 = Some "PASS" ∧
        (set_result holds_on_linux win (mkTestResult "FAIL" "OK") t1
           = Raise AssertionError ↔ "PASS" ≠ "OK").
Proof.
  intros t0. exists node_fail_now_passing.
  destruct (default_status_consistent holds_on_linux t0 node_fail_now_passing
              node_fail_now_passing linux (mkTestResult "PASS" "PASS") []
              win (mkTestResult "FAIL" "OK"))
    as (Hd & _ & Hiff).
  - reflexivity.
  - reflexivity.
  - reflexivity.
  - split; [reflexivity|]. split; [exact Hd | exact Hiff].
Defined.

(** * Further properties *)

(** ** The outcomes of the synthesizer *)

Lemma run_info_get_cases ri p :
  match run_info_get ri p with
  | Ok _ => p ∈ ri.*1
  | Raise e => e = KeyError ∧ p ∉ ri.*1
  end.
Proof.
  induction ri as [|[k v] ri IH]; simpl.
  - split; [done | apply not_elem_of_nil].
  - case_bool_decide as Hk; [subst; by left|].
    destruct (run_info_get ri p).
    + by right.
    + destruct IH as [-> ?]. split; [done|].
      apply not_elem_of_cons. split; [congruence | done].
Qed.

Lemma make_prop_set_cases ri props :
  match make_prop_set ri props with
  | Ok ps => ps.*1 = props ∧ ∀ p, p ∈ props → p ∈ ri.*1
  | Raise e => e = KeyError ∧ ∃ p, p ∈ props ∧ p ∉ ri.*1
  end.
Proof.
  induction props as [|p props IH]; simpl.
  - split; [done|]. intros p Hp. by apply elem_of_nil in Hp.
  - pose proof (run_info_get_cases ri p) as Hget.
    destruct (run_info_get ri p) as [v|e]; cbn [mbind res_bind].
    + destruct (make_prop_set ri props) as [ps|e]; cbn [mbind res_bind].
      * destruct IH as [<- Hall]. split; [done|].
        intros q [->|Hq]%elem_of_cons; [done | by apply Hall].
      * destruct IH as [-> (q & ? & ?)]. split; [done|].
        exists q. split; [by right | done].
    + destruct Hget as [-> ?]. split; [done|]. exists p. split; [by left | done].
Qed.

Lemma make_expr_is_Ok ps st :
  ps ≠ [] → ∃ e, make_expr ps st = Ok e.
Proof.
  intros Hne. unfold make_expr. rewrite bool_decide_eq_true_2; [by eexists|].
  destruct ps; [done | simpl; lia].
Qed.

(** With properties selected, the second loop fails only on a result that
    lacks one of them. *)
Lemma add_conditions_outcome props cs values :
  props ≠ [] →
  match for_each (add_condition props) cs values with
  | Ok _ => ∀ r, r ∈ values → ∀ p, p ∈ props → binds_prop r p
  | Raise e =>
      e = KeyError ∧ ∃ r p, r ∈ values ∧ p ∈ props ∧ ¬ binds_prop r p
  end.
Proof.
  intros Hne. revert cs. induction values as [|r values IH]; intros cs; simpl.
  - intros r Hr. by apply elem_of_nil in Hr.
  - pose proof (make_prop_set_cases (r_run_info r) props) as Hps.
    destruct (add_condition props cs r) as [cs'|e] eqn:Hadd;
      unfold add_condition in Hadd;
      destruct (make_prop_set (r_run_info r) props) as [ps|e'];
      cbn [mbind res_bind] in *.
    + destruct Hps as [Hfst Hall]. specialize (IH cs').
      destruct (for_each (add_condition props) cs' values) as [|e].
      * intros r' [->|Hr']%elem_of_cons; [done | by apply IH].
      * destruct IH as [-> (r' & p & ? & ? & ?)]. split; [done|].
        exists r', p. split_and!; [by right | done..].
    + done.
    + exfalso. destruct Hps as [Hfst _].
      destruct (conditions_mem ps cs); [done|].
      destruct (make_expr_is_Ok ps (r_status r)) as [e0 He0].
      { intros ->. by destruct props. }
      rewrite He0 in Hadd. done.
    + inversion Hadd; subst e'. destruct Hps as [-> (p & ? & ?)].
      split; [done|]. exists r, p. split_and!; [by left | done..].
Qed.

(** X1: the three outcomes of [group_conditionals]. It returns when the
    input is empty, or when some property is selected and every result has
    every selected property. It raises the assertion error of [make_expr]
    when the input is not empty and no property is selected, and KeyError
    when a result lacks a selected property; it raises nothing else. *)
Theorem group_conditionals_outcome (values : list Result) :
  match group_conditionals values with
  | Ok conds =>
      (values = [] ∨ include_props values ≠ []) ∧
      ∀ r, r ∈ values → ∀ p, p ∈ include_props values → binds_prop r p
  | Raise AssertionError => values ≠ [] ∧ include_props values = []
  | Raise KeyError =>
      include_props values ≠ [] ∧
      ∃ r p, r ∈ values ∧ p ∈ include_props values ∧ ¬ binds_prop r p
  | Raise _ => False
  end.
Proof.
  unfold group_conditionals.
  destruct (include_props values) as [|p props] eqn:Hinc.
  - destruct values as [|r values]; simpl.
    + split; [by left|]. intros r Hr. by apply elem_of_nil in Hr.
    + done.
  - pose proof (add_conditions_outcome (p :: props) [] values) as Hout.
    destruct (for_each _ _ _) as [cs|e]; cbn [mbind res_bind].
    + split; [by right | by apply Hout].
    + destruct Hout as [-> ?]; done.
Qed.

(** ** Signatures: the first result wins *)

Lemma prop_set_eqb_norm p q :
  prop_set_eqb p q = true ↔ knorm <$> p = knorm <$> q.
Proof.
  revert q. induction p as [|a p IH]; intros [|b q]; csimpl; try done.
  rewrite andb_true_iff, key_eqb_norm, IH. split.
  - by intros [-> ->].
  - intros Heq. injection Heq as H1 H2 H3.
    split; [unfold knorm; by f_equal | done].
Qed.

Lemma prop_set_eqb_refl p : prop_set_eqb p p = true.
Proof. by apply prop_set_eqb_norm. Qed.

Lemma prop_set_eqb_sym p q : prop_set_eqb p q = prop_set_eqb q p.
Proof.
  destruct (prop_set_eqb q p) eqn:E.
  - apply prop_set_eqb_norm. by apply prop_set_eqb_norm in E.
  - destruct (prop_set_eqb p q) eqn:E'; [|done].
    apply prop_set_eqb_norm in E'. symmetry in E'.
    apply prop_set_eqb_norm in E'. congruence.
Qed.

Lemma prop_set_eqb_trans p q r :
  prop_set_eqb p q = true → prop_set_eqb q r = true → prop_set_eqb p r = true.
Proof. rewrite !prop_set_eqb_norm. congruence. Qed.

Lemma conditions_mem_true ps (cs : conditions_t) :
  conditions_mem ps cs = true ↔ ∃ e, e ∈ cs ∧ prop_set_eqb ps e.1 = true.
Proof.
  unfold conditions_mem. rewrite existsb_exists. split.
  - intros (e & ?%list_elem_of_In & ?). by exists e.
  - intros (e & ?%list_elem_of_In & ?). by exists e.
Qed.

Lemma add_condition_conditions_of props done cs r cs' :
  conditions_of props done cs →
  add_condition props cs r = Ok cs' →
  conditions_of props (done ++ [r]) cs'.
Proof.
  intros (Hlen & Hfrom & Hcov) Hadd. unfold add_condition in Hadd.
  inv_bind Hadd. rename a into ps.
  assert (∀ ps0 c st, (ps0, (c, st)) ∈ cs →
            ∃ j r0, (done ++ [r]) !! j = Some r0 ∧ signature props r0 = Ok ps0 ∧
              st = r_status r0 ∧ make_expr ps0 st = Ok c ∧
              ∀ k r' ps', k < j → (done ++ [r]) !! k = Some r' →
                          signature props r' = Ok ps' →
                          prop_set_eqb ps0 ps' = false) as Hfrom'.
  { intros ps0 c st Hin.
    destruct (Hfrom _ _ _ Hin) as (j & r0 & Hj & Hs & -> & He & Hmin).
    pose proof (lookup_lt_Some _ _ _ Hj) as Hlt.
    exists j, r0. split_and!; try done.
    - by rewrite lookup_app_l.
    - intros k r' ps' Hk Hk'. rewrite lookup_app_l in Hk' by lia. by eapply Hmin. }
  destruct (conditions_mem ps cs) eqn:Hmem.
  - inversion Hadd; subst cs'; clear Hadd. split_and!.
    + rewrite length_app. simpl. lia.
    + done.
    + intros i r0 ps0 Hi Hs.
      apply lookup_app_Some in Hi as [Hi|[_ Hi]]; [by eapply Hcov|].
      apply list_lookup_singleton_Some in Hi as [_ <-].
      unfold signature in Hs. rewrite Ha in Hs. by inversion Hs; subst.
  - inv_bind Hadd. inversion Hadd; subst cs'; clear Hadd. split_and!.
    + rewrite !length_app. simpl. lia.
    + intros ps0 c st [Hin|Hin]%elem_of_app; [by apply Hfrom'|].
      apply list_elem_of_singleton in Hin. inversion Hin; subst; clear Hin.
      exists (length done), r. split_and!; try done.
      * by rewrite lookup_app_r, Nat.sub_diag.
      * intros k r' ps' Hk Hk' Hs'. rewrite lookup_app_l in Hk' by done.
        destruct (prop_set_eqb ps ps') eqn:E; [|done]. exfalso.
        pose proof (Hcov _ _ _ Hk' Hs') as (e & He & Hee)%conditions_mem_true.
        assert (conditions_mem ps cs = true) as Hc; [|congruence].
        apply conditions_mem_true. exists e. split; [done|].
        by eapply prop_set_eqb_trans.
    + intros i r0 ps0 Hi Hs. apply conditions_mem_true.
      apply lookup_app_Some in Hi as [Hi|[_ Hi]].
      * pose proof (Hcov _ _ _ Hi Hs) as (e & He & Hee)%conditions_mem_true.
        exists e. split; [apply elem_of_app; by left | done].
      * apply list_lookup_singleton_Some in Hi as [_ <-].
        unfold signature in Hs. rewrite Ha in Hs. inversion Hs; subst.
        eexists. split; [apply elem_of_app; right; by left|].
        apply prop_set_eqb_refl.
Qed.

Lemma add_conditions_conditions_of props done cs rest cs' :
  conditions_of props done cs →
  for_each (add_condition props) cs rest = Ok cs' →
  conditions_of props (done ++ rest) cs'.
Proof.
  revert done cs. induction rest as [|r rest IH]; intros done cs Hinv Hrun;
    simpl in Hrun.
  - inversion Hrun; subst. by rewrite app_nil_r.
  - inv_bind Hrun. rewrite cons_middle, app_assoc.
    eapply IH; [|done]. by eapply add_condition_conditions_of.
Qed.

(** X2: the conditions that [group_conditionals] returns. There are at most
    as many as results; each one is built by [make_expr] from the signature
    and the status of a result; and every result is covered by the condition
    made from the first result that has its signature, with that first
    result's status, whatever its own status is. *)
Theorem group_conditionals_first_wins (values : list Result)
    (conds : list (Node * string)) :
  group_conditionals values = Ok conds →
  let props := include_props values in
  (length conds ≤ length values)%nat ∧
  (∀ c st, (c, st) ∈ conds →
     ∃ r ps, r ∈ values ∧ signature props r = Ok ps ∧ r_status r = st ∧
             make_expr ps st = Ok c) ∧
  (∀ i r ps, values !! i = Some r → signature props r = Ok ps →
     ∃ j r' ps' c,
       (j ≤ i)%nat ∧ values !! j = Some r' ∧ signature props r' = Ok ps' ∧
       prop_set_eqb ps ps' = true ∧
       (∀ k r'' ps'', (k < j)%nat → values !! k = Some r'' →
                      signature props r'' = Ok ps'' →
                      prop_set_eqb ps ps'' = false) ∧
       make_expr ps' (r_status r') = Ok c ∧ (c, r_status r') ∈ conds).
Proof.
  unfold group_conditionals. intros Hrun. inv_bind Hrun.
  inversion Hrun; subst conds; clear Hrun. rename a into cs.
  set (props := include_props values) in *.
  assert (conditions_of props [] []) as Hinit.
  { split_and!; [done | |].
    - intros ? ? ? Hin. by apply elem_of_nil in Hin.
    - intros i r ps Hi. by rewrite lookup_nil in Hi. }
  destruct (add_conditions_conditions_of _ _ _ _ _ Hinit Ha)
    as (Hlen & Hfrom & Hcov). simpl in *.
  split_and!.
  - by rewrite length_fmap.
  - intros c st ([ps [c' st']] & [= <- <-] & Hin)%list_elem_of_fmap.
    destruct (Hfrom _ _ _ Hin) as (j & r & Hj & Hs & -> & He & _).
    exists r, ps. split_and!; try done. by eapply list_elem_of_lookup_2.
  - intros i r ps Hi Hs.
    pose proof (Hcov _ _ _ Hi Hs) as ([ps' [c st]] & Hin & Heq)%conditions_mem_true.
    simpl in Heq.
    destruct (Hfrom _ _ _ Hin) as (j & r' & Hj & Hs' & -> & He & Hmin).
    exists j, r', ps', c. split_and!; try done.
    + destruct (decide (j ≤ i)%nat) as [|Hgt]; [done|]. exfalso.
      assert (prop_set_eqb ps' ps = false) as Hf
        by (apply (Hmin i r ps); [lia | done | done]).
      rewrite prop_set_eqb_sym in Hf. congruence.
    + intros k r'' ps'' Hk Hk' Hs''.
      destruct (prop_set_eqb ps ps'') eqn:E; [|done].
      assert (prop_set_eqb ps' ps'' = false) as Hf by (by eapply Hmin).
      rewrite prop_set_eqb_sym in Heq.
      by rewrite (prop_set_eqb_trans _ _ _ Heq E) in Hf.
    + apply list_elem_of_fmap. by exists (ps', (c, r_status r')).
Qed.

Lemma group_conditionals_first_wins_witness :
  let values := [mkResult [("os", VStr "linux")] "PASS";
                 mkResult [("os", VStr "win")] "FAIL";
                 mkResult [("os", VStr "linux")] "TIMEOUT"] in
  ∃ conds, group_conditionals values = Ok conds ∧
    (length conds ≤ length values)%nat ∧
    ∃ j r' ps' c,
      (j ≤ 2)%nat ∧ values !! j = Some r' ∧
      signature (include_props values) r' = Ok ps' ∧
      prop_set_eqb [("os", VStr "linux")] ps' = true ∧
      (∀ k r'' ps'', (k < j)%nat → values !! k = Some r'' →
                     signature (include_props values) r'' = Ok ps'' →
                     prop_set_eqb [("os", VStr "linux")] ps'' = false) ∧
      make_expr ps' (r_status r') = Ok c ∧ (c, r_status r') ∈ conds.
Proof.
  intros values.
  destruct (group_conditionals values) as [conds|] eqn:Hrun;
    [|vm_compute in Hrun; discriminate].
  destruct (group_conditionals_first_wins values conds Hrun) as (Hlen & _ & Hcov).
  exists conds. split; [reflexivity|]. split; [exact Hlen|].
  apply (Hcov 2 (mkResult [("os", VStr "linux")] "TIMEOUT")); reflexivity.
Defined.

(** ** When the pruning bites *)

Lemma by_property_entry_statuses values k ss :
  (k, ss) ∈ by_property values →
  NoDup ss ∧ ∀ s, s ∈ ss → s ∈ r_status <$> values.
Proof.
  intros Hin. apply dict_elem_get in Hin; [|apply by_property_NoDup].
  pose proof (tracks_by_property values k) as Ht. rewrite Hin in Ht.
  destruct Ht as (Hnd & _ & Hs). split; [done|].
  intros s (r & Hr & _ & <-)%Hs. apply list_elem_of_fmap. by exists r.
Qed.

(** X3: unless the statuses of the results are pairwise distinct, the
    pruning step deletes nothing: a (property, value) cannot collect as many
    distinct statuses as there are results. *)
Theorem prune_needs_distinct_statuses (values : list Result) :
  ¬ NoDup (r_status <$> values) →
  prune values (by_property values) = by_property values.
Proof.
  intros Hdup. unfold prune. case_bool_decide; [|done].
  apply filter_all. intros [k ss] Hin Hlen. simpl in Hlen. apply Hdup.
  destruct (by_property_entry_statuses _ _ _ Hin) as [Hnd Hsub].
  assert (ss ≡ₚ r_status <$> values) as <-; [|done].
  apply submseteq_length_Permutation.
  - by apply NoDup_submseteq.
  - rewrite length_fmap. lia.
Qed.

Lemma prune_needs_distinct_statuses_witness :
  let values := [mkResult [("os", VStr "linux"); ("bits", VNum 64)] "PASS";
                 mkResult [("os", VStr "win"); ("bits", VNum 64)] "FAIL";
                 mkResult [("os", VStr "mac"); ("bits", VNum 64)] "PASS"] in
  prune values (by_property values) = by_property values.
Proof.
  intros values. apply (prune_needs_distinct_statuses values).
  intros Hnd. apply NoDup_cons in Hnd as [Hn _]. apply Hn.
  right. left.
Defined.

Lemma NoDup_fmap_filter {A B} (f : A → B) (P : A → Prop)
    `{∀ x, Decision (P x)} (l : list A) :
  NoDup (f <$> l) → NoDup (f <$> filter P l).
Proof.
  induction l as [|x l IH]; [done|]. rewrite fmap_cons, filter_cons.
  intros [Hx Hnd]%NoDup_cons. destruct (decide (P x)); [|by apply IH].
  rewrite fmap_cons. apply NoDup_cons. split; [|by apply IH].
  intros (y & Hy & [_ ?]%list_elem_of_filter)%list_elem_of_fmap.
  apply Hx. apply list_elem_of_fmap. by exists y.
Qed.

Lemma length_filter_all {A} (P : A → Prop) `{∀ x, Decision (P x)} (l : list A) :
  length (filter P l) = length l ↔ ∀ x, x ∈ l → P x.
Proof.
  split.
  - intros Hlen x Hx. destruct (decide (P x)) as [|Hn]; [done|].
    pose proof (length_filter_lt P l x Hx Hn). lia.
  - intros Hall. by rewrite filter_all.
Qed.

(** X4: when the statuses of the results are pairwise distinct, the pruning
    step does what the comment above it says: with more than one result, it
    deletes exactly the (property, value) pairs that all the results
    share. *)
Theorem prune_removes_common (values : list Result) (k : prop_key) :
  NoDup (r_status <$> values) →
  discarded values k ↔
  (1 < length values)%nat ∧ ∀ r, r ∈ values → has_binding k r = true.
Proof.
  intros Hnd. unfold discarded, candidate. rewrite prune_get.
  assert (distinct_status_count values k = length values ↔
          ∀ r, r ∈ values → has_binding k r = true) as Hcount.
  { unfold distinct_status_count.
    rewrite <-(length_filter_all (λ r, has_binding k r = true)).
    assert (remove_dups (r_status <$> filter (λ r, has_binding k r = true) values)
            ≡ₚ r_status <$> filter (λ r, has_binding k r = true) values) as ->.
    { apply NoDup_Permutation;
        [apply NoDup_remove_dups | by apply NoDup_fmap_filter |].
      intros s. apply elem_of_remove_dups. }
    by rewrite length_fmap. }
  destruct (dict_get k (by_property values)) as [ss|] eqn:Hget.
  - rewrite <-Hcount, <-(by_property_count values k ss Hget).
    case_bool_decide as Hc; split.
    + by intros _.
    + intros _. split; [by eexists | done].
    + by intros [_ [=]].
    + intros ?. by destruct Hc.
  - split; [by intros [[? [=]] _]|]. intros [Hlen Hall]. exfalso.
    destruct values as [|r values]; [simpl in Hlen; lia|].
    assert (is_Some (dict_get k (by_property (r :: values)))) as [? ?];
      [|congruence].
    apply by_property_candidate. exists r. split; [by left|]. apply Hall. by left.
Qed.

Lemma prune_removes_common_witness :
  let values := [mkResult [("os", VStr "linux"); ("bits", VNum 64)] "PASS";
                 mkResult [("os", VStr "win"); ("bits", VNum 64)] "FAIL"] in
  discarded values ("bits", VNum 64) ∧ ¬ discarded values ("os", VStr "win").
Proof.
  intros values. split.
  - apply (prune_removes_common values ("bits", VNum 64)).
    + repeat constructor; set_solver.
    + split; [simpl; lia|]. intros r Hr. repeat (apply elem_of_cons in Hr as [->|Hr]; [reflexivity|]).
      by apply elem_of_nil in Hr.
  - intros Hd. apply (prune_removes_common values ("os", VStr "win")) in Hd as [_ Hall].
    + specialize (Hall (mkResult [("os", VStr "linux"); ("bits", VNum 64)] "PASS")).
      discriminate Hall. left.
    + repeat constructor; set_solver.
Defined.

(** ** Recording conserves the evidence *)

Section recording.

Variable eval_condition : Node → run_info → bool.

Lemma check_default_Ok t result t0 :
  check_default t result = Ok t0 →
  cvalues t0 = cvalues t ∧ _data t0 = _data t ∧
  node_children t0 = node_children t ∧
  updated_expected t0 = updated_expected t ∧
  new_expected t0 = new_expected t ∧
  root_modified t0 = root_modified t.
Proof.
  unfold check_default. destruct (default_status t).
  - case_bool_decide; [|done]. by intros [= <-].
  - by intros [= <-].
Qed.

Lemma set_result_cases ri result t t' :
  set_result eval_condition ri result t = Ok t' →
  (∃ before l vals after cv,
      updated_expected t = before ++ (l, vals) :: after ∧
      cvalues t !! l = Some cv ∧ cv_call eval_condition cv ri = true ∧
      updated_expected t' = before ++ (l, vals ++ [recorded (ri, result)]) :: after ∧
      new_expected t' = new_expected t ∧
      (root_modified t = true → root_modified t' = true))
  ∨
  (Forall (rejects eval_condition t ri) (updated_expected t) ∧
   updated_expected t' = updated_expected t ∧
   new_expected t' = new_expected t ++ [recorded (ri, result)] ∧
   root_modified t' = true).
Proof.
  unfold set_result. intros H. inv_bind H. inv_bind H.
  apply check_default_Ok in Ha as (Hc & Hd & Hn & Hu & Hne & Hm).
  destruct a0 as [[ue differs]|]; inversion H; subst; clear H.
  - apply record_match_Some in Ha0
      as (before & l & vals & after & cv & Hue & _ & Hl & Hcall & -> & ->).
    left. exists before, l, vals, after, cv. rewrite <-Hu, <-Hc, <-Hne, <-Hm.
    split_and!; try done; by case_bool_decide.
  - apply record_match_None in Ha0. right. simpl. rewrite <-Hu, <-Hne.
    split_and!; try done.
    eapply Forall_impl; [exact Ha0|]. intros e. unfold rejects. by rewrite Hc.
Qed.

Lemma extends_refl t : extends t t.
Proof.
  split; [|done]. apply Forall2_same_length_lookup. split; [done|].
  intros i e e' ? ?. by simplify_eq.
Qed.

Lemma extends_trans t1 t2 t3 : extends t1 t2 → extends t2 t3 → extends t1 t3.
Proof.
  intros [H12 Hn12] [H23 Hn23]. split; [|by etrans].
  revert H23. generalize (updated_expected t3).
  induction H12 as [|e1 e2 l1 l2 [? ?] _ IH]; intros l3 H23.
  - by inversion H23.
  - inversion H23 as [|? e3 ? l3' [? ?] ?]; subst. constructor.
    + split; [congruence | by etrans].
    + by apply IH.
Qed.

Lemma set_result_step ri result t t' :
  set_result eval_condition ri result t = Ok t' →
  evidence t' ≡ₚ evidence t ++ [recorded (ri, result)] ∧ extends t t' ∧
  (root_modified t = true → root_modified t' = true).
Proof.
  intros Hrun. unfold evidence, extends.
  apply set_result_cases in Hrun
    as [(before & l & vals & after & cv & Hue & _ & _ & -> & -> & Hm)
       |(_ & -> & -> & Hm)].
  - rewrite Hue, !fmap_app, !fmap_cons, !concat_app, !concat_cons. simpl.
    split_and!; [|..|done|done].
    + rewrite <-!(assoc_L (++)). do 2 f_equiv. simpl.
      rewrite (assoc_L (++)). apply Permutation_cons_append.
    + apply Forall2_app; [|constructor].
      * apply Forall2_same_length_lookup. split; [done|].
        intros i e e' ? ?. by simplify_eq.
      * simpl. split; [done|]. by apply prefix_app_r.
      * apply Forall2_same_length_lookup. split; [done|].
        intros i e e' ? ?. by simplify_eq.
  - split_and!; [by rewrite (assoc_L (++)) | | by apply prefix_app_r | done].
    apply Forall2_same_length_lookup. split; [done|].
    intros i e e' ? ?. by simplify_eq.
Qed.

Lemma record_all_frame rs t t' :
  record_all eval_condition rs t = Ok t' →
  cvalues t' = cvalues t ∧ _data t' = _data t ∧
  node_children t' = node_children t ∧
  (updated_expected t').*1 = (updated_expected t).*1.
Proof.
  unfold record_all. revert t.
  induction rs as [|[ri result] rs IH]; intros t Hrun; simpl in Hrun.
  - by inversion Hrun; subst.
  - inv_bind Hrun. simpl in Ha.
    destruct (set_result_frame _ _ _ _ _ Ha) as (Hc & Hd & Hn & Hu).
    destruct (IH _ Hrun) as (Hc' & Hd' & Hn' & Hu').
    split_and!; congruence.
Qed.

Lemma record_all_evidence rs t t' :
  record_all eval_condition rs t = Ok t' →
  evidence t' ≡ₚ evidence t ++ (recorded <$> rs).
Proof.
  unfold record_all. revert t.
  induction rs as [|[ri result] rs IH]; intros t Hrun; simpl in Hrun.
  - inversion Hrun; subst. by rewrite fmap_nil, (right_id_L [] (++)).
  - inv_bind Hrun. simpl in Ha. apply set_result_step in Ha as (Hev & _).
    rewrite (IH _ Hrun), Hev, fmap_cons, <-(assoc_L (++)). done.
Qed.

(** X5: recording never loses, duplicates or reorders a result, and never
    touches the stored attribute. After any sequence of [set_result] calls
    that return, the results the node holds are those it held plus one
    [Result] per call; each list of matched results and the list of unplaced
    results only grew at its end, the tracked conditions are the same
    objects in the same order, and a root that was marked modified still
    is. *)
Theorem record_all_conserves (rs : list (run_info * TestResult))
    (t t' : TestNode) :
  record_all eval_condition rs t = Ok t' →
  evidence t' ≡ₚ evidence t ++ (recorded <$> rs) ∧
  extends t t' ∧
  cvalues t' = cvalues t ∧ _data t' = _data t ∧
  node_children t' = node_children t ∧
  (root_modified t = true → root_modified t' = true).
Proof.
  unfold record_all. revert t.
  induction rs as [|[ri result] rs IH]; intros t Hrun; simpl in Hrun.
  - inversion Hrun; subst. rewrite fmap_nil, (right_id_L [] (++)).
    split_and!; try done. apply extends_refl.
  - inv_bind Hrun. simpl in Ha.
    destruct (set_result_frame _ _ _ _ _ Ha) as (Hc & Hd & Hn & _).
    apply set_result_step in Ha as (Hev & Hext & Hm).
    destruct (IH _ Hrun) as (Hev' & Hext' & Hc' & Hd' & Hn' & Hm').
    split_and!; [| by eapply extends_trans | congruence.. | auto].
    rewrite Hev', Hev, fmap_cons, <-(assoc_L (++)). done.
Qed.

Lemma rejects_unconditional t ri (ue : list (loc * list Result)) l cv :
  l ∈ ue.*1 → cvalues t !! l = Some cv → condition_node cv = None →
  ¬ Forall (rejects eval_condition t ri) ue.
Proof.
  intros (e & -> & He)%list_elem_of_fmap Hcv Hnone Hall.
  rewrite Forall_forall in Hall. destruct (Hall e He) as (cv' & Hcv' & Hcall).
  simplify_eq. unfold cv_call in Hcall. by rewrite Hnone in Hcall.
Qed.

(** X6: a node that tracks an unconditional entry never gets an unplaced
    result. Whatever is recorded on it, [new_expected] stays as it was and
    every new [Result] is held by a tracked condition. *)
Theorem record_all_fallback_absorbs (rs : list (run_info * TestResult))
    (t t' : TestNode) (l : loc) (cv : ConditionalValue) :
  l ∈ (updated_expected t).*1 → cvalues t !! l = Some cv →
  condition_node cv = None →
  record_all eval_condition rs t = Ok t' →
  new_expected t' = new_expected t ∧
  concat (updated_expected t').*2 ≡ₚ
    concat (updated_expected t).*2 ++ (recorded <$> rs).
Proof.
  intros Hl Hcv Hnone Hrun.
  assert (new_expected t' = new_expected t) as Hnew.
  { unfold record_all in Hrun. revert t Hl Hcv Hrun.
    induction rs as [|[ri result] rs IH]; intros t Hl Hcv Hrun; simpl in Hrun.
    - by inversion Hrun; subst.
    - inv_bind Hrun. simpl in Ha.
      destruct (set_result_frame _ _ _ _ _ Ha) as (Hc & _ & _ & Hu).
      rewrite (IH a); [| by rewrite Hu | by rewrite Hc | done].
      apply set_result_cases in Ha
        as [(? & ? & ? & ? & ? & _ & _ & _ & _ & -> & _)|(Hrej & _)]; [done|].
      by destruct (rejects_unconditional t ri _ l cv Hl Hcv Hnone). }
  split; [done|].
  apply record_all_evidence in Hrun as Hev. unfold evidence in Hev.
  rewrite Hnew in Hev.
  rewrite <-(assoc_L (++)) in Hev.
  rewrite (Permutation_app_comm (new_expected t)), (assoc_L (++)) in Hev.
  by apply Permutation_app_inv_r in Hev.
Qed.

Lemma set_result_raises ri result t e :
  tracked_alive t →
  set_result eval_condition ri result t = Raise e →
  e = AssertionError ∧
  ∃ d, default_status t = Some d ∧ d ≠ default_expected result.
Proof.
  intros Halive Hrun.
  destruct (default_status t) as [d|] eqn:Hd.
  - destruct (decide (d = default_expected result)) as [Heq|Hne].
    + destruct (set_result_returns eval_condition ri result t) as [t' Hok];
        [done | by rewrite Hd; intros ? [= <-] | congruence].
    + apply (set_result_assert eval_condition ri result t d Hd) in Hne.
      split; [congruence | exists d; split; [done|]].
      by apply (set_result_assert eval_condition ri result t d Hd).
  - destruct (set_result_returns eval_condition ri result t) as [t' Hok];
      [done | by rewrite Hd | congruence].
Qed.

(** X7: on a node whose tracked conditions are objects of the store, the
    only way a recording fails is the assertion on the default status: a
    sequence of [set_result] calls returns when the default statuses of all
    the results agree with each other and with the node's, and raises
    AssertionError otherwise. *)
Theorem record_all_outcome (rs : list (run_info * TestResult)) (t : TestNode) :
  tracked_alive t →
  match record_all eval_condition rs t with
  | Ok _ => defaults_agree t rs
  | Raise e => e = AssertionError ∧ ¬ defaults_agree t rs
  end.
Proof.
  unfold record_all. revert t.
  induction rs as [|[ri result] rs IH]; intros t Halive; simpl.
  - exists "". split; [by intros ? ?%elem_of_nil | auto].
  - destruct (set_result eval_condition ri result t) as [t1|e] eqn:Hset;
      cbn [mbind res_bind].
    + assert (tracked_alive t1) as Halive1.
      { destruct (set_result_frame _ _ _ _ _ Hset) as (Hc & _ & _ & Hu).
        intros e1 He1. rewrite Hc.
        assert (e1.1 ∈ (updated_expected t).*1) as (e0 & -> & He0)%list_elem_of_fmap.
        { rewrite <-Hu. apply list_elem_of_fmap. by exists e1. }
        by apply Halive. }
      apply set_result_default_status in Hset as [Hd1 Hprev].
      specialize (IH t1 Halive1).
      destruct (for_each _ t1 rs) as [tn|e].
      * destruct IH as (d & Hall & Hd). exists (default_expected result).
        destruct (Hd _ Hd1) as [->|<-].
        -- split; [|intros d0 H0; right; by apply Hprev].
           by intros x ->%list_elem_of_singleton.
        -- split; [|intros d0 H0; right; by apply Hprev].
           intros x [->|Hx]%elem_of_cons; [done | by apply Hall].
      * destruct IH as [-> Hno]. split; [done|].
        intros (d & Hall & Hd). apply Hno. exists d. split.
        -- intros x Hx. apply Hall. by right.
        -- intros d0. rewrite Hd1. intros [= <-]. right.
           apply (Hall (ri, result)). by left.
    + apply set_result_raises in Hset as (-> & d & Hd & Hne); [|done].
      split; [done|]. intros (d' & Hall & Hd').
      destruct (Hd' _ Hd) as [[=]|<-]. apply Hne. symmetry.
      apply (Hall (ri, result)). by left.
Qed.

End recording.

Lemma record_all_conserves_witness :
  let t := from_file [mkCV (Some (os_is "linux")) "FAIL"] in
  let t' := node_linux_passing_win_failing in
  evidence t' ≡ₚ [mkResult linux "PASS"; mkResult win "FAIL"] ∧ extends t t'.
Proof.
  intros t t'.
  destruct (record_all_conserves holds_on_linux
              [(linux, mkTestResult "PASS" "PASS"); (win, mkTestResult "FAIL" "PASS")]
              t t') as (Hev & Hext & _).
  - reflexivity.
  - split; [exact Hev | exact Hext].
Defined.

Lemma record_all_fallback_absorbs_witness :
  new_expected node_fail_disagreeing = [] ∧
  concat (updated_expected node_fail_disagreeing).*2 ≡ₚ
    [mkResult linux "PASS"; mkResult win "TIMEOUT"].
Proof.
  apply (record_all_fallback_absorbs holds_on_linux
           [(linux, mkTestResult "PASS" "PASS"); (win, mkTestResult "TIMEOUT" "PASS")]
           (from_file [mkCV None "FAIL"]) node_fail_disagreeing 0 (mkCV None "FAIL")).
  - left.
  - reflexivity.
  - reflexivity.
  - reflexivity.
Defined.

Lemma record_all_outcome_witness :
  record_all holds_on_linux
    [(linux, mkTestResult "PASS" "PASS"); (win, mkTestResult "FAIL" "OK")]
    (from_file [mkCV None "FAIL"]) = Raise AssertionError.
Proof.
  assert (tracked_alive (from_file [mkCV None "FAIL"])) as Halive.
  { intros e ->%list_elem_of_singleton. by eexists. }
  pose proof (record_all_outcome holds_on_linux
                [(linux, mkTestResult "PASS" "PASS"); (win, mkTestResult "FAIL" "OK")]
                (from_file [mkCV None "FAIL"]) Halive) as H.
  destruct (record_all _ _ _) as [t'|e] eqn:E.
  - vm_compute in E. discriminate E.
  - f_equal. apply H.
Defined.

(** ** What coalesce_expected keeps *)

Lemma coalesce_entry_new ucs t l rs t' :
  coalesce_entry ucs t (l, rs) = Ok t' →
  ∃ mv, new_expected t' = new_expected t ++ mv ∧
        ∀ r, r ∈ mv → r ∈ rs ∧ all_agree rs = false.
Proof.
  unfold coalesce_entry. destruct rs as [|r0 rs].
  { intros [= <-]. exists []. split; [by rewrite (right_id_L [] (++))|].
    by intros ? ?%elem_of_nil. }
  intros H. inv_bind H. destruct (all_agree (r0 :: rs)) eqn:Hagree.
  - exists []. rewrite (right_id_L [] (++)). split; [|by intros ? ?%elem_of_nil].
    destruct (_ && _).
    + by apply remove_value_static in H as (_ & _ & _ & -> & _).
    + by inversion H; subst.
  - case_bool_decide.
    + inv_bind H. inversion H; subst; clear H. simpl.
      apply remove_value_static in Ha0 as (_ & _ & _ & -> & _).
      by exists (r0 :: rs).
    + inversion H; subst; clear H. simpl. eexists. split; [done|].
      by intros r [_ ?]%list_elem_of_filter.
Qed.

Lemma coalesce_loop_new ucs es t t' :
  for_each (coalesce_entry ucs) t es = Ok t' →
  ∃ mv, new_expected t' = new_expected t ++ mv ∧
        ∀ r, r ∈ mv → ∃ l rs, (l, rs) ∈ es ∧ r ∈ rs ∧ all_agree rs = false.
Proof.
  revert t. induction es as [|[l rs] es IH]; intros t H; simpl in H.
  - inversion H; subst. exists []. split; [by rewrite (right_id_L [] (++))|].
    by intros ? ?%elem_of_nil.
  - inv_bind H. apply coalesce_entry_new in Ha as (mv1 & Hn1 & Hmv1).
    apply IH in H as (mv2 & Hn2 & Hmv2). exists (mv1 ++ mv2).
    split; [by rewrite Hn2, Hn1, (assoc_L (++))|].
    intros r [Hr|Hr]%elem_of_app.
    + exists l, rs. destruct (Hmv1 r Hr). split_and!; [by left | done..].
    + destruct (Hmv2 r Hr) as (l' & rs' & ? & ? & ?).
      exists l', rs'. split_and!; [by right | done..].
Qed.

Lemma set_new_expected key v c t t' :
  set key v c t = Ok t' → new_expected t' = new_expected t.
Proof.
  unfold set, append_entry. destruct c as [c|].
  - intros [= <-]. simpl. by destruct (_data t !! key).
  - intros H. inv_bind H. destruct a as [l|].
    + inv_bind H. by inversion H; subst.
    + inversion H; subst. simpl. by destruct (_data t !! key).
Qed.

Lemma place_new_expected_new ucs t t' :
  place_new_expected ucs t = Ok t' → new_expected t' = new_expected t.
Proof.
  unfold place_new_expected. destruct (new_expected t) as [|r0 rs] eqn:Hn.
  { intros [= <-]. done. }
  rewrite <-Hn. clear Hn. destruct (_ && _).
  - case_bool_decide; [by apply set_new_expected | by intros [= <-]].
  - intros H. inv_bind H. revert H.
    apply (for_each_invariant (λ s, new_expected s = new_expected t)); [|done].
    intros s [n st] s' _ Hs. unfold add_synthesized.
    case_bool_decide; [|by intros [= <-]].
    destruct (children n); [done|].
    intros ->%set_new_expected. done.
Qed.

Lemma drop_default_static t t' :
  drop_default t = Ok t' →
  cvalues t' = cvalues t ∧ node_children t' = node_children t ∧
  updated_expected t' = updated_expected t ∧
  new_expected t' = new_expected t ∧ default_status t' = default_status t.
Proof.
  intros [->|(l & cv & _ & _ & _ & _ & Hr)]%drop_default_cases; [done|].
  by apply remove_value_static in Hr.
Qed.

Lemma drop_empty_root_modified t : root_modified (drop_empty t) = root_modified t.
Proof.
  unfold drop_empty. by destruct (_data t !! "expected") as [[|? ?]|].
Qed.

Lemma coalesce_expected_new t t' :
  coalesce_expected t = Ok t' →
  ∃ mv, new_expected t' = new_expected t ++ mv ∧
        ∀ r, r ∈ mv →
             ∃ l rs, (l, rs) ∈ updated_expected t ∧ r ∈ rs ∧ all_agree rs = false.
Proof.
  intros (ucs & t1 & t2 & t3 & _ & H1 & H2 & _ & H3 & ->)%coalesce_expected_Ok.
  apply coalesce_loop_new in H1 as (mv & Hn1 & Hmv). exists mv. split; [|done].
  destruct (drop_empty_static t3) as (_ & -> & _).
  apply drop_default_static in H3 as (_ & _ & _ & -> & _).
  apply place_new_expected_new in H2 as ->. done.
Qed.

(** X8: what [coalesce_expected] never does. It leaves the tracked
    conditions and their matched results, the default status and the
    modified flag of the root as they are; it deletes no [ConditionalValue]
    object and changes no predicate; and it drops no unplaced result: the
    list only grows at its end, by results that were matched by a tracked
    condition whose matches disagree. *)
Theorem coalesce_keeps_bookkeeping (t t' : TestNode) :
  coalesce_expected t = Ok t' →
  updated_expected t' = updated_expected t ∧
  default_status t' = default_status t ∧
  root_modified t' = root_modified t ∧
  (∀ l cv, cvalues t !! l = Some cv →
     ∃ cv', cvalues t' !! l = Some cv' ∧ condition_node cv' = condition_node cv) ∧
  ∃ mv, new_expected t' = new_expected t ++ mv ∧
        ∀ r, r ∈ mv →
             ∃ l rs, (l, rs) ∈ updated_expected t ∧ r ∈ rs ∧ all_agree rs = false.
Proof.
  intros Hrun. pose proof (coalesce_expected_new _ _ Hrun) as Hnew.
  apply coalesce_expected_steps in Hrun as (t3 & Hs & ->).
  destruct (steps_static _ _ _ Hs) as (Hu & Hd & Hm).
  destruct (drop_empty_static t3) as (-> & _ & ->).
  rewrite drop_empty_root_modified, drop_empty_cvalues.
  split_and!; try done.
  intros l cv Hcv. by eapply steps_alive.
Qed.

Lemma coalesce_keeps_bookkeeping_witness :
  let t := node_fail_disagreeing in
  updated_expected (coalesced t) = [(0, [mkResult linux "PASS"; mkResult win "TIMEOUT"])] ∧
  default_status (coalesced t) = Some "PASS" ∧
  root_modified (coalesced t) = true ∧
  ∃ mv, new_expected (coalesced t) = [] ++ mv.
Proof.
  intros t.
  destruct (coalesce_keeps_bookkeeping t (coalesced t))
    as (Hu & Hd & Hm & _ & mv & Hn & _).
  - vm_compute. reflexivity.
  - split_and!; [exact Hu | exact Hd | exact Hm | exists mv; exact Hn].
Defined.

(** ** Tracked conditions whose matches disagree *)

Lemma coalesce_entry_disagree ucs t l rs cv :
  cvalues t !! l = Some cv → all_agree rs = false →
  coalesce_entry ucs t (l, rs) =
  if bool_decide (condition_node cv ≠ None) then
    t ← remove_value "expected" l t;
    Ok (with_new_expected (new_expected t ++ rs) t)
  else
    Ok (with_new_expected
          (new_expected t ++ filter (λ r, Some (r_status r) ≠ ucs) rs) t).
Proof.
  intros Hcv Ha. unfold coalesce_entry, deref. destruct rs as [|r0 rs]; [done|].
  rewrite Hcv. cbn [mbind res_bind]. by rewrite Ha.
Qed.

(** The pass over the tracked conditions, cut at one of them, with what it
    has done before. *)
Lemma coalesce_loop_cut ucs t t1 l rs :
  wf t → (l, rs) ∈ updated_expected t →
  for_each (coalesce_entry ucs) t (updated_expected t) = Ok t1 →
  ∃ after tb tc,
    (l ∉ after.*1) ∧
    steps (λ x, x = l) t tb ∧
    coalesce_entry ucs tb (l, rs) = Ok tc ∧
    for_each (coalesce_entry ucs) tc after = Ok t1.
Proof.
  intros Hwf Hin Hrun.
  destruct (tracked_split (updated_expected t) l rs)
    as (before & after & Hsplit & Hb & Ha); [apply Hwf | done |].
  rewrite Hsplit, for_each_app in Hrun. inv_bind Hrun. simpl in Hrun.
  inv_bind Hrun. exists after, a, a0. split_and!; try done.
  eapply steps_mono; [|by eapply coalesce_loop_steps].
  simpl. by intros x ->.
Qed.

(** X9: a tracked condition whose matched results disagree. If it has a
    predicate, its entry was stored and is removed for good, the object
    itself is left as it was, and all its matched results are queued, in
    order, in [new_expected]. If it is the unconditional entry, it keeps its
    value; of its matched results those whose status is not the
    unconditional status are queued, in order; and it stays stored unless
    its value is the default status and it is the last entry when the
    closing cleanup runs. *)
Theorem coalesce_disagreeing_entry (t t' : TestNode) (ucs : option string)
    (l : loc) (rs : list Result) (cv : ConditionalValue) :
  wf t →
  unconditional_status_of t = Ok ucs →
  coalesce_expected t = Ok t' →
  (l, rs) ∈ updated_expected t → all_agree rs = false →
  cvalues t !! l = Some cv →
  cvalues t' !! l = Some cv ∧
  (condition_node cv ≠ None →
     l ∈ entries t ∧ (l ∉ entries t') ∧
     ∃ before after, new_expected t' = before ++ rs ++ after) ∧
  (condition_node cv = None →
     (∃ before after,
        new_expected t' =
        before ++ filter (λ r, Some (r_status r) ≠ ucs) rs ++ after) ∧
     (l ∈ entries t →
      l ∈ entries t' ∨
      (Some (value cv) = default_status t ∧
       ∃ t2, rewrite_entries t = Ok t2 ∧ last (entries t2) = Some l))).
Proof.
  intros Hwf Hucs Hrun Hin Hagree Hcv.
  pose proof Hrun as (ucs' & t1 & t2 & t3 & Hucs' & H1 & H2 & Hrw & H3 & ->)
    %coalesce_expected_Ok.
  assert (ucs' = ucs) as -> by congruence.
  destruct (coalesce_loop_cut ucs t t1 l rs)
    as (after & tb & tc & Hafter & Hsb & Hentry & Hrest); [done..|].
  pose proof (steps_wf _ _ _ Hsb Hwf) as Hwfb.
  destruct (steps_static _ _ _ Hsb) as (Hub & Hdb & _).
  destruct (steps_keep _ _ _ l Hsb eq_refl) as [Hcvb Heb]; [by eexists|].
  rewrite Hcv in Hcvb.
  rewrite (coalesce_entry_disagree ucs tb l rs cv Hcvb Hagree) in Hentry.
  assert (updated_expected t ≠ []) as Hne.
  { intros Hnil. rewrite Hnil in Hin. by apply elem_of_nil in Hin. }
  pose proof (coalesce_loop_new _ _ _ _ Hrest) as (mv & Hn1 & _).
  assert (new_expected (drop_empty t3) = new_expected t1) as Hn3.
  { destruct (drop_empty_static t3) as (_ & -> & _).
    pose proof (drop_default_static _ _ H3) as (_ & _ & _ & -> & _).
    by apply place_new_expected_new in H2 as ->. }
  case_bool_decide as Hcond.
  - inv_bind Hentry. inversion Hentry; subst tc; clear Hentry.
    pose proof (remove_value_static _ _ _ Ha) as (Hca & _ & Hua & Hna & Hda).
    pose proof (remove_value_entries _ _ _ Ha) as Hea.
    pose proof (remove_value_Ok _ _ _ Ha) as [Hlb _].
    destruct (coalesce_tail_keep ucs after
                (with_new_expected (new_expected a ++ rs) a) t1 t2 t3 l cv)
      as (_ & Hcv' & _); try done.
    { simpl. by rewrite Hua, Hub. }
    { simpl. by rewrite Hca. }
    split; [done|]. split; [|done]. intros _. split_and!.
    + destruct (decide (l ∈ entries t)) as [|Hno]; [done|]. exfalso.
      by eapply (steps_gone _ _ _ l Hsb).
    + rewrite drop_empty_entries.
      assert (steps (λ _, False) (with_new_expected (new_expected a ++ rs) a) t3)
        as Hs.
      { etrans; [eapply steps_mono; [|by eapply coalesce_loop_steps]; done|].
        etrans; [by eapply place_new_expected_steps|].
        eapply steps_mono; [|by eapply drop_default_steps]. done. }
      apply (steps_gone _ _ _ l Hs).
      * simpl. rewrite Hca. by eexists.
      * change (entries (with_new_expected (new_expected a ++ rs) a))
          with (entries a). rewrite Hea.
        apply remove_first_gone, Hwfb.
    + rewrite Hn3, Hn1. simpl. rewrite Hna.
      exists (new_expected tb), mv. by rewrite <-(assoc_L (++)).
  - inversion Hentry; subst tc; clear Hentry.
    destruct (coalesce_tail_keep ucs after
                (with_new_expected
                   (new_expected tb ++ filter (λ r, Some (r_status r) ≠ ucs) rs) tb)
                t1 t2 t3 l cv)
      as (_ & Hcv' & Hkept); try done.
    { simpl. by rewrite Hub. }
    split; [done|]. split; [done|]. intros _. split.
    + rewrite Hn3, Hn1. simpl.
      exists (new_expected tb), mv. by rewrite <-(assoc_L (++)).
    + intros He. destruct Hkept as [?|(_ & Hv & Hlast)]; [by apply Heb | by left|].
      right. simpl in Hv. split; [congruence|]. by exists t2.
Qed.

Lemma coalesce_disagreeing_entry_witness :
  let t := node_debug_disagreeing in
  cvalues (coalesced t) !! 0 = Some (mkCV (Some (VariableNode "debug")) "FAIL") ∧
  0 ∈ entries t ∧ (0 ∉ entries (coalesced t)) ∧
  ∃ before after,
    new_expected (coalesced t) =
    before ++ [mkResult linux "PASS"; mkResult win "TIMEOUT"] ++ after.
Proof.
  intros t.
  destruct (coalesce_disagreeing_entry t (coalesced t) (Some "PASS") 0
              [mkResult linux "PASS"; mkResult win "TIMEOUT"]
              (mkCV (Some (VariableNode "debug")) "FAIL"))
    as (Hcv & Hcond & _).
  - by_compute.
  - reflexivity.
  - vm_compute. reflexivity.
  - left.
  - reflexivity.
  - reflexivity.
  - split; [exact Hcv|]. apply Hcond. discriminate.
Defined.

(** ** Soundness of the nodes that can arise *)

Lemma init_TestNode_wf : wf (init_TestNode []).
Proof.
  split; unfold entries; simpl; rewrite ?lookup_empty; simpl.
  - constructor.
  - by intros ? ?%elem_of_nil.
  - constructor.
  - apply not_elem_of_nil.
  - intros _. apply not_elem_of_nil.
Qed.

Lemma drop_empty_wf t : wf t → wf (drop_empty t).
Proof.
  intros [Hnd Halive Htr Hkv Hkv0].
  split; rewrite ?drop_empty_entries, ?drop_empty_cvalues, ?drop_empty_data;
    try done.
  - by destruct (drop_empty_static t) as (-> & _).
  - unfold drop_empty. destruct (_data t !! "expected") as [[|? ?]|]; simpl;
      try done.
    by rewrite remove_first_not_elem.
  - intros Hd. unfold drop_empty. rewrite Hd. by apply Hkv0.
Qed.

Lemma coalesce_expected_wf t t' : coalesce_expected t = Ok t' → wf t → wf t'.
Proof.
  intros (t3 & Hs & ->)%coalesce_expected_steps Hwf.
  apply drop_empty_wf. by eapply steps_wf.
Qed.

Lemma set_result_tracked_alive ev ri result t t' :
  set_result ev ri result t = Ok t' → tracked_alive t → tracked_alive t'.
Proof.
  intros Hrun Halive e He.
  destruct (set_result_frame ev ri result t t' Hrun) as (Hc & _ & _ & Hu).
  rewrite Hc.
  assert (e.1 ∈ (updated_expected t).*1) as (e0 & -> & He0)%list_elem_of_fmap.
  { rewrite <-Hu. apply list_elem_of_fmap. by exists e. }
  by apply Halive.
Qed.

Lemma set_result_tracked_stored ev ri result t t' :
  set_result ev ri result t = Ok t' → tracked_stored t → tracked_stored t'.
Proof.
  intros Hrun Hst e He.
  destruct (set_result_frame ev ri result t t' Hrun) as (_ & Hd & _ & Hu).
  unfold entries. rewrite Hd.
  assert (e.1 ∈ (updated_expected t).*1) as (e0 & -> & He0)%list_elem_of_fmap.
  { rewrite <-Hu. apply list_elem_of_fmap. by exists e. }
  by apply Hst.
Qed.

Lemma from_file_tracked_stored cvs : tracked_stored (from_file cvs).
Proof.
  unfold from_file, _add_key_value, tracked_stored, entries.
  rewrite bool_decide_eq_true_2 by done. simpl. rewrite lookup_insert_eq. simpl.
  by intros e (l & -> & Hl)%list_elem_of_fmap.
Qed.

(** ** How the first coalesce_expected can fail *)

Lemma remove_value_total l t :
  l ∈ entries t → ∃ t', remove_value "expected" l t = Ok t'.
Proof.
  unfold remove_value, entries.
  destruct (_data t !! "expected") as [ls|]; simpl.
  - intros Hl. rewrite bool_decide_eq_true_2 by done. by eexists.
  - by intros ?%elem_of_nil.
Qed.

Lemma coalesce_entry_total ucs t l rs :
  is_Some (cvalues t !! l) → l ∈ entries t →
  ∃ t', coalesce_entry ucs t (l, rs) = Ok t'.
Proof.
  intros [cv Hcv] Hl. unfold coalesce_entry, deref.
  destruct rs as [|r0 rs]; [by eexists|]. rewrite Hcv. cbn [mbind res_bind].
  destruct (remove_value_total l t Hl) as [t' Hr].
  destruct (all_agree (r0 :: rs)).
  - destruct (_ && _); by eexists.
  - case_bool_decide; [|by eexists]. rewrite Hr. by eexists.
Qed.

Lemma coalesce_loop_total ucs es t :
  wf t → NoDup es.*1 → (∀ e, e ∈ es → e.1 ∈ entries t) →
  ∃ t', for_each (coalesce_entry ucs) t es = Ok t'.
Proof.
  revert t. induction es as [|[l rs] es IH]; intros t Hwf Hnd Hst;
    cbn [for_each].
  { by eexists. }
  rewrite fmap_cons in Hnd. apply NoDup_cons in Hnd as [Hl Hnd].
  destruct (coalesce_entry_total ucs t l rs) as [t1 H1].
  { apply Hwf. apply (Hst (l, rs)). by left. }
  { apply (Hst (l, rs)). by left. }
  rewrite H1. cbn [mbind res_bind].
  apply coalesce_entry_steps in H1. apply IH; [by eapply steps_wf | done |].
  intros e He.
  assert (e.1 ∈ entries t) as Hin by (apply Hst; by right).
  destruct (steps_keep _ _ _ e.1 H1) as [_ Hkeep]; [| by apply Hwf | by apply Hkeep].
  simpl. intros Heq. apply Hl. simpl. rewrite <-Heq.
  apply list_elem_of_fmap. by exists e.
Qed.

Lemma set_total v c t :
  (∀ l, l ∈ entries t → is_Some (cvalues t !! l)) →
  ∃ t', set "expected" v c t = Ok t'.
Proof.
  intros Halive. unfold set. destruct c as [c|]; [by eexists|].
  fold (entries t).
  destruct (find_unconditional_total t (entries t) Halive) as [o Ho].
  rewrite Ho. cbn [mbind res_bind]. destruct o as [l|]; [|by eexists].
  apply find_unconditional_Some in Ho as (_ & cv & Hcv & _).
  unfold deref. rewrite Hcv. by eexists.
Qed.

Lemma group_conditionals_made values conds :
  group_conditionals values = Ok conds →
  ∀ c st, (c, st) ∈ conds → ∃ ps, make_expr ps st = Ok c.
Proof.
  unfold group_conditionals. intros Hrun. inv_bind Hrun.
  inversion Hrun; subst conds; clear Hrun.
  assert (conditions_of (include_props values) [] []) as Hinit.
  { split_and!; [done | |].
    - intros ? ? ? Hin. by apply elem_of_nil in Hin.
    - intros i r ps Hi. by rewrite lookup_nil in Hi. }
  destruct (add_conditions_conditions_of _ _ _ _ _ Hinit Ha) as (_ & Hfrom & _).
  intros c st ([ps [c' st']] & [= <- <-] & Hin)%list_elem_of_fmap.
  destruct (Hfrom _ _ _ Hin) as (j & r & _ & _ & _ & He & _). by exists ps.
Qed.

Lemma group_conditionals_raises values e :
  group_conditionals values = Raise e → e = KeyError ∨ e = AssertionError.
Proof.
  unfold group_conditionals.
  destruct (include_props values) as [|p props] eqn:Hinc.
  - destruct values as [|r values]; simpl; [done|]. intros [= <-]. by right.
  - pose proof (add_conditions_outcome (p :: props) [] values) as Hout.
    destruct (for_each _ _ _) as [cs|e']; cbn [mbind res_bind]; [done|].
    intros [= <-]. left. by apply Hout.
Qed.

Lemma synthesized_loop_total ucs conds t :
  (∀ c st, (c, st) ∈ conds → ∃ ps, make_expr ps st = Ok c) →
  ∃ t', for_each (add_synthesized ucs) t conds = Ok t'.
Proof.
  revert t. induction conds as [|[c st] conds IH]; intros t Hmade; simpl.
  { by eexists. }
  destruct (Hmade c st) as [ps (e & -> & _)%make_expr_Ok]; [by left|].
  case_bool_decide; simpl; cbn [mbind res_bind];
    apply IH; intros ? ? ?; apply Hmade; by right.
Qed.

Lemma place_new_expected_outcome ucs t :
  (∀ l, l ∈ entries t → is_Some (cvalues t !! l)) →
  match place_new_expected ucs t with
  | Ok _ => ∀ e, ¬ (synthesizes t ∧ group_conditionals (new_expected t) = Raise e)
  | Raise e => synthesizes t ∧ group_conditionals (new_expected t) = Raise e
  end.
Proof.
  intros Halive. unfold place_new_expected, synthesizes.
  destruct (new_expected t) as [|r0 rs] eqn:Hn.
  { intros e [_ Hg]. vm_compute in Hg. done. }
  rewrite <-Hn.
  destruct (all_agree (new_expected t)) eqn:Hagree;
    [destruct (updated_expected t) as [|e0 ue] eqn:Hue|]; cbn [andb].
  - destruct (set_total (r_status r0) None t Halive) as [t' Hset].
    case_bool_decide; [rewrite Hset|]; intros e [Hs _]; by apply Hs.
  - destruct (group_conditionals (new_expected t)) as [conds|e] eqn:Hg;
      cbn [mbind res_bind].
    + destruct (synthesized_loop_total ucs conds t) as [t' ->];
        [by eapply group_conditionals_made|].
      by intros e [_ ?].
    + split; [by intros [_ ?] | done].
  - destruct (group_conditionals (new_expected t)) as [conds|e] eqn:Hg;
      cbn [mbind res_bind].
    + destruct (synthesized_loop_total ucs conds t) as [t' ->];
        [by eapply group_conditionals_made|].
      by intros e [_ ?].
    + split; [by intros [? _] | done].
Qed.

Lemma drop_default_total t : wf t → ∃ t', drop_default t = Ok t'.
Proof.
  intros Hwf. destruct (entries t) as [|l ls] eqn:He using rev_ind.
  { rewrite (drop_default_nil t He). by eexists. }
  clear IHls. destruct (wf_entries_alive _ Hwf l) as [cv Hcv].
  { rewrite He. apply elem_of_app. right. by left. }
  rewrite (drop_default_snoc _ ls l cv) by done.
  destruct (_ && _); [|by eexists]. apply remove_value_total.
  rewrite He. apply elem_of_app. right. by left.
Qed.

(** X11: how the first [coalesce_expected] can fail. On a sound node whose
    tracked conditions are all stored entries, as after compiling and
    recording, the pass over the tracked conditions always completes, and the
    call raises exactly when the unplaced results it has then go through
    [group_conditionals] and that raises; the exception is its KeyError or
    the AssertionError of [make_expr]. *)
Theorem coalesce_failures (t : TestNode) :
  wf t → tracked_stored t →
  ∃ ucs t1,
    unconditional_status_of t = Ok ucs ∧
    for_each (coalesce_entry ucs) t (updated_expected t) = Ok t1 ∧
    ∀ e, coalesce_expected t = Raise e ↔
         synthesizes t1 ∧ group_conditionals (new_expected t1) = Raise e ∧
         (e = KeyError ∨ e = AssertionError).
Proof.
  intros Hwf Hst.
  destruct (unconditional_status_total t) as [ucs Hucs]; [apply Hwf|].
  destruct (coalesce_loop_total ucs (updated_expected t) t) as [t1 H1];
    [done | apply Hwf | done |].
  exists ucs, t1. split; [done|]. split; [done|].
  assert (wf t1) as Hwf1.
  { eapply steps_wf; [by eapply coalesce_loop_steps | done]. }
  unfold coalesce_expected, rewrite_entries. rewrite Hucs. cbn [mbind res_bind].
  rewrite H1. cbn [mbind res_bind].
  pose proof (place_new_expected_outcome ucs t1 (wf_entries_alive _ Hwf1)) as Hout.
  destruct (place_new_expected ucs t1) as [t2|e2] eqn:H2; cbn [mbind res_bind].
  - destruct (drop_default_total t2) as [t3 ->].
    { eapply steps_wf; [by eapply place_new_expected_steps | done]. }
    cbn [mbind res_bind]. intros e. split; [done|].
    intros (Hs & Hg & _). by destruct (Hout e).
  - destruct Hout as [Hs Hg]. intros e. split.
    + intros [= <-]. split_and!; [done..|]. by apply group_conditionals_raises in Hg.
    + intros (_ & Hg' & _). congruence.
Qed.

Lemma coalesce_failures_witness :
  coalesce_expected node_new_flaky = Raise AssertionError.
Proof.
  destruct (coalesce_failures node_new_flaky) as (ucs & t1 & Hucs & H1 & Hiff).
  - by_compute.
  - intros e He. apply elem_of_nil in He. destruct He.
  - apply Hiff. inversion H1; subst t1. split_and!.
    + intros [[=] _].
    + vm_compute. reflexivity.
    + right. reflexivity.
Defined.

(** ** What the synthesized conditions write *)

Lemma synthesized_loop_entries ucs conds t t' :
  for_each (add_synthesized ucs) t conds = Ok t' →
  ∃ added,
    entries t' = entries t ++ added ∧
    Forall2 (written_for t') added (filter (λ c, Some c.2 ≠ ucs) conds) ∧
    (∀ l, l ∈ added → cvalues t !! l = None) ∧
    (∀ l cv, cvalues t !! l = Some cv → cvalues t' !! l = Some cv).
Proof.
  revert t. induction conds as [|[c st] conds IH]; intros t Hrun;
    cbn [for_each] in Hrun.
  { inversion Hrun; subst. exists []. rewrite (right_id_L [] (++)).
    split_and!; [done | constructor | by intros ? ?%elem_of_nil | done]. }
  inv_bind Hrun. destruct (IH _ Hrun) as (added & He & Hw & Hfresh & Hmono).
  unfold add_synthesized in Ha. rewrite filter_cons. simpl.
  case_bool_decide as Hst.
  - destruct (children c) as [|cond rest] eqn:Hch; [done|]. simpl in Ha.
    inversion Ha; subst a; clear Ha.
    rewrite append_entry_entries in He. rewrite append_entry_cvalues in Hfresh, Hmono.
    set (l0 := fresh (dom (cvalues t))) in *.
    assert (cvalues t !! l0 = None) as Hl0.
    { apply not_elem_of_dom. apply is_fresh. }
    rewrite decide_True by done.
    exists (l0 :: added). split_and!.
    + by rewrite He, <-(assoc_L (++)).
    + constructor; [|done]. exists cond. simpl. rewrite Hch. split; [done|].
      apply Hmono. by rewrite lookup_insert_eq.
    + intros l [->|Hl]%elem_of_cons; [done|].
      specialize (Hfresh l Hl). by apply lookup_insert_None in Hfresh as [? _].
    + intros l cv Hcv. apply Hmono. rewrite lookup_insert_ne; [done|].
      intros <-. congruence.
  - inversion Ha; subst a; clear Ha.
    destruct (decide (Some st ≠ ucs)) as [Hne|_]; [by destruct Hne|].
    by exists added.
Qed.

(** X12: what the synthesizer writes. When the unplaced results that
    [coalesce_expected] has after its pass over the tracked conditions go
    through [group_conditionals], the node gets one new entry for each
    returned condition whose status is not the unconditional status, and
    none for the others. The new entries are new objects, appended after the
    entries that were there, in the order of the returned conditions; each
    has the predicate of its condition (the first child of the
    ConditionalNode) and its status; and the closing cleanup leaves them
    all, removing at most the last older entry when nothing was appended. *)
Theorem coalesce_synthesized_entries (t t1 t' : TestNode) (ucs : option string) :
  wf t →
  unconditional_status_of t = Ok ucs →
  for_each (coalesce_entry ucs) t (updated_expected t) = Ok t1 →
  synthesizes t1 →
  coalesce_expected t = Ok t' →
  ∃ conds added kept,
    group_conditionals (new_expected t1) = Ok conds ∧
    entries t' = kept ++ added ∧
    (kept = entries t1 ∨ (added = [] ∧ ∃ l, entries t1 = kept ++ [l])) ∧
    Forall2 (written_for t') added (filter (λ c, Some c.2 ≠ ucs) conds) ∧
    (∀ l, l ∈ added → cvalues t !! l = None).
Proof.
  intros Hwf Hucs H1 Hsyn Hrun.
  pose proof Hrun as (ucs' & t1' & t2 & t3 & Hucs' & H1' & H2 & Hrw & H3 & ->)
    %coalesce_expected_Ok.
  assert (ucs' = ucs) as -> by congruence.
  assert (t1' = t1) as -> by congruence.
  pose proof (coalesce_loop_steps _ _ _ _ H1) as Hs1.
  assert (wf t2) as Hwf2.
  { eapply steps_wf; [by eapply place_new_expected_steps|].
    by eapply steps_wf. }
  assert (∃ conds added,
            group_conditionals (new_expected t1) = Ok conds ∧
            entries t2 = entries t1 ++ added ∧
            Forall2 (written_for t2) added (filter (λ c, Some c.2 ≠ ucs) conds) ∧
            (∀ l, l ∈ added → cvalues t1 !! l = None))
    as (conds & added & Hg & He2 & Hw & Hfresh).
  { unfold place_new_expected in H2.
    destruct (new_expected t1) as [|r0 rs] eqn:Hn.
    { inversion H2; subst t2. exists [], []. rewrite (right_id_L [] (++)).
      split_and!; [done | done | constructor | by intros ? ?%elem_of_nil]. }
    rewrite <-Hn in *.
    destruct (all_agree (new_expected t1) &&
              match updated_expected t1 with [] => true | _ :: _ => false end)
      eqn:Hbr.
    { destruct Hsyn. apply andb_true_iff in Hbr as [? Hu].
      split; [done|]. by destruct (updated_expected t1). }
    inv_bind H2. exists a.
    destruct (synthesized_loop_entries _ _ _ _ H2) as (added & ? & ? & ? & _).
    by exists added. }
  exists conds, added.
  assert (cvalues (drop_empty t3) = cvalues t2) as Hc3.
  { rewrite drop_empty_cvalues. by apply drop_default_static in H3 as (-> & _). }
  assert (Forall2 (written_for (drop_empty t3)) added
            (filter (λ c, Some c.2 ≠ ucs) conds)) as Hw3.
  { eapply Forall2_impl; [exact Hw|]. intros l c (cond & ? & ?).
    exists cond. by rewrite Hc3. }
  assert (∀ l, l ∈ added → cvalues t !! l = None) as Hfresh0.
  { intros l Hl. specialize (Hfresh l Hl).
    destruct (cvalues t !! l) as [cv|] eqn:Hcv; [|done].
    destruct (steps_alive _ _ _ _ _ Hs1 Hcv) as (cv' & ? & _). congruence. }
  rewrite drop_empty_entries.
  destruct added as [|la added0 _] using rev_ind.
  - rewrite (right_id_L [] (++)) in He2.
    apply drop_default_cases in H3 as [->|(l & cv & Hlast & _ & _ & _ & Hr)].
    + exists (entries t1). rewrite (right_id_L [] (++)).
      split_and!; [done | done | by left | done | done].
    + apply last_Some in Hlast as [ls Hls].
      exists ls. rewrite (right_id_L [] (++)).
      rewrite (remove_value_entries _ _ _ Hr), Hls.
      split_and!; [done | | right; split; [done|]; exists l; congruence
                  | done | done].
      apply remove_first_snoc. rewrite <-Hls. apply Hwf2.
  - exists (entries t1). split_and!; [done | | by left | done | done].
    apply Forall2_app_inv_l in Hw as (cs1 & cs2 & _ & Hla & _).
    apply Forall2_cons_inv_l in Hla as (c & ? & (cond & _ & Hcv) & _ & _).
    rewrite (assoc_L (++)) in He2.
    rewrite (drop_default_snoc t2 _ la _ He2 Hcv) in H3. simpl in H3.
    inversion H3; subst t3. by rewrite He2, (assoc_L (++)).
Qed.

Lemma coalesce_synthesized_entries_witness :
  let t := node_debug_disagreeing in
  ∃ conds added kept,
    group_conditionals [mkResult linux "PASS"; mkResult win "TIMEOUT"] = Ok conds ∧
    entries (coalesced t) = kept ++ added ∧
    Forall2 (written_for (coalesced t)) added
      (filter (λ c, Some c.2 ≠ Some "PASS") conds).
Proof.
  intros t.
  destruct (coalesce_synthesized_entries t
              (with_new_expected [mkResult linux "PASS"; mkResult win "TIMEOUT"]
                 (with_data (<["expected" := []]> (_data t)) t))
              (coalesced t) (Some "PASS"))
    as (conds & added & kept & Hg & He & _ & Hw & _).
  - by_compute.
  - reflexivity.
  - vm_compute. reflexivity.
  - intros [[=] _].
  - vm_compute. reflexivity.
  - exists conds, added, kept. split; [exact Hg|]. split; [exact He | exact Hw].
Defined.

(** ** Splitting and joining *)

Lemma str_split_nonempty sep s : str_split sep s ≠ [].
Proof.
  destruct s as [|c s]; simpl; [done|].
  case_bool_decide; [done|]. by destruct (str_split sep s).
Qed.

Lemma str_join_cons sep w l :
  l ≠ [] → str_join sep (w :: l) = w +:+ sep +:+ str_join sep l.
Proof. by destruct l. Qed.

(** Joining the pieces of a string gives the string back. *)
Lemma str_join_split sep s :
  str_join (String sep EmptyString) (str_split sep s) = s.
Proof.
  induction s as [|c s IH]; simpl; [done|].
  pose proof (str_split_nonempty sep s) as Hne.
  case_bool_decide as Hc.
  - subst c. destruct (str_split sep s) as [|w ws]; [done|].
    simpl in *. by rewrite IH.
  - destruct (str_split sep s) as [|w ws]; [done|].
    destruct ws as [|w' ws]; simpl in *; by rewrite <-IH.
Qed.

Lemma str_split_no_sep sep w : sep ∉ chars w → str_split sep w = [w].
Proof.
  induction w as [|c w IH]; simpl; [done|].
  intros Hno. rewrite not_elem_of_cons in Hno. destruct Hno as [Hc Hw].
  rewrite bool_decide_eq_false_2 by done. by rewrite IH.
Qed.

Lemma str_split_app sep w rest :
  sep ∉ chars w →
  str_split sep (w +:+ String sep rest) = w :: str_split sep rest.
Proof.
  induction w as [|c w IH]; simpl.
  - intros _. by rewrite bool_decide_eq_true_2.
  - intros Hno. rewrite not_elem_of_cons in Hno. destruct Hno as [Hc Hw].
    rewrite bool_decide_eq_false_2 by done. by rewrite IH.
Qed.

Lemma str_split_join sep l :
  l ≠ [] → Forall (λ w, sep ∉ chars w) l →
  str_split sep (str_join (String sep EmptyString) l) = l.
Proof.
  induction l as [|w l IH]; [done|]. intros _ Hall.
  apply Forall_cons in Hall as [Hw Hl].
  destruct l as [|w' l]; [by apply str_split_no_sep|].
  rewrite str_join_cons by done.
  change (String sep EmptyString +:+ ?s) with (String sep s).
  rewrite str_split_app by done. f_equal. by apply IH.
Qed.

(** ** Creating a node and reading its id *)

Lemma last_item_snoc {A} (l : list A) x : last_item (l ++ [x]) = Ok x.
Proof. unfold last_item. by rewrite last_snoc. Qed.

Lemma url_name (dir : list string) (name : string) :
  Forall (λ w, "/"%char ∉ chars w) dir → "/"%char ∉ chars name →
  last_item (str_split "/" ("/" +:+ str_join "/" (dir ++ [name]))) = Ok name.
Proof.
  intros Hdir Hname.
  change ("/" +:+ ?s) with (String "/"%char s). simpl.
  rewrite str_split_join.
  - by rewrite app_comm_cons, last_item_snoc.
  - by destruct dir.
  - apply Forall_app. split; [done|]. by constructor.
Qed.

(** X13: the id of a created node is the id it was created from. For a
    test type and an id that fit, and a url made of the directory of the
    manifest's test path and a last component [name], joined by slashes
    after a leading one, [TestNode.create] returns a node named [name] that
    is not from a file, and in a manifest with that test path [TestNode.id]
    gives back the same id: the url, or for a reftest the same
    [(url, reftype, refurl)]. *)
Theorem create_id_round_trip (sep : ascii) (test_path name : string)
    (type : string) (id : test_id) :
  id_fits type id →
  let dir := removelast (str_split sep test_path) in
  Forall (λ w, "/"%char ∉ chars w) dir → "/"%char ∉ chars name →
  id_url id = "/" +:+ str_join "/" (dir ++ [name]) →
  ∃ t, create type id = inl t ∧
       t_name t = name ∧ t_from_file t = false ∧
       test_type t = Ok type ∧
       node_id sep test_path t = Ok id.
Proof.
  intros Hfits dir Hdir Hname Hurl. unfold create, node_id, test_type.
  destruct id as [url|url reftype refurl]; simpl in Hfits, Hurl; subst url.
  - rewrite bool_decide_eq_false_2 by done.
    rewrite url_name by done. cbn [mbind res_bind lift_res].
    eexists. split; [reflexivity|]. cbn [t_name t_from_file t_item].
    split_and!; [done | done | reflexivity |].
    fold dir.
    replace (get "type" _) with (Ok type) by reflexivity.
    cbn [mbind res_bind]. by rewrite bool_decide_eq_false_2 by done.
  - subst type. rewrite bool_decide_eq_true_2 by done.
    cbn [test_id_item lookup list_lookup mbind res_bind].
    rewrite url_name by done. cbn [mbind res_bind lift_res].
    eexists. split; [reflexivity|]. cbn [t_name t_from_file t_item].
    split_and!; [done | done | reflexivity |].
    fold dir.
    replace (get "type" _) with (Ok "reftest" : res string) by reflexivity.
    cbn [mbind res_bind]. rewrite bool_decide_eq_true_2 by done.
    replace (get "reftype" _) with (Ok reftype) by reflexivity.
    replace (get "refurl" _) with (Ok refurl) by reflexivity.
    done.
Qed.

Lemma create_id_round_trip_witness :
  ∃ t, create "reftest" (RefTest "/css/box/a.html?x=1" "==" "/css/box/a-ref.html")
         = inl t ∧
       t_name t = "a.html?x=1" ∧
       node_id "\" "css\box\a.html" t
         = Ok (RefTest "/css/box/a.html?x=1" "==" "/css/box/a-ref.html").
Proof.
  destruct (create_id_round_trip "\" "css\box\a.html" "a.html?x=1" "reftest"
              (RefTest "/css/box/a.html?x=1" "==" "/css/box/a-ref.html"))
    as (t & Hc & Hn & _ & _ & Hid).
  - reflexivity.
  - by_compute.
  - by_compute.
  - reflexivity.
  - exists t. split; [exact Hc|]. split; [exact Hn | exact Hid].
Defined.

(** ** Subtests *)

(** X14: [get_subtest] is idempotent by name. On a node whose [subtests]
    map names to children with those names, the call returns a child with
    the name asked for; asking again returns the same child and changes
    nothing. A name that is known leaves the node as it is. A name that is
    not appends one new child, which is empty and, unlike a node made by
    [TestNode.create], still has [_from_file] set; the children that were
    there and the other names of [subtests] are untouched. *)
Theorem get_subtest_idempotent (name : string) (t t1 : TestTree) (i : nat) :
  subtests_linked t →
  get_subtest name t = (t1, i) →
  get_subtest name t1 = (t1, i) ∧
  subtests_linked t1 ∧
  (∃ c, t_children t1 !! i = Some c ∧ t_name c = name) ∧
  (is_Some (t_subtests t !! name) → t1 = t) ∧
  (t_subtests t !! name = None →
     t_children t1 = t_children t ++ [new_tree name] ∧
     i = length (t_children t) ∧
     subtest_is_empty (new_tree name) = true ∧
     t_from_file (new_tree name) = true ∧
     cvalues (t_item t1) = cvalues (t_item t) ∧
     _data (t_item t1) = _data (t_item t)) ∧
  (∀ n, n ≠ name → t_subtests t1 !! n = t_subtests t !! n).
Proof.
  intros Hlinked. unfold get_subtest.
  destruct (t_subtests t !! name) as [j|] eqn:Hsub.
  - intros [= <- <-]. rewrite Hsub.
    split_and!; first [done | by apply Hlinked | by intros [? [=]]].
  - intros [= <- <-]. cbn [append t_subtests t_children t_name new_tree].
    rewrite lookup_insert_eq. split_and!; try done.
    + intros n k. cbn [append t_subtests t_children t_name new_tree].
      destruct (decide (n = name)) as [->|Hne].
      * rewrite lookup_insert_eq. intros [= <-].
        exists (new_tree name). split; [|done].
        by rewrite lookup_app_r, Nat.sub_diag.
      * rewrite lookup_insert_ne by done. intros Hk.
        destruct (Hlinked n k Hk) as (c & Hc & Hn). exists c. split; [|done].
        by apply lookup_app_l_Some.
    + exists (new_tree name). split; [|done].
      by rewrite lookup_app_r, Nat.sub_diag.
    + intros n Hne. by rewrite lookup_insert_ne.
Qed.

Lemma get_subtest_idempotent_witness :
  let t := append (new_tree "first") (new_tree "a.html") in
  ∃ t1 i, get_subtest "second" t = (t1, i) ∧
          get_subtest "second" t1 = (t1, i) ∧
          t_children t1 = t_children t ++ [new_tree "second"].
Proof.
  intros t. exists (append (new_tree "second") t), 1.
  destruct (get_subtest_idempotent "second" t (append (new_tree "second") t) 1)
    as (Hagain & _ & _ & _ & Hnew & _).
  - intros n k Hk.
    destruct (decide (n = "first")) as [->|Hne].
    + exists (new_tree "first"). by inversion Hk.
    + unfold t, append in Hk. simpl in Hk.
      rewrite lookup_insert_ne, lookup_empty in Hk by done. done.
  - reflexivity.
  - split; [reflexivity|]. split; [exact Hagain|]. by apply Hnew.
Defined.

(** ** clear_expected *)

Lemma clear_expected_children t i :
  t_children (clear_expected t) !! i =
  (if bool_decide (i ∈ (map_img (t_subtests t) : gset nat))
   then clear_expected else λ c, c) <$> t_children t !! i.
Proof.
  destruct t as [name ff item cs subs]. cbn [clear_expected t_children t_subtests].
  assert (∀ k,
    (fix go (i0 : nat) (cs0 : list TestTree) {struct cs0} : list TestTree :=
       match cs0 with
       | [] => []
       | c :: cs' =>
           (if bool_decide (i0 ∈ (map_img subs : gset nat))
            then clear_expected c else c) :: go (S i0) cs'
       end) k cs !! i =
    (if bool_decide (k + i ∈ (map_img subs : gset nat))
     then clear_expected else λ c, c) <$> cs !! i) as Hgo; [|apply (Hgo 0)].
  revert i. induction cs as [|c cs IH]; intros i k; [done|].
  destruct i as [|i]; simpl.
  - rewrite Nat.add_0_r. by case_bool_decide.
  - rewrite IH. by rewrite Nat.add_succ_r.
Qed.

Lemma clear_expected_fields t :
  t_name (clear_expected t) = t_name t ∧
  t_from_file (clear_expected t) = t_from_file t ∧
  t_item (clear_expected t) = clear_expected_item (t_item t) ∧
  t_subtests (clear_expected t) = t_subtests t.
Proof. by destruct t. Qed.

Lemma clear_expected_item_tracked n : updated_expected (clear_expected_item n) = [].
Proof.
  unfold clear_expected_item. simpl.
  destruct (_data n !! "expected"); [|done]. by case_bool_decide.
Qed.

(** X15: [clear_expected] reaches exactly the subtests that [subtests]
    knows. Following any path of subtest names after the call leads to the
    cleared version of the node that the same path led to before, so every
    node on such a path has no tracked condition left; a child that no name
    of [subtests] maps to is left as it was. *)
Theorem clear_expected_descend (path : list string) (t : TestTree) :
  descend path (clear_expected t) = clear_expected <$> descend path t ∧
  (∀ d, descend path (clear_expected t) = Some d →
        updated_expected (t_item d) = []) ∧
  (∀ i, i ∉ (map_img (t_subtests t) : gset nat) →
        t_children (clear_expected t) !! i = t_children t !! i).
Proof.
  assert (∀ t, descend path (clear_expected t) = clear_expected <$> descend path t)
    as Hcomm.
  { clear t. induction path as [|name path IH]; intros t; [done|].
    cbn [descend]. destruct (clear_expected_fields t) as (_ & _ & _ & ->).
    destruct (t_subtests t !! name) as [i|] eqn:Hi; [|done]. cbn [mbind option_bind].
    rewrite clear_expected_children.
    rewrite bool_decide_eq_true_2 by (by eapply elem_of_map_img_2).
    destruct (t_children t !! i) as [c|]; [|done]. simpl. apply IH. }
  split_and!; [done | |].
  - intros d. rewrite Hcomm. intros (d0 & _ & ->)%fmap_Some.
    destruct (clear_expected_fields d0) as (_ & _ & -> & _).
    apply clear_expected_item_tracked.
  - intros i Hi. rewrite clear_expected_children.
    rewrite bool_decide_eq_false_2 by done. by destruct (t_children t !! i).
Qed.

(** ** Starting over: clear_expected, then recording and coalescing *)


Lemma clear_expected_item_wf n : wf n → wf (clear_expected_item n).
Proof.
  intros [Hnd Halive Htr Hkv Hkv0]. unfold clear_expected_item. simpl.
  destruct (_data n !! "expected") as [ls|] eqn:Hd.
  - case_bool_decide as Hin.
    + split; unfold entries; simpl; rewrite ?lookup_delete_eq; simpl.
      * constructor.
      * by intros ? ?%elem_of_nil.
      * constructor.
      * by rewrite remove_first_not_elem.
      * done.
    + split; unfold entries in *; simpl; try done. constructor.
  - split; unfold entries in *; simpl; try done;
      [constructor | intros _; by apply Hkv0].
Qed.

Section starting_over.

Variable eval_condition : Node → run_info → bool.

Lemma record_all_untracked rs t t' :
  updated_expected t = [] →
  record_all eval_condition rs t = Ok t' →
  updated_expected t' = [] ∧
  new_expected t' = new_expected t ++ (recorded <$> rs).
Proof.
  unfold record_all. revert t.
  induction rs as [|[ri result] rs IH]; intros t Hu Hrun; simpl in Hrun.
  - inversion Hrun; subst. by rewrite fmap_nil, (right_id_L [] (++)).
  - inv_bind Hrun. simpl in Ha.
    apply set_result_cases in Ha
      as [(before & ? & ? & ? & ? & Hsplit & _)|(_ & Hu' & Hn' & _)].
    { rewrite Hu in Hsplit. by destruct before. }
    destruct (IH a) as [Hu2 Hn2]; [congruence | done |].
    split; [done|]. rewrite Hn2, Hn'. csimpl. by rewrite <-(assoc_L (++)).
Qed.


End starting_over.


(** ** A test that is not in the manifest yet *)

Lemma coalesce_new_test t r0 rest :
  updated_expected t = [] → _data t !! "expected" = None →
  new_expected t = r0 :: rest → all_agree (r0 :: rest) = true →
  coalesce_expected t =
  Ok (if bool_decide (Some (r_status r0) ≠ default_status t)
      then append_entry "expected" (mkCV None (r_status r0)) t else t).
Proof.
  intros Hue Hd Hnew Hagree.
  assert (entries t = []) as Hent by (unfold entries; by rewrite Hd).
  unfold coalesce_expected, rewrite_entries.
  rewrite (unconditional_status_no_entry _ Hent), Hue.
  cbn [mbind res_bind for_each]. unfold place_new_expected.
  rewrite Hnew, Hue, Hagree. cbn [andb].
  case_bool_decide as Hs.
  - unfold set. rewrite Hd. cbn [default find_unconditional mbind res_bind].
    set (t2 := append_entry "expected" (mkCV None (r_status r0)) t).
    set (l := fresh (dom (cvalues t))).
    assert (entries t2 = [l]) as He2.
    { subst t2 l. rewrite append_entry_entries. by rewrite Hent. }
    assert (cvalues t2 !! l = Some (mkCV None (r_status r0))) as Hc2.
    { subst t2 l. by rewrite append_entry_cvalues, lookup_insert_eq. }
    assert (default_status t2 = default_status t) as Hd2.
    { subst t2. unfold append_entry. simpl. by rewrite Hd. }
    rewrite (drop_default_snoc t2 [] l (mkCV None (r_status r0))) by done.
    simpl. rewrite Hd2, (bool_decide_eq_false_2 _ Hs). cbn [mbind res_bind].
    f_equal. unfold drop_empty. unfold entries in He2.
    destruct (_data t2 !! "expected") as [[|? ?]|]; done.
  - cbn [mbind res_bind]. rewrite (drop_default_nil t) by done.
    cbn [mbind res_bind]. f_equal. unfold drop_empty. by rewrite Hd.
Qed.

Lemma all_agree_same rs s :
  (∀ r, r ∈ rs → r_status r = s) → all_agree rs = true.
Proof.
  intros Hall. destruct rs as [|r0 rs]; [done|]. unfold all_agree.
  apply forallb_forall. intros r Hr%list_elem_of_In. apply bool_decide_eq_true.
  rewrite (Hall r0), (Hall r); [done | done | by left].
Qed.

Section new_test.

Variable eval_condition : Node → run_info → bool.

Lemma record_all_default rs t t' d :
  default_status t = Some d →
  record_all eval_condition rs t = Ok t' → default_status t' = Some d.
Proof.
  unfold record_all. revert t.
  induction rs as [|[ri result] rs IH]; intros t Hd Hrun; simpl in Hrun.
  - by inversion Hrun; subst.
  - inv_bind Hrun. simpl in Ha. apply (IH a); [|done].
    apply set_result_default_status in Ha as [-> Hprev].
    f_equal. symmetry. by apply Hprev.
Qed.

(** X17: the life of a test that is not in the manifest. A node made by
    [TestNode.create] is empty. Record results on it that all have the
    status S, and coalesce: the call returns. If S is the default status
    the node is exactly as before the call and is still empty, so that
    nothing needs to be written for the test. Otherwise the node gets one
    unconditional [expected] entry with value S and is not empty any
    more. *)
Theorem new_test_lifecycle (type : string) (id : test_id) (t : TestTree)
    (rs : list (run_info * TestResult)) (S : string) (t1 : TestNode) :
  create type id = inl t →
  rs ≠ [] → (∀ x, x ∈ rs → status x.2 = S) →
  record_all eval_condition rs (t_item t) = Ok t1 →
  is_empty t = Ok true ∧
  ∃ d t2,
    default_status t1 = Some d ∧ coalesce_expected t1 = Ok t2 ∧
    (S = d → t2 = t1 ∧ is_empty (with_item t2 t) = Ok true) ∧
    (S ≠ d →
       is_empty (with_item t2 t) = Ok false ∧
       ∃ l, entries t2 = [l] ∧ cvalues t2 !! l = Some (mkCV None S)).
Proof.
  intros Hcreate Hne Hst Hrec.
  assert (∃ d, default_status t1 = Some d) as [d Hd1].
  { destruct rs as [|[ri result] rs]; [done|].
    unfold record_all in Hrec. simpl in Hrec. inv_bind Hrec. simpl in Ha.
    apply set_result_default_status in Ha as [Ha _].
    exists (default_expected result). by eapply record_all_default. }
  assert (updated_expected (t_item t) = [] ∧ new_expected (t_item t) = [] ∧
          _data (t_item t) !! "expected" = None ∧ t_children t = [] ∧
          is_empty t = Ok true ∧
          ∀ n, cvalues n = cvalues (t_item t) → _data n = _data (t_item t) →
               is_empty (with_item n t) = Ok true ∧
               ∀ cv, is_empty (with_item (append_entry "expected" cv n) t)
                     = Ok false)
    as (Hu0 & Hn0 & Hd0 & Hch0 & Hempty & Hlater).
  { unfold create in Hcreate. case_bool_decide as Hty.
    - subst type.
      destruct (test_id_item 0 id) as [url|]; [|done].
      cbn [mbind res_bind] in Hcreate.
      destruct (last_item (str_split "/" url)) as [name|]; [|done].
      cbn [mbind res_bind set find_unconditional default] in Hcreate.
      destruct (test_id_item 1 id) as [reftype|]; [|done].
      destruct (test_id_item 2 id) as [refurl|]; [|done].
      simpl in Hcreate. inversion Hcreate; subst t; clear Hcreate.
      split_and!; try reflexivity.
      intros [c dt ? ? ? ? ?] Hc Hdt. simpl in Hc, Hdt. subst c dt.
      split; [reflexivity|]. intros cv. reflexivity.
    - destruct id as [url|]; [|done].
      destruct (last_item (str_split "/" url)) as [name|]; [|done].
      replace (set "type" type None (init_TestNode []))
        with (Ok (append_entry "type" (mkCV None type) (init_TestNode [])))
        in Hcreate by reflexivity.
      cbn [mbind res_bind lift_res] in Hcreate.
      inversion Hcreate; subst t; clear Hcreate.
      split_and!; try reflexivity.
      + unfold is_empty, test_type. cbn [t_item].
        replace (get "type" _) with (Ok type) by reflexivity.
        cbn [mbind res_bind].
          rewrite (bool_decide_eq_false_2 (type = "reftest")) by done.
          reflexivity.
      + intros [c dt ? ? ? ? ?] Hc Hdt. simpl in Hc, Hdt. subst c dt.
        split.
        * unfold is_empty, test_type. cbn [t_item with_item].
          replace (get "type" _) with (Ok type) by reflexivity.
          cbn [mbind res_bind].
          rewrite (bool_decide_eq_false_2 (type = "reftest")) by done.
          reflexivity.
        * intros cv. unfold is_empty, test_type. cbn [t_item with_item].
          replace (get "type" _) with (Ok type) by reflexivity.
          cbn [mbind res_bind].
          rewrite (bool_decide_eq_false_2 (type = "reftest")) by done.
          reflexivity. }
  split; [done|].
  destruct (record_all_untracked eval_condition rs _ _ Hu0 Hrec) as [Hu1 Hn1].
  pose proof (record_all_frame eval_condition rs _ _ Hrec)
    as (Hc1 & Hdt1 & _).
  rewrite Hn0 in Hn1. simpl in Hn1.
  destruct rs as [|x rs]; [done|]. rewrite fmap_cons in Hn1.
  assert (all_agree (recorded x :: (recorded <$> rs)) = true) as Hagree.
  { apply (all_agree_same _ S). rewrite <-fmap_cons.
    intros r (y & -> & Hy)%list_elem_of_fmap. by apply Hst. }
  assert (r_status (recorded x) = S) as HS by (apply Hst; by left).
  pose proof (coalesce_new_test t1 _ _ Hu1 ltac:(by rewrite Hdt1) Hn1 Hagree) as Hco.
  rewrite HS, Hd1 in Hco.
  destruct (Hlater t1 Hc1 Hdt1) as [Hsame Hwritten].
  exists d. eexists. split; [done|]. split; [exact Hco|].
  case_bool_decide as Hcase.
  - split; [intros ->; by destruct Hcase|]. intros _. split; [apply Hwritten|].
    exists (fresh (dom (cvalues t1))). split.
    + rewrite append_entry_entries. unfold entries. by rewrite Hdt1, Hd0.
    + by rewrite append_entry_cvalues, lookup_insert_eq.
  - split; [done|]. intros Hne'. destruct Hne'. congruence.
Qed.

End new_test.

Lemma new_test_lifecycle_witness :
  ∃ t t1,
    create "testharness" (Url "/dom/a.html") = inl t ∧
    record_all holds_on_linux [(linux, mkTestResult "FAIL" "PASS")] (t_item t)
      = Ok t1 ∧
    is_empty t = Ok true ∧
    is_empty (with_item (coalesced t1) t) = Ok false ∧
    ∃ l, entries (coalesced t1) = [l] ∧
         cvalues (coalesced t1) !! l = Some (mkCV None "FAIL").
Proof.
  eexists. eexists. split; [reflexivity|]. split; [reflexivity|].
  match goal with |- is_empty ?t = _ ∧ is_empty (with_item (coalesced ?n) _) = _ ∧ _ =>
    set (t0 := t); set (t1 := n) end.
  destruct (new_test_lifecycle holds_on_linux "testharness" (Url "/dom/a.html") t0
              [(linux, mkTestResult "FAIL" "PASS")] "FAIL" t1)
    as (Hempty & d & t2 & Hd & Hco & _ & Hwritten).
  - reflexivity.
  - discriminate.
  - intros x ->%list_elem_of_singleton. reflexivity.
  - reflexivity.
  - split; [exact Hempty|].
    assert (d = "PASS") as -> by (by inversion Hd).
    destruct Hwritten as [He Hl]; [discriminate|].
    assert (t2 = coalesced t1) as -> by (unfold coalesced; by rewrite Hco).
    done.
Defined.

(** ** The manifest and its index *)

Lemma length_remove_first {A} `{EqDecision A} (x : A) (l : list A) :
  x ∈ l → S (length (remove_first x l)) = length l.
Proof.
  induction l as [|y l IH]; simpl; [by intros ?%elem_of_nil|].
  case_bool_decide as Hxy; [done|].
  intros [->|Hin]%elem_of_cons; [done|]. simpl. by rewrite IH.
Qed.

Lemma indexed_alive sep m l :
  indexed sep m → l ∈ m_children m → is_Some (tests m !! l).
Proof.
  intros (_ & _ & Hall & _) Hl. destruct (Hall l Hl) as (id & Hid & _).
  unfold child_id in Hid. by destruct (tests m !! l).
Qed.

Lemma manifest_append_Ok sep child m m' l :
  indexed sep m →
  manifest_append sep child m = Ok (m', l) →
  ∃ id,
    node_id sep (test_path m) child = Ok id ∧
    child_map m !! id = None ∧
    tests m !! l = None ∧
    m' = mkManifest (<[l := child]> (tests m)) (m_children m ++ [l])
                    (<[id := l]> (child_map m)) (test_path m).
Proof.
  intros (Hnd & Hsize & Hall & Hmap). unfold manifest_append, child_id.
  cbn [tests test_path m_children child_map]. rewrite lookup_insert_eq.
  intros H. inv_bind H. inv_bind H. inversion H; subst; clear H.
  unfold check_lengths in Ha0. cbn [tests test_path m_children child_map] in Ha0.
  case_bool_decide as Hlen; [|done]. inversion Ha0; subst; clear Ha0.
  exists a. split; [done|]. split; [|split; [|done]].
  - rewrite map_size_insert, length_app in Hlen. simpl in Hlen.
    destruct (child_map m !! a); [simpl in Hlen; lia | done].
  - apply not_elem_of_dom. apply is_fresh.
Qed.

Lemma manifest_append_indexed sep child m m' l :
  indexed sep m → manifest_append sep child m = Ok (m', l) → indexed sep m'.
Proof.
  intros Hidx Hrun.
  destruct (manifest_append_Ok _ _ _ _ _ Hidx Hrun) as (id & Hid & Hnone & Hl & ->).
  pose proof Hidx as (Hnd & Hsize & Hall & Hmap).
  assert (l ∉ m_children m) as Hfresh.
  { intros Hin. destruct (indexed_alive _ _ _ Hidx Hin) as [? ?]. congruence. }
  unfold indexed, child_id. cbn [tests test_path m_children child_map].
  split_and!.
  - apply NoDup_app. split_and!; [done | | apply NoDup_singleton].
    intros x Hx ->%list_elem_of_singleton. done.
  - rewrite map_size_insert_None, length_app by done. simpl. lia.
  - intros l' [Hin | ->%list_elem_of_singleton]%elem_of_app.
    + destruct (Hall l' Hin) as (id' & Hid' & Hcm). exists id'.
      assert (l ≠ l') as Hne by congruence.
      rewrite lookup_insert_ne by done. split; [done|].
      rewrite lookup_insert_ne; [done|]. congruence.
    + exists id. by rewrite !lookup_insert_eq.
  - intros id' l'. destruct (decide (id' = id)) as [->|Hne].
    + rewrite lookup_insert_eq. intros [= <-]. rewrite lookup_insert_eq.
      split; [|done]. apply elem_of_app. right. by left.
    + rewrite lookup_insert_ne by done. intros Hcm.
      destruct (Hmap _ _ Hcm) as [Hin Hid']. split; [apply elem_of_app; by left|].
      rewrite lookup_insert_ne; [done|]. congruence.
Qed.

Lemma _remove_child_Ok sep l m m' :
  _remove_child sep l m = Ok m' →
  ∃ id l0,
    child_id sep m l = Ok id ∧ child_map m !! id = Some l0 ∧ l ∈ m_children m ∧
    m' = mkManifest (tests m) (remove_first l (m_children m))
                    (delete id (child_map m)) (test_path m).
Proof.
  unfold _remove_child. intros H. inv_bind H.
  destruct (child_map m !! a) as [l0|] eqn:Hcm; [|done].
  case_bool_decide as Hin; [|done]. unfold check_lengths in H.
  case_bool_decide; [|done]. inversion H; subst. by exists a, l0.
Qed.

Lemma _remove_child_indexed sep l m m' :
  indexed sep m → _remove_child sep l m = Ok m' → indexed sep m'.
Proof.
  intros (Hnd & Hsize & Hall & Hmap) Hrun.
  apply _remove_child_Ok in Hrun as (id & l0 & Hid & Hcm & Hin & ->).
  assert (l0 = l) as ->.
  { destruct (Hall l Hin) as (id1 & Hid1 & Hcm1). congruence. }
  unfold indexed, child_id in *. cbn [tests test_path m_children child_map].
  split_and!.
  - by apply remove_first_NoDup.
  - rewrite map_size_delete, Hcm. simpl. rewrite Hsize.
    by rewrite <-(length_remove_first l (m_children m) Hin).
  - intros l' Hl'.
    assert (l' ≠ l) as Hne.
    { intros ->. by apply (remove_first_gone l (m_children m)). }
    apply remove_first_elem in Hl'.
    destruct (Hall l' Hl') as (id' & Hid' & Hcm'). exists id'. split; [done|].
    rewrite lookup_delete_ne; [done|]. congruence.
  - intros id' l'. destruct (decide (id' = id)) as [->|Hne].
    + by rewrite lookup_delete_eq.
    + rewrite lookup_delete_ne by done. intros Hcm'.
      destruct (Hmap _ _ Hcm') as [Hin' Hid']. split; [|done].
      apply remove_first_elem_ne; [|done]. intros ->. congruence.
Qed.

Lemma built_is_indexed sep m : built sep m → indexed sep m.
Proof.
  induction 1 as [path|child m m' l _ IH Hrun|l m m' _ IH Hrun].
  - split_and!; [constructor | done | by intros ? ?%elem_of_nil|].
    intros id l. unfold init_ExpectedManifest. simpl.
    by rewrite lookup_empty.
  - by eapply manifest_append_indexed.
  - by eapply _remove_child_indexed.
Qed.

(** X18: the index of a manifest and its children stay in one to one
    correspondence. In a manifest built from an empty one by [append] and
    [_remove_child] calls that return, the children are distinct objects,
    each child is found in [child_map] under its id, [child_map] holds
    nothing else, and a lookup by id answers with a child exactly when
    [has_test] says so. *)
Theorem built_indexed (sep : ascii) (m : ExpectedManifest) :
  built sep m →
  indexed sep m ∧
  ∀ id, match get_test id m with
        | Ok l => has_test id m = true ∧ l ∈ m_children m ∧
                  child_id sep m l = Ok id
        | Raise e => e = KeyError ∧ has_test id m = false ∧
                     ∀ l, l ∈ m_children m → child_id sep m l ≠ Ok id
        end.
Proof.
  intros Hbuilt.
  pose proof (built_is_indexed _ _ Hbuilt) as Hidx.
  split; [done|]. intros id. unfold get_test, has_test.
  destruct Hidx as (_ & _ & Hall & Hmap).
  destruct (child_map m !! id) as [l|] eqn:Hcm.
  - destruct (Hmap _ _ Hcm). split_and!; [|done..].
    apply bool_decide_eq_true. by eexists.
  - split_and!; [done | |].
    + apply bool_decide_eq_false. by intros [? [=]].
    + intros l Hl Hid. destruct (Hall l Hl) as (id' & Hid' & Hcm'). congruence.
Qed.

(** X19: what [append] does on a manifest whose index is in order. It
    returns when the child has an id that is not in the index yet: the child
    becomes the last child, it is found under its id, and the other ids
    answer as before. It raises AssertionError when the id of the child is
    already that of another child, after the index has been overwritten; and
    when the child has no id (no test type), the exception of [id] comes
    through. *)
Theorem manifest_append_outcome (sep : ascii) (child : TestTree)
    (m : ExpectedManifest) :
  indexed sep m →
  match manifest_append sep child m with
  | Ok (m', l) =>
      ∃ id, node_id sep (test_path m) child = Ok id ∧
            has_test id m = false ∧
            tests m' !! l = Some child ∧
            m_children m' = m_children m ++ [l] ∧
            get_test id m' = Ok l ∧
            ∀ id', id' ≠ id → get_test id' m' = get_test id' m
  | Raise e =>
      match node_id sep (test_path m) child with
      | Ok id => e = AssertionError ∧ has_test id m = true
      | Raise e' => e = e'
      end
  end.
Proof.
  intros Hidx.
  destruct (manifest_append sep child m) as [[m' l]|e] eqn:Hrun.
  - destruct (manifest_append_Ok _ _ _ _ _ Hidx Hrun) as (id & Hid & Hnone & Hl & ->).
    exists id. unfold has_test, get_test. cbn [tests m_children child_map].
    rewrite Hnone, !lookup_insert_eq. split_and!; try done.
    intros id' Hne. by rewrite lookup_insert_ne.
  - destruct Hidx as (_ & Hsize & _). revert Hrun.
    unfold manifest_append, child_id, check_lengths, has_test.
    cbn [tests test_path m_children child_map]. rewrite lookup_insert_eq.
    destruct (node_id sep (test_path m) child) as [id|e'];
      cbn [mbind res_bind]; [|by intros [= <-]].
    rewrite map_size_insert, length_app. simpl.
    destruct (child_map m !! id) as [l0|] eqn:Hcm; simpl.
    + rewrite bool_decide_eq_false_2 by lia. cbn [mbind res_bind].
      by intros [= <-].
    + rewrite bool_decide_eq_true_2 by lia. done.
Qed.

(** X20: removing the child that was just appended undoes the append: on a
    manifest whose index is in order, [_remove_child] of it returns, and the
    children and the index are as they were before the append; the object
    itself is still there. *)
Theorem manifest_append_remove (sep : ascii) (child : TestTree)
    (m m' : ExpectedManifest) (l : loc) :
  indexed sep m →
  manifest_append sep child m = Ok (m', l) →
  ∃ m'', _remove_child sep l m' = Ok m'' ∧
         m_children m'' = m_children m ∧ child_map m'' = child_map m ∧
         tests m'' !! l = Some child.
Proof.
  intros Hidx Hrun.
  destruct (manifest_append_Ok _ _ _ _ _ Hidx Hrun) as (id & Hid & Hnone & Hl & ->).
  pose proof Hidx as (Hnd & Hsize & _).
  assert (l ∉ m_children m) as Hfresh.
  { intros Hin. destruct (indexed_alive _ _ _ Hidx Hin) as [? ?]. congruence. }
  unfold _remove_child, child_id, check_lengths.
  cbn [tests test_path m_children child_map].
  rewrite lookup_insert_eq, Hid. cbn [mbind res_bind].
  rewrite lookup_insert_eq.
  rewrite bool_decide_eq_true_2 by (apply elem_of_app; right; by left).
  cbn [tests test_path m_children child_map].
  rewrite delete_insert_id by done.
  assert (remove_first l (m_children m ++ [l]) = m_children m) as ->.
  { apply remove_first_snoc. apply NoDup_app. split_and!; [done | | apply NoDup_singleton].
    intros x Hx ->%list_elem_of_singleton. done. }
  rewrite bool_decide_eq_true_2 by done.
  eexists. split; [done|]. cbn [tests m_children child_map].
  by rewrite lookup_insert_eq.
Qed.

Lemma manifest_a_built : built "/" manifest_a.
Proof.
  apply (built_append "/" node_a (init_ExpectedManifest "dom/a.html") _ 0).
  - apply built_init.
  - vm_compute. reflexivity.
Qed.

Lemma built_indexed_witness :
  get_test (Url "/dom/a.html") manifest_a = Ok 0 ∧
  has_test (Url "/dom/a.html") manifest_a = true ∧
  child_id "/" manifest_a 0 = Ok (Url "/dom/a.html").
Proof.
  destruct (built_indexed "/" manifest_a) as [_ Hget].
  - apply (built_append "/" node_a (init_ExpectedManifest "dom/a.html") _ 0).
    + apply built_init.
    + vm_compute. reflexivity.
  - specialize (Hget (Url "/dom/a.html")).
    change (get_test (Url "/dom/a.html") manifest_a) with (Ok 0 : res loc) in Hget.
    destruct Hget as (Hhas & _ & Hid). split; [reflexivity|].
    split; [exact Hhas | exact Hid].
Defined.

Lemma manifest_append_outcome_witness :
  manifest_append "/" node_a manifest_a = Raise AssertionError ∧
  has_test (Url "/dom/a.html") manifest_a = true.
Proof.
  pose proof (manifest_append_outcome "/" node_a manifest_a
                (built_is_indexed _ _ manifest_a_built)) as Hout.
  destruct (manifest_append "/" node_a manifest_a) as [[m' l]|e] eqn:Hrun.
  - vm_compute in Hrun. discriminate Hrun.
  - change (node_id "/" (test_path manifest_a) node_a)
      with (Ok (Url "/dom/a.html") : res test_id) in Hout.
    destruct Hout as [-> Hhas]. split; [reflexivity | exact Hhas].
Defined.

Lemma manifest_append_remove_witness :
  ∃ m'', _remove_child "/" 0 manifest_a = Ok m'' ∧
         m_children m'' = [] ∧ child_map m'' = ∅ ∧
         tests m'' !! 0 = Some node_a.
Proof.
  apply (manifest_append_remove "/" node_a (init_ExpectedManifest "dom/a.html")
           manifest_a 0).
  - apply built_is_indexed, built_init.
  - vm_compute. reflexivity.
Defined.

(** ** Soundness of every node that can arise *)

Lemma alloc_spec cvs t ls t' :
  alloc cvs t = (ls, t') →
  NoDup ls ∧
  (∀ l, l ∈ ls → cvalues t !! l = None ∧ is_Some (cvalues t' !! l)) ∧
  (∀ l, is_Some (cvalues t !! l) → is_Some (cvalues t' !! l)) ∧
  _data t' = _data t ∧ node_children t' = node_children t ∧
  updated_expected t' = updated_expected t.
Proof.
  revert t ls t'. induction cvs as [|cv cvs IH]; intros t ls t'; simpl.
  { intros [= <- <-]. split_and!; try done.
    - constructor.
    - by intros ? ?%elem_of_nil. }
  set (l := fresh (dom (cvalues t))).
  destruct (alloc cvs (with_cvalues (<[l:=cv]> (cvalues t)) t)) as [ls' t1] eqn:Ha.
  intros [= <- <-].
  destruct (IH _ _ _ Ha) as (Hnd & Hnew & Hmono & Hd & Hn & Hu). simpl in *.
  assert (cvalues t !! l = None) as Hl.
  { apply not_elem_of_dom. apply is_fresh. }
  split_and!; try done.
  - apply NoDup_cons. split; [|done]. intros Hin.
    destruct (Hnew l Hin) as [Hnone _]. by rewrite lookup_insert_eq in Hnone.
  - intros l' [->|Hin]%elem_of_cons.
    + split; [done|]. apply Hmono. by rewrite lookup_insert_eq.
    + destruct (Hnew l' Hin) as [Hnone ?]. split; [|done].
      by apply lookup_insert_None in Hnone as [? _].
  - intros l' [cv' Hcv']. apply Hmono. rewrite lookup_insert_ne; [by eexists|].
    intros <-. congruence.
Qed.

(** The tracked conditions mirror the stored entries, which are distinct
    objects of the store. *)
Lemma add_attribute_mirror t a :
  NoDup (entries t) → (∀ l, l ∈ entries t → is_Some (cvalues t !! l)) →
  (updated_expected t).*1 = entries t →
  let t' := add_attribute t a in
  NoDup (entries t') ∧ (∀ l, l ∈ entries t' → is_Some (cvalues t' !! l)) ∧
  (updated_expected t').*1 = entries t' ∧
  node_children t' = node_children t ∧
  (∀ k, k = a.1 ∨ is_Some (_data t !! k) → is_Some (_data t' !! k)).
Proof.
  intros Hnd Halive Hmirror. destruct a as [key cvs]. unfold add_attribute. simpl.
  destruct (alloc cvs t) as [ls t1] eqn:Ha.
  destruct (alloc_spec _ _ _ _ Ha) as (Hnd1 & Hnew & Hmono & Hd & Hn & Hu).
  unfold _add_key_value, entries in *. case_bool_decide as Hkey; simpl.
  - subst key. rewrite lookup_insert_eq. simpl. split_and!; try done.
    + intros l Hl. by apply Hnew.
    + rewrite <-list_fmap_compose. simpl. by rewrite list_fmap_id.
    + intros k [->|Hk]; [by rewrite lookup_insert_eq|].
      destruct (decide (k = "expected")) as [->|Hne];
        [by rewrite lookup_insert_eq | by rewrite lookup_insert_ne, Hd].
  - rewrite lookup_insert_ne, Hd, Hu by done. split_and!; try done.
    + intros l Hl. by apply Hmono, Halive.
    + intros k [->|Hk]; [by rewrite lookup_insert_eq|].
      destruct (decide (k = key)) as [->|Hne];
        [by rewrite lookup_insert_eq | by rewrite lookup_insert_ne].
Qed.

Lemma compile_fold_mirror attrs t :
  NoDup (entries t) → (∀ l, l ∈ entries t → is_Some (cvalues t !! l)) →
  (updated_expected t).*1 = entries t →
  let t' := foldl add_attribute t attrs in
  NoDup (entries t') ∧ (∀ l, l ∈ entries t' → is_Some (cvalues t' !! l)) ∧
  (updated_expected t').*1 = entries t' ∧
  node_children t' = node_children t ∧
  (∀ k, k ∈ attrs.*1 ∨ is_Some (_data t !! k) → is_Some (_data t' !! k)).
Proof.
  revert t. induction attrs as [|a attrs IH]; intros t Hnd Halive Hmirror; simpl.
  { split_and!; try done. intros k [?%elem_of_nil|?]; done. }
  destruct (add_attribute_mirror t a Hnd Halive Hmirror)
    as (Hnd1 & Halive1 & Hmirror1 & Hn1 & Hd1).
  destruct (IH _ Hnd1 Halive1 Hmirror1) as (Hnd2 & Halive2 & Hmirror2 & Hn2 & Hd2).
  split_and!; try done; [congruence|].
  intros k [[->|Hk]%elem_of_cons|Hk]; apply Hd2; auto.
Qed.

Lemma kv_once_compiled (keys subs : list string) :
  NoDup keys →
  KeyValueNode "expected" ∉
    remove_first (KeyValueNode "expected")
      ((KeyValueNode <$> keys) ++ (DataNode <$> subs)).
Proof.
  assert (∀ l : list string, KeyValueNode "expected" ∉ DataNode <$> l) as Hdata.
  { intros l (x & [=] & _)%list_elem_of_fmap. }
  induction keys as [|k keys IH]; intros Hnd; csimpl.
  - intros Hin%remove_first_elem. by apply (Hdata subs).
  - apply NoDup_cons in Hnd as [Hk Hnd]. case_bool_decide as Heq.
    + inversion Heq; subst k. intros [Hin|Hin]%elem_of_app.
      * apply list_elem_of_fmap in Hin as (x & [= <-] & Hx). done.
      * by apply (Hdata subs).
    + intros [Hin|Hin]%elem_of_cons; [congruence|]. by apply IH.
Qed.

Lemma compile_node_sound attrs subs :
  NoDup attrs.*1 →
  wf (compile_node attrs subs) ∧ tracked_stored (compile_node attrs subs).
Proof.
  intros Hkeys. unfold compile_node.
  set (t0 := init_TestNode _).
  destruct (compile_fold_mirror attrs t0)
    as (Hnd & Halive & Hmirror & Hn & Hd).
  { constructor. }
  { by intros ? ?%elem_of_nil. }
  { done. }
  split.
  - split; try done.
    + rewrite Hmirror. done.
    + rewrite Hn. by apply kv_once_compiled.
    + intros Hnone. rewrite Hn. subst t0. simpl.
      intros [Hin|Hin]%elem_of_app.
      * apply list_elem_of_fmap in Hin as (k & [= <-] & Hk).
        destruct (Hd "expected") as [? ?]; [by left | congruence].
      * by apply list_elem_of_fmap in Hin as (x & [=] & _).
  - intros e He. rewrite <-Hmirror. apply list_elem_of_fmap. by exists e.
Qed.

Lemma create_item type id t :
  create type id = inl t →
  t_item t = append_entry "type" (mkCV None type) (init_TestNode []) ∨
  ∃ reftype refurl,
    type = "reftest" ∧
    t_item t =
    append_entry "refurl" (mkCV None refurl)
      (append_entry "reftype" (mkCV None reftype)
         (append_entry "type" (mkCV None "reftest") (init_TestNode []))).
Proof.
  unfold create. case_bool_decide as Hty.
  - subst type.
    destruct (test_id_item 0 id) as [url|]; [|done].
    cbn [mbind res_bind].
    destruct (last_item (str_split "/" url)) as [name|]; [|done].
    cbn [mbind res_bind].
    replace (set "type" "reftest" None (init_TestNode []))
      with (Ok (append_entry "type" (mkCV None "reftest") (init_TestNode [])))
      by reflexivity.
    cbn [mbind res_bind].
    destruct (test_id_item 1 id) as [reftype|]; [|done].
    cbn [mbind res_bind].
    replace (set "reftype" reftype None _)
      with (Ok (append_entry "reftype" (mkCV None reftype)
                  (append_entry "type" (mkCV None "reftest") (init_TestNode []))))
      by reflexivity.
    cbn [mbind res_bind].
    destruct (test_id_item 2 id) as [refurl|]; [|done].
    cbn [mbind res_bind].
    replace (set "refurl" refurl None _)
      with (Ok (append_entry "refurl" (mkCV None refurl)
                  (append_entry "reftype" (mkCV None reftype)
                     (append_entry "type" (mkCV None "reftest")
                        (init_TestNode [])))))
      by reflexivity.
    cbn [mbind res_bind lift_res]. intros [= <-]. right. by exists reftype, refurl.
  - destruct id as [url|]; [|done].
    destruct (last_item (str_split "/" url)) as [name|]; [|done].
    replace (set "type" type None (init_TestNode []))
      with (Ok (append_entry "type" (mkCV None type) (init_TestNode [])))
      by reflexivity.
    cbn [mbind res_bind lift_res]. intros [= <-]. by left.
Qed.

Lemma created_sound type id t :
  create type id = inl t → wf (t_item t) ∧ tracked_stored (t_item t).
Proof.
  intros [->|(reftype & refurl & _ & ->)]%create_item.
  - split; [by_compute | by intros ? ?%elem_of_nil].
  - split; [by_compute | by intros ? ?%elem_of_nil].
Qed.

Lemma recorded_node_sound ev t :
  recorded_node ev t → wf t ∧ tracked_stored t.
Proof.
  induction 1 as [cvs|attrs subs Hkeys| |type id t Hcreate|t _ [IHwf IHst]
                 |ri result t t' _ [IHwf IHst] Hset].
  - split; [apply from_file_wf | apply from_file_tracked_stored].
  - by apply compile_node_sound.
  - split; [apply init_TestNode_wf | by intros ? ?%elem_of_nil].
  - by eapply created_sound.
  - split; [by apply clear_expected_item_wf|].
    intros e He. rewrite clear_expected_item_tracked in He.
    by apply elem_of_nil in He.
  - split; [by eapply set_result_wf | by eapply set_result_tracked_stored].
Qed.

(** X10: every node that can arise is sound. Start from a node compiled from
    a manifest in which no attribute is written twice, whatever its
    attributes and subtests, from a node made by [TestNode.create], or from
    one made by the constructor on a new DataNode, and call [clear_expected]
    (on the node), [set_result] and [coalesce_expected] any number of times
    in any order: as long as the calls return, the stored entries of
    [expected] are distinct objects of the store, the tracked conditions are
    distinct objects of the store, and the manifest node has at most one
    [expected] KeyValueNode, none when the attribute is not stored. *)
Theorem reachable_sound (ev : Node → run_info → bool) (t : TestNode) :
  reachable ev t → wf t ∧ tracked_alive t.
Proof.
  induction 1 as [t Hrec|ri result t t' _ [IHwf IHal] Hset|t _ [IHwf IHal]
                 |t t' _ [IHwf IHal] Hco].
  - apply recorded_node_sound in Hrec as [Hwf Hst]. split; [done|].
    intros e He. apply Hwf. by apply Hst.
  - split; [by eapply set_result_wf | by eapply set_result_tracked_alive].
  - split; [by apply clear_expected_item_wf|].
    intros e He. rewrite clear_expected_item_tracked in He.
    by apply elem_of_nil in He.
  - split; [by eapply coalesce_expected_wf|].
    apply coalesce_expected_steps in Hco as (t3 & Hs & ->).
    destruct (steps_static _ _ _ Hs) as (Hu & _).
    destruct (drop_empty_static t3) as (Hu3 & _).
    intros e He. rewrite Hu3, Hu in He. rewrite drop_empty_cvalues.
    destruct (IHal e He) as [cv Hcv].
    destruct (steps_alive _ _ _ _ _ Hs Hcv) as (cv' & ? & _). by exists cv'.
Qed.

Lemma reachable_sound_witness :
  is_Some (_data (coalesced node_compiled_recorded) !! "type") ∧
  wf (coalesced node_compiled_recorded) ∧
  tracked_alive (coalesced node_compiled_recorded).
Proof.
  split; [by eexists|].
  apply (reachable_sound holds_on_linux).
  apply (reachable_coalesce _ node_compiled_recorded);
    [|vm_compute; reflexivity].
  apply reachable_recorded.
  apply (recorded_set_result _ win (mkTestResult "FAIL" "PASS")
           (with_root_modified true
              (with_updated_expected [(1, [mkResult linux "PASS"])]
                 (with_default_status (Some "PASS") node_compiled_linux_fail))));
    [|reflexivity].
  apply (recorded_set_result _ linux (mkTestResult "PASS" "PASS")
           node_compiled_linux_fail); [|reflexivity].
  apply (recorded_compiled _ [("type", [mkCV None "testharness"]);
                              ("expected", [mkCV (Some (os_is "linux")) "FAIL"])] []).
  by_compute.
Defined.

(** ** When a second coalesce_expected changes nothing *)


































(** Outside the conditions of [coalesce_idempotent] the second call differs.
    A condition with a predicate whose results agree on the unconditional
    status is removed, and the second call raises ValueError on removing it
    again; so does a condition with a predicate whose results disagree. A
    condition with a predicate whose results agree on the unconditional
    status that the first call leaves is removed by the second call.
    Unplaced results with another status than the unconditional one get
    their entries once more. *)
Lemma coalesce_twice_otherwise :
  coalesce_expected (coalesced node_linux_passing) = Raise ValueError ∧
  coalesce_expected (coalesced node_debug_disagreeing) = Raise ValueError ∧
  entries (coalesced node_fallback_passing) = [0] ∧
  entries (coalesced (coalesced node_fallback_passing)) = [] ∧
  entries (coalesced node_linux_timeout_win_failing) = [0; 1] ∧
  entries (coalesced (coalesced node_linux_timeout_win_failing)) = [0; 1; 2].
Proof. split_and!; reflexivity. Qed.

(** ** The attribute that coalesce_expected empties *)

(** C7: the second half of the claim fails on the code. A test with
    [expected: FAIL] in the manifest passes on linux, the default status
    being PASS. coalesce_expected gives the one entry the status PASS,
    removes it as the trailing default, and removes the [expected]
    KeyValueNode from the manifest node: but the attribute stays in [_data],
    with zero entries, and [is_empty] answers False. [clear_expected], on
    the same node, deletes the KeyValueNode and the key, and [is_empty]
    answers True. *)
Theorem coalesce_keeps_emptied_attribute :
  ∃ t1 t2,
    set_result holds_on_linux linux (mkTestResult "PASS" "PASS")
      node_compiled_fail = Ok t1 ∧
    entries t1 = [1] ∧
    coalesce_expected t1 = Ok t2 ∧
    entries t2 = [] ∧
    (KeyValueNode "expected" ∉ node_children t2) ∧
    _data t2 !! "expected" = Some [] ∧
    dom (_data t2) = {["type"; "expected"]} ∧
    is_empty (mkTree "a.html" true t2 [] ∅) = Ok false ∧
    _data (clear_expected_item t1) !! "expected" = None ∧
    dom (_data (clear_expected_item t1)) = {["type"]} ∧
    is_empty (mkTree "a.html" true (clear_expected_item t1) [] ∅) = Ok true.
Proof.
  eexists _, _. split; [vm_compute; reflexivity|]. split; [reflexivity|].
  split; [vm_compute; reflexivity|].
  split_and!; try reflexivity; by_compute.
Qed.
